(** * Bellman derivation playground: rule engine, rule catalog, step history
      and linear solver, embedded from the TypeScript sources.

    - [Js]      : the fragment of the JavaScript runtime the sources rely on
                  (thrown values, strings as UTF-16 code units and the
                  [String.prototype] methods used by the rules).
    - [Regex]   : the backtracking matcher behind the regular-expression
                  literals of [rules/mrpBellmanRules.ts].
    - [Types]   : [types.ts].
    - [Catalog] : [rules/mrpBellmanRules.ts].
    - [Engine]  : [ruleEngine.ts].
    - [App]     : the step history kept by [App.tsx].
    - [Matrix]  : [utils/matrix.ts] on IEEE-754 binary64 numbers.
    - [Store]   : [solveLinearSystem] again, on an explicit object store, to
                  speak about what the call writes to.
    - [Renderer], [Session] : the text area of [components/LatexRenderer.tsx]
                  and the handlers of [App.tsx] as the page wires them.
    - [Panel]   : [components/LinearAlgebraPanel.tsx].
    - [Reference] : plain functions the properties compare the code with. *)

From Stdlib Require Import Floats ZArith NArith String Ascii Lia Bool.
From stdpp Require Import base list.

(* ===================================================================== *)
(** ** JavaScript runtime fragment *)
(* ===================================================================== *)

Module Js.

(** A string is a sequence of UTF-16 code units. *)
Definition char := N.
Definition jsstring := list char.

(** A string literal of the sources (all of them are ASCII). *)
Definition lit (s : string) : jsstring :=
  List.map N_of_ascii (list_ascii_of_string s).

(** Values a function can throw: [new Error(message)], a [TypeError] raised
    by the runtime, or any other value, kept as its [String(v)] image. *)
Inductive exn :=
| Error (message : jsstring)
| TypeError (message : jsstring)
| Thrown (image : jsstring).

(** Outcome of a call: normal completion or a thrown value. *)
Inductive result (A : Type) :=
| Ok (a : A)
| Throw (e : exn).
Arguments Ok {A} a.
Arguments Throw {A} e.

Definition bind {A B} (x : result A) (f : A -> result B) : result B :=
  match x with
  | Ok a => f a
  | Throw e => Throw e
  end.

Notation "'let*' x ':=' c1 'in' c2" := (bind c1 (fun x => c2))
  (at level 10, x name, c1 at level 100, c2 at level 200).

(** [try { body } catch (e) { handler }] *)
Definition tryCatch {A} (body : result A) (handler : exn -> result A)
  : result A :=
  match body with
  | Ok a => Ok a
  | Throw e => handler e
  end.

(** [l.filter(f)] for a callback that may throw: the elements are visited
    in order and a throw of the callback ends the call. *)
Fixpoint filterM {A} (f : A -> result bool) (l : list A) : result (list A) :=
  match l with
  | [] => Ok []
  | x :: t =>
      let* keep := f x in
      let* kept := filterM f t in
      Ok (if keep then x :: kept else kept)
  end.

#[global] Instance exn_eq_dec : EqDecision exn.
Proof. solve_decision. Defined.

#[global] Instance result_eq_dec {A} `{EqDecision A} : EqDecision (result A).
Proof. solve_decision. Defined.

(** [e instanceof Error ? e.message : String(e)] *)
Definition message_of (e : exn) : jsstring :=
  match e with
  | Error m => m
  | TypeError m => m
  | Thrown v => v
  end.

(** WhiteSpace and LineTerminator code points: what [\s] matches and what
    [trim] strips. *)
Definition isLineTerminator (c : char) : bool :=
  (N.eqb c 10 || N.eqb c 13 || N.eqb c 8232 || N.eqb c 8233)%bool.

Definition isWhite (c : char) : bool :=
  (N.eqb c 9 || N.eqb c 11 || N.eqb c 12 || N.eqb c 32 || N.eqb c 160
   || N.eqb c 5760 || (N.leb 8192 c && N.leb c 8202)
   || N.eqb c 8239 || N.eqb c 8287 || N.eqb c 12288 || N.eqb c 65279
   || isLineTerminator c)%bool.

Fixpoint trimStart (s : jsstring) : jsstring :=
  match s with
  | c :: t => if isWhite c then trimStart t else s
  | [] => []
  end.

Definition trimEnd (s : jsstring) : jsstring :=
  rev (trimStart (rev s)).

(** [s.trim()] *)
Definition trim (s : jsstring) : jsstring := trimEnd (trimStart s).

Fixpoint isPrefix (p s : jsstring) : bool :=
  match p, s with
  | [], _ => true
  | _ :: _, [] => false
  | a :: p', b :: s' => (N.eqb a b && isPrefix p' s')%bool
  end.

(** First index [k >= i] at which [sub] occurs; [s] is the suffix of the
    subject that starts at index [i]. *)
Fixpoint search (sub s : jsstring) (i : nat) : option nat :=
  if isPrefix sub s then Some i
  else match s with
       | [] => None
       | _ :: t => search sub t (S i)
       end.

(** Last index [k >= i] at which [sub] occurs. *)
Fixpoint searchLast (sub s : jsstring) (i : nat) : option nat :=
  match s with
  | [] => if isPrefix sub s then Some i else None
  | _ :: t =>
      match searchLast sub t (S i) with
      | Some k => Some k
      | None => if isPrefix sub s then Some i else None
      end
  end.

(** [s.includes(sub)] *)
Definition includes (s sub : jsstring) : bool :=
  match search sub s 0 with Some _ => true | None => false end.

(** [s.indexOf(sub, from)]; [-1] when [sub] does not occur. *)
Definition indexOf (s sub : jsstring) (from : Z) : Z :=
  let start := Z.to_nat (Z.min (Z.max from 0) (Z.of_nat (length s))) in
  match search sub (drop start s) start with
  | Some k => Z.of_nat k
  | None => (-1)%Z
  end.

(** [s.lastIndexOf(sub)] *)
Definition lastIndexOf (s sub : jsstring) : Z :=
  match searchLast sub s 0 with
  | Some k => Z.of_nat k
  | None => (-1)%Z
  end.

(** [s.slice(from, to)]: a negative index counts from the end, both are
    clamped to the length. *)
Definition slice (s : jsstring) (from to : Z) : jsstring :=
  let len := Z.of_nat (length s) in
  let clamp k := if (k <? 0)%Z then Z.max (len + k) 0 else Z.min k len in
  let a := Z.to_nat (clamp from) in
  let b := Z.to_nat (clamp to) in
  take (b - a) (drop a s).

End Js.

(* ===================================================================== *)
(** ** Regular expressions *)
(* ===================================================================== *)

Module Regex.
Import Js.

(** Abstract syntax of the patterns that occur in the rule catalog. None of
    them carries the [i], [m], [s] or [u] flag. *)
Inductive regex :=
| Eps                              (* empty pattern *)
| Chr (c : char)                   (* a pattern character or an identity escape *)
| Any                              (* [.] *)
| Space                            (* [\s] *)
| Class (cs : list char)           (* [[...]] over listed characters *)
| Bol                              (* [^] *)
| Eol                              (* [$] *)
| Seq (r1 r2 : regex)
| Alt (r1 r2 : regex)              (* [r1|r2] *)
| Star (r : regex)                 (* greedy [r*] *)
| Group (i : nat) (r : regex).     (* capturing group number [i] *)

(** Greedy [r+] and [r?]. *)
Definition Plus (r : regex) : regex := Seq r (Star r).
Definition Opt (r : regex) : regex := Alt r Eps.

Definition cat (rs : list regex) : regex := foldr Seq Eps rs.

(** A run of pattern characters. *)
Definition str (s : string) : regex := cat (List.map Chr (lit s)).

(** [\s*] *)
Definition ws : regex := Star Space.

(** A run of pattern characters in front of a pattern. *)
Definition lits (cs : list char) (r : regex) : regex :=
  foldr (fun c r => Seq (Chr c) r) r cs.

(** Matcher state: index of the next character, the characters from there
    on, and the captures recorded so far. *)
Record mstate := MState {
  pos : nat;
  rest : jsstring;
  caps : list (nat * jsstring)
}.

Definition step1 (st : mstate) (ok : char -> bool) (k : mstate -> option mstate)
  : option mstate :=
  match rest st with
  | c :: t => if ok c then k (MState (S (pos st)) t (caps st)) else None
  | [] => None
  end.

Definition mem (c : char) (cs : list char) : bool :=
  existsb (N.eqb c) cs.

(** The iterations of a greedy [*] over [body]: one more iteration is
    tried first, the continuation [k] after that. An iteration that consumes
    nothing is rejected, so an iteration consumes at least one character and
    a [fuel] above the number of characters left is never used up. *)
Fixpoint starLoop (body : mstate -> (mstate -> option mstate) -> option mstate)
    (k : mstate -> option mstate) (fuel : nat) (st : mstate) {struct fuel}
  : option mstate :=
  match fuel with
  | O => k st
  | S fuel' =>
      match body st (fun st' =>
              if Nat.eqb (pos st') (pos st) then None
              else starLoop body k fuel' st') with
      | Some e => Some e
      | None => k st
      end
  end.

(** Backtracking matcher in continuation-passing style: [m r st k] matches
    [r] at [st] and hands the state after the match to [k]; a failure of [k]
    makes the matcher try its next alternative. *)
Fixpoint m (r : regex) (st : mstate) (k : mstate -> option mstate) {struct r}
  : option mstate :=
  match r with
  | Eps => k st
  | Chr c => step1 st (N.eqb c) k
  | Any => step1 st (fun x => negb (isLineTerminator x)) k
  | Space => step1 st isWhite k
  | Class cs => step1 st (fun x => mem x cs) k
  | Bol => if Nat.eqb (pos st) 0 then k st else None
  | Eol => match rest st with [] => k st | _ :: _ => None end
  | Seq r1 r2 => m r1 st (fun st' => m r2 st' k)
  | Alt r1 r2 =>
      match m r1 st k with
      | Some e => Some e
      | None => m r2 st k
      end
  | Star r' => starLoop (m r') k (S (length (rest st))) st
  | Group i r' =>
      m r' st (fun st' =>
        k (MState (pos st') (rest st')
             ((i, take (pos st' - pos st) (rest st)) :: caps st')))
  end.

(** Match attempt at index [i], where [s] is the subject from [i] on. *)
Definition matchAt (r : regex) (i : nat) (s : jsstring) : option mstate :=
  m r (MState i s []) Some.

(** Leftmost match at an index [>= i]: the result carries the start index. *)
Fixpoint exec (r : regex) (i : nat) (s : jsstring) : option (nat * mstate) :=
  match matchAt r i s with
  | Some st => Some (i, st)
  | None =>
      match s with
      | [] => None
      | _ :: t => exec r (S i) t
      end
  end.

(** [r.test(s)] for a regex whose [lastIndex] is 0. *)
Definition test (r : regex) (s : jsstring) : bool :=
  match exec r 0 s with Some _ => true | None => false end.

(** Capture [i] of a match ([undefined] is [None]). *)
Definition capture (i : nat) (st : mstate) : option jsstring :=
  snd <$> List.find (fun p => Nat.eqb (fst p) i) (caps st).

(** [s.match(r)] for a regex without the [g] flag: the state of the leftmost
    match, from which the captures are read. *)
Definition match_ (s : jsstring) (r : regex) : option mstate :=
  snd <$> exec r 0 s.

(** [s.replace(r, rep)] for a regex with the [g] flag and a replacement text
    without [$]: every match, left to right and not overlapping, is replaced
    by [rep]; after an empty match the scan moves on by one character.
    [s] is the subject from index [i] on. *)
Fixpoint replaceFrom (fuel : nat) (r : regex) (rep : jsstring)
    (i : nat) (s : jsstring) : jsstring :=
  match fuel with
  | O => s
  | S fuel' =>
      match matchAt r i s with
      | Some st =>
          if Nat.eqb (pos st) i then
            match s with
            | [] => rep
            | c :: t => rep ++ c :: replaceFrom fuel' r rep (S i) t
            end
          else rep ++ replaceFrom fuel' r rep (pos st) (rest st)
      | None =>
          match s with
          | [] => []
          | c :: t => c :: replaceFrom fuel' r rep (S i) t
          end
      end
  end.

Definition replace (s : jsstring) (r : regex) (rep : jsstring) : jsstring :=
  replaceFrom (S (length s)) r rep 0 s.

(** *** Pattern syntax

    The reader for the text of a regular-expression literal, restricted to
    the syntax the catalog uses: pattern characters (with the braces and the
    closing bracket, which are ordinary characters when no quantifier or
    class is open), identity escapes of punctuation, [\s], [.], [^], [$],
    classes of listed characters, capturing groups, [|] and the greedy
    quantifiers. Anything else is refused. *)

Definition isAlnum (a : ascii) : bool :=
  let n := nat_of_ascii a in
  ((Nat.leb 48 n && Nat.leb n 57) || (Nat.leb 65 n && Nat.leb n 90)
   || (Nat.leb 97 n && Nat.leb n 122) || Nat.eqb n 95)%bool.

Definition isDigit (a : ascii) : bool :=
  let n := nat_of_ascii a in (Nat.leb 48 n && Nat.leb n 57)%bool.

(** Body of a class, after the opening bracket. *)
Fixpoint pClass (s : list ascii) (acc : list char)
  : option (list char * list ascii) :=
  match s with
  | "]"%char :: t => Some (rev acc, t)
  | "\"%char :: a :: t =>
      if isAlnum a then None else pClass t (N_of_ascii a :: acc)
  | "-"%char :: _ => None
  | a :: t => pClass t (N_of_ascii a :: acc)
  | [] => None
  end.

(** Optional quantifier after an atom. *)
Definition quantify (r : regex) (s : list ascii) (g : nat)
  : option (regex * list ascii * nat) :=
  let lazy t := match t with "?"%char :: _ => true | _ => false end in
  match s with
  | "*"%char :: t => if lazy t then None else Some (Star r, t, g)
  | "+"%char :: t => if lazy t then None else Some (Plus r, t, g)
  | "?"%char :: t => if lazy t then None else Some (Opt r, t, g)
  | "{"%char :: d :: _ => if isDigit d then None else Some (r, s, g)
  | _ => Some (r, s, g)
  end.

(** [g] counts the groups opened so far. *)
Fixpoint pDisj (fuel : nat) (s : list ascii) (g : nat) {struct fuel}
  : option (regex * list ascii * nat) :=
  match fuel with
  | O => None
  | S f =>
      match pSeq f s g with
      | Some (r1, "|"%char :: t, g1) =>
          match pDisj f t g1 with
          | Some (r2, t2, g2) => Some (Alt r1 r2, t2, g2)
          | None => None
          end
      | other => other
      end
  end
with pSeq (fuel : nat) (s : list ascii) (g : nat) {struct fuel}
  : option (regex * list ascii * nat) :=
  match fuel with
  | O => None
  | S f =>
      match s with
      | [] | "|"%char :: _ | ")"%char :: _ => Some (Eps, s, g)
      | _ =>
          match pTerm f s g with
          | Some (r1, t, g1) =>
              match pSeq f t g1 with
              | Some (r2, t2, g2) => Some (Seq r1 r2, t2, g2)
              | None => None
              end
          | None => None
          end
      end
  end
with pTerm (fuel : nat) (s : list ascii) (g : nat) {struct fuel}
  : option (regex * list ascii * nat) :=
  match fuel with
  | O => None
  | S f =>
      match s with
      | "^"%char :: t => Some (Bol, t, g)
      | "$"%char :: t => Some (Eol, t, g)
      | "."%char :: t => quantify Any t g
      | "\"%char :: "s"%char :: t => quantify Space t g
      | "\"%char :: a :: t =>
          if isAlnum a then None else quantify (Chr (N_of_ascii a)) t g
      | "["%char :: "^"%char :: _ => None
      | "["%char :: t =>
          match pClass t [] with
          | Some (cs, t') => quantify (Class cs) t' g
          | None => None
          end
      | "("%char :: "?"%char :: _ => None
      | "("%char :: t =>
          match pDisj f t (S g) with
          | Some (r, ")"%char :: t', g') => quantify (Group (S g) r) t' g'
          | _ => None
          end
      | "*"%char :: _ | "+"%char :: _ | "?"%char :: _ | ")"%char :: _
      | "|"%char :: _ | "\"%char :: [] | [] => None
      | a :: t => quantify (Chr (N_of_ascii a)) t g
      end
  end.

Definition parse (src : string) : option regex :=
  let s := list_ascii_of_string src in
  match pDisj (3 * length s + 3) s 0 with
  | Some (r, [], _) => Some r
  | _ => None
  end.

(** The pattern of a literal [/src/]; a text outside the supported syntax
    yields the pattern [[]], which is visible in the evaluated definitions
    below and matches nothing. *)
Definition regexp (src : string) : regex :=
  match parse src with
  | Some r => r
  | None => Class []
  end.

End Regex.

(* ===================================================================== *)
(** ** types.ts *)
(* ===================================================================== *)

Module DerivationStep.
Import Js.
Record t := Build {
  latex : jsstring;
  ruleId : option jsstring;
  ruleName : option jsstring;
  explanation : option jsstring
}.
End DerivationStep.

Module RewriteRule.
Import Js.
(** [appliesTo] and [transform] are functions of the expression alone; a
    call either completes with a value or throws. *)
Record t := Build {
  id : jsstring;
  name : jsstring;
  nameLatex : option jsstring;
  appliesTo : jsstring -> result bool;
  transform : jsstring -> result jsstring;
  explanation : jsstring
}.
End RewriteRule.

(* ===================================================================== *)
(** ** rules/mrpBellmanRules.ts *)
(* ===================================================================== *)

Module Catalog.
Import Js Regex.

(** [s.replace(/\s+/g, " ").trim()] *)
Definition normalize (s : jsstring) : jsstring :=
  trim (replace s (regexp "\s+") (lit " ")).

Definition defValue : RewriteRule.t := {|
  RewriteRule.id := lit "def-value";
  RewriteRule.name := lit "Definition of value";
  RewriteRule.nameLatex := Some (lit "v(s)=\mathbb{E}[G_t\mid S_t=s]");
  RewriteRule.appliesTo := fun latex =>
    Ok (test (regexp "v\s*\(\s*s\s*\)") latex
        || test (regexp "v_\s*\\pi\s*\(\s*s\s*\)") latex);
  RewriteRule.transform := fun latex =>
    let next :=
      replace
        (replace latex (regexp "v_\s*\\pi\s*\(\s*s\s*\)")
           (lit "\\mathbb{E}[G_t\\mid S_t=s]"))
        (regexp "v\s*\(\s*s\s*\)")
        (lit "\\mathbb{E}[G_t\\mid S_t=s]") in
    Ok (normalize next);
  RewriteRule.explanation :=
    lit "By definition, the value of state s is the expected return starting from s."
|}.

Definition defReturn : RewriteRule.t := {|
  RewriteRule.id := lit "def-return";
  RewriteRule.name := lit "Expand return definition";
  RewriteRule.nameLatex := Some (lit "G_t=\sum_{k=0}^{\infty}\gamma^k R_{t+1+k}");
  RewriteRule.appliesTo := fun latex =>
    Ok (includes latex (lit "G_t")
        && negb (includes latex (lit "\\sum_{k=0}^{\infty}")));
  RewriteRule.transform := fun latex =>
    let next :=
      replace latex (regexp "G_t")
        (lit "\\sum_{k=0}^{\\infty} \\gamma^k R_{t+1+k}") in
    Ok (normalize next);
  RewriteRule.explanation :=
    lit "Return is the discounted sum of future rewards."
|}.

Definition unrollReturn_pat : regex :=
  regexp "\\\\sum_\\{k=0\\}\\^\\{\\\\infty\\}\\s*\\\\gamma\\^k\\s*R_\\{t\\+1\\+k\\}".

Definition unrollReturn_message : jsstring :=
  lit "Expected the return sum in the form \\sum_{k=0}^{\\infty} \\gamma^k R_{t+1+k}".

Definition unrollReturn : RewriteRule.t := {|
  RewriteRule.id := lit "unroll-return";
  RewriteRule.name := lit "Unroll return";
  RewriteRule.nameLatex := Some (lit "G_t = R_{t+1} + \gamma G_{t+1}");
  RewriteRule.appliesTo := fun latex =>
    Ok (includes latex (lit "\\sum_{k=0}^{\\infty}")
        || includes latex (lit "R_{t+1+k}"));
  RewriteRule.transform := fun latex =>
    let pat := unrollReturn_pat in
    if negb (test pat latex) then
      Throw (Error unrollReturn_message)
    else
      let next :=
        replace latex pat
          (lit "R_{t+1} + \\gamma\\sum_{k=0}^{\\infty} \\gamma^k R_{t+2+k}") in
      Ok (normalize next);
  RewriteRule.explanation :=
    lit "Split the first reward from the discounted sum (index shift)."
|}.

Definition linearity : RewriteRule.t := {|
  RewriteRule.id := lit "linearity";
  RewriteRule.name := lit "Linearity of expectation";
  RewriteRule.nameLatex := Some (lit
    "\mathbb{E}[X+\gamma Y\mid Z]=\mathbb{E}[X\mid Z]+\gamma\mathbb{E}[Y\mid Z]");
  RewriteRule.appliesTo := fun latex =>
    Ok (includes latex (lit "\mathbb{E}[")
        && includes latex (lit "R_{t+1}")
        && includes latex (lit "+")
        && includes latex (lit "\gamma")
        && includes latex (lit "\mid"));
  RewriteRule.transform := fun latex =>
    let start := indexOf latex (lit "\mathbb{E}[") 0 in
    if (start <? 0)%Z then
      Throw (Error (lit "Expected an expression starting with \\mathbb{E}[ ... ]"))
    else
    let mid := indexOf latex (lit "\mid") start in
    if (mid <? 0)%Z then
      Throw (Error (lit "Expected a conditional bar \\mid inside the expectation."))
    else
    let end_ := lastIndexOf latex (lit "]") in
    if ((end_ <? 0)%Z || (end_ <? mid)%Z)%bool then
      Throw (Error (lit "Expected a closing ']' for \\mathbb{E}[ ... ]."))
    else
    let inside :=
      trim (slice latex (start + Z.of_nat (length (lit "\mathbb{E}[")))%Z mid) in
    let cond :=
      trim (slice latex (mid + Z.of_nat (length (lit "\mid")))%Z end_) in
    match match_ inside (regexp "^R_\{t\+1\}\s*\+\s*\\gamma\s*(.+)$") with
    | None =>
        Throw (Error (lit "Expected inside expectation: R_{t+1} + \\gamma ( ... )"))
    | Some m2 =>
        match capture 1 m2 with
        | None =>
            Throw (TypeError (lit "Cannot read properties of undefined (reading 'trim')"))
        | Some m2_1 =>
            let rest := trim m2_1 in
            Ok (lit "\mathbb{E}[R_{t+1}\mid " ++ cond
                ++ lit "] + \gamma\,\mathbb{E}[" ++ rest
                ++ lit "\mid " ++ cond ++ lit "]")
        end
    end;
  RewriteRule.explanation :=
    lit "Expectation is linear; split sums and pull out constants."
|}.

Definition defineR_applies : regex :=
  regexp "\\\\mathbb\{E\}\[R_\{t\+1\}\\\\mid\s*S_t\s*=\s*s\]".

Definition defineR_pat : regex :=
  regexp "\\\\mathbb\\{E\\}\\[R_\\{t\\+1\\}\\\\\\mid\\s*S_t\\s*=\\s*s\\]".

Definition defineR : RewriteRule.t := {|
  RewriteRule.id := lit "define-r";
  RewriteRule.name := lit "Define expected reward";
  RewriteRule.nameLatex := Some (lit "r(s)=\mathbb{E}[R_{t+1}\mid S_t=s]");
  RewriteRule.appliesTo := fun latex => Ok (test defineR_applies latex);
  RewriteRule.transform := fun latex =>
    let next := replace latex defineR_pat (lit "r(s)") in
    Ok (normalize next);
  RewriteRule.explanation :=
    lit "Define r(s) as the expected one-step reward from state s."
|}.

Definition totalExpectationNextState : RewriteRule.t := {|
  RewriteRule.id := lit "total-expectation-next-state";
  RewriteRule.name := lit "Law of total expectation over next state";
  RewriteRule.nameLatex := Some (lit
    "\mathbb{E}[f(S_{t+1})\mid S_t=s]=\sum_{s'}p(s'\mid s)f(s')");
  RewriteRule.appliesTo := fun latex =>
    Ok (test
          (regexp "\\\\mathbb\\{E\\}\\[(G_\\{t\\+1\\}|G_{t\\+1}|\\\\sum_\\{k=0\\}\\^\\{\\\\infty\\}).*\\\\\\mid\\s*S_t\\s*=\\s*s\\]")
          latex);
  RewriteRule.transform := fun latex =>
    let pat := regexp "\\\\mathbb\\{E\\}\\[(.+)\\\\\\mid\\s*S_t\\s*=\\s*s\\]" in
    match match_ latex pat with
    | None => Throw (Error (lit "Expected \\mathbb{E}[ ... \\\mid S_t = s ]"))
    | Some m =>
        match capture 1 m with
        | None =>
            Throw (TypeError (lit "Cannot read properties of undefined (reading 'trim')"))
        | Some m_1 =>
            let X := trim m_1 in
            let next :=
              lit "\\sum_{s'} p(s'\\\mid s)\\,\\mathbb{E}[" ++ X
              ++ lit "\\\mid S_{t+1}=s']" in
            Ok (normalize next)
        end
    end;
  RewriteRule.explanation :=
    lit "Condition on S_{t+1} using the law of total expectation (Markov chain transitions)."
|}.

Definition valueSubstitution : RewriteRule.t := {|
  RewriteRule.id := lit "value-substitution";
  RewriteRule.name := lit "Substitute value at next state";
  RewriteRule.nameLatex := Some (lit "\mathbb{E}[G_{t+1}\mid S_{t+1}=s']=v(s')");
  RewriteRule.appliesTo := fun latex =>
    Ok (includes latex (lit "\\mathbb{E}[")
        && includes latex (lit "\\\mid S_{t+1}=s'"));
  RewriteRule.transform := fun latex =>
    let next :=
      replace
        (replace
           (replace latex
              (regexp "\\\\mathbb\\{E\\}\\[G_\\{t\\+1\\}\\\\\\mid\\s*S_\\{t\\+1\\}=s'\\]")
              (lit "v(s')"))
           (regexp "\\\\mathbb\\{E\\}\\[G_{t\\+1}\\\\\\mid\\s*S_\\{t\\+1\\}=s'\\]")
           (lit "v(s')"))
        (regexp "\\\\mathbb\\{E\\}\\[\\\\sum_\\{k=0\\}\\^\\{\\\\infty\\}\\s*\\\\gamma\\^k\\s*R_\\{t\\+2\\+k\\}\\\\\\mid\\s*S_\\{t\\+1\\}=s'\\]")
        (lit "v(s')") in
    Ok (normalize next);
  RewriteRule.explanation :=
    lit "Recognize the expected future return from the next state as v(s')."
|}.

Definition assembleBellman : RewriteRule.t := {|
  RewriteRule.id := lit "assemble-bellman";
  RewriteRule.name := lit "Assemble Bellman expectation equation";
  RewriteRule.nameLatex := Some (lit "v(s)=r(s)+\gamma\sum_{s'}p(s'\mid s)v(s')");
  RewriteRule.appliesTo := fun latex =>
    Ok (includes latex (lit "r(s)") && includes latex (lit "\\sum_{s'}"));
  RewriteRule.transform := fun latex =>
    let pat := regexp
      "^r\\(s\\)\\s*\\+\\s*\\\\gamma\\s*\\\\sum_\\{s'\\}\\s*p\\(s'\\\\\\mid\\s*s\\)\\s*,?\\s*v\\(s'\\)$" in
    let pat2 := regexp
      "^r\\(s\\)\\s*\\+\\s*\\\\gamma\\s*\\\\sum_\\{s'\\}\\s*p\\(s'\\\\\\mid\\s*s\\)\\\\,\\s*v\\(s'\\)$" in
    if (negb (test pat latex) && negb (test pat2 latex))%bool then
      Throw (Error (lit "Expected r(s) + \\gamma \\sum_{s'} p(s'|s) v(s')"))
    else
      Ok (lit "v(s) = r(s) + \\gamma \\sum_{s'} p(s'\\\mid s) v(s')");
  RewriteRule.explanation :=
    lit "This is the Bellman expectation equation for an MRP."
|}.

Definition mrpBellmanRules : list RewriteRule.t :=
  [ defValue; defReturn; unrollReturn; linearity; defineR;
    totalExpectationNextState; valueSubstitution; assembleBellman ].

(** [mrpBellmanRules.find((r) => r.id === ruleId)] *)
Definition ruleById (ruleId : jsstring) : option RewriteRule.t :=
  List.find (fun r => bool_decide (RewriteRule.id r = ruleId)) mrpBellmanRules.

(** A string is whitespace-normalized when [normalize] leaves it as it is. *)
Definition normalized (s : jsstring) : Prop := normalize s = s.

(** What replacing every run of whitespace by one space gives; [inRun]
    tells that the character before was whitespace. *)
Fixpoint collapseFrom (inRun : bool) (s : jsstring) : jsstring :=
  match s with
  | [] => []
  | c :: t =>
      if isWhite c then
        if inRun then collapseFrom true t else 32%N :: collapseFrom true t
      else c :: collapseFrom false t
  end.

(** Words of characters that are not whitespace, one space between two. *)
Inductive tidy : jsstring -> Prop :=
| tidy_nil : tidy []
| tidy_last c : isWhite c = false -> tidy [c]
| tidy_char c d t :
    isWhite c = false -> isWhite d = false -> tidy (d :: t) ->
    tidy (c :: d :: t)
| tidy_sep c d t :
    isWhite c = false -> isWhite d = false -> tidy (d :: t) ->
    tidy (c :: 32%N :: d :: t).

(** The same, or with one more space at the end. *)
Definition tidyT (u : jsstring) : Prop :=
  tidy u \/ exists v, v <> [] /\ tidy v /\ u = v ++ [32%N].

(** The fixed beginning of what the predicate of [define-r] matches, and
    of what the pattern of its transform matches. *)
Definition defineR_head : jsstring := lit "\\mathbb{E}[R_{t+1}\\mid".
Definition defineR_pat_head : jsstring := lit "\\mathbb\".

(** The texts of all regular-expression literals of the catalog. *)
Definition patternSources : list string := (
  [ "\s+";
    "v\s*\(\s*s\s*\)";
    "v_\s*\\pi\s*\(\s*s\s*\)";
    "G_t";
    "\\\\sum_\\{k=0\\}\\^\\{\\\\infty\\}\\s*\\\\gamma\\^k\\s*R_\\{t\\+1\\+k\\}";
    "^R_\{t\+1\}\s*\+\s*\\gamma\s*(.+)$";
    "\\\\mathbb\{E\}\[R_\{t\+1\}\\\\mid\s*S_t\s*=\s*s\]";
    "\\\\mathbb\\{E\\}\\[R_\\{t\\+1\\}\\\\\\mid\\s*S_t\\s*=\\s*s\\]";
    "\\\\mathbb\\{E\\}\\[(G_\\{t\\+1\\}|G_{t\\+1}|\\\\sum_\\{k=0\\}\\^\\{\\\\infty\\}).*\\\\\\mid\\s*S_t\\s*=\\s*s\\]";
    "\\\\mathbb\\{E\\}\\[(.+)\\\\\\mid\\s*S_t\\s*=\\s*s\\]";
    "\\\\mathbb\\{E\\}\\[G_\\{t\\+1\\}\\\\\\mid\\s*S_\\{t\\+1\\}=s'\\]";
    "\\\\mathbb\\{E\\}\\[G_{t\\+1}\\\\\\mid\\s*S_\\{t\\+1\\}=s'\\]";
    "\\\\mathbb\\{E\\}\\[\\\\sum_\\{k=0\\}\\^\\{\\\\infty\\}\\s*\\\\gamma\\^k\\s*R_\\{t\\+2\\+k\\}\\\\\\mid\\s*S_\\{t\\+1\\}=s'\\]";
    "^r\\(s\\)\\s*\\+\\s*\\\\gamma\\s*\\\\sum_\\{s'\\}\\s*p\\(s'\\\\\\mid\\s*s\\)\\s*,?\\s*v\\(s'\\)$";
    "^r\\(s\\)\\s*\\+\\s*\\\\gamma\\s*\\\\sum_\\{s'\\}\\s*p\\(s'\\\\\\mid\\s*s\\)\\\\,\\s*v\\(s'\\)$" ])%string.

End Catalog.

(* ===================================================================== *)
(** ** ruleEngine.ts *)
(* ===================================================================== *)

Module Engine.
Import Js.

Definition applicableRules (latex : jsstring) (rules : list RewriteRule.t)
  : result (list RewriteRule.t) :=
  filterM (fun r =>
      tryCatch (RewriteRule.appliesTo r latex) (fun _ => Ok false))
    rules.

(** The rules a predicate accepts: [appliesTo] completes with [true]. *)
Definition accepts (latex : jsstring) (r : RewriteRule.t) : Prop :=
  RewriteRule.appliesTo r latex = Ok true.

#[global] Instance accepts_dec latex r : Decision (accepts latex r).
Proof. unfold accepts. apply _. Defined.

Definition applyRule (current : DerivationStep.t) (rule : RewriteRule.t)
  : result DerivationStep.t :=
  let* nextLatex := RewriteRule.transform rule (DerivationStep.latex current) in
  Ok {| DerivationStep.latex := nextLatex;
        DerivationStep.ruleId := Some (RewriteRule.id rule);
        DerivationStep.ruleName := Some (RewriteRule.name rule);
        DerivationStep.explanation := Some (RewriteRule.explanation rule) |}.

End Engine.

(* ===================================================================== *)
(** ** App.tsx: the step history *)
(* ===================================================================== *)

Module App.
Import Js.

Definition START : DerivationStep.t := {|
  DerivationStep.latex := lit "v(s)";
  DerivationStep.ruleId := None;
  DerivationStep.ruleName := Some (lit "Start");
  DerivationStep.explanation :=
    Some (lit "Start from the value function for a state s.")
|}.

(** The two pieces of component state, [steps] and [activeIndex]. *)
Record state := State {
  steps : list DerivationStep.t;
  activeIndex : nat
}.

Definition initial : state := State [START] 0.

(** The pair of updates every handler that adds a step ends with:
    [setSteps(prev => prev.slice(0, activeIndex + 1).concat(next))] and
    [setActiveIndex(_ => activeIndex + 1)]. *)
Definition advance (st : state) (next : DerivationStep.t) : state :=
  State (take (activeIndex st + 1) (steps st) ++ [next]) (activeIndex st + 1).

Definition setActiveLatex (st : state) (nextLatex : jsstring) : state :=
  let nextStep := {|
    DerivationStep.latex := nextLatex;
    DerivationStep.ruleId := None;
    DerivationStep.ruleName := Some (lit "Manual edit");
    DerivationStep.explanation := Some (lit "You edited the expression.")
  |} in
  advance st nextStep.

(** [onApplyRule], for a catalog [rules]; [active] is [steps[activeIndex]],
    and a cursor outside the history makes the handler throw when it reads
    [active.latex]. *)
Definition onApplyRule (rules : list RewriteRule.t) (st : state)
    (ruleId : jsstring) : result state :=
  match List.find (fun r => bool_decide (RewriteRule.id r = ruleId)) rules with
  | None => Ok st
  | Some rule =>
      match steps st !! activeIndex st with
      | None =>
          Throw (TypeError (lit "Cannot read properties of undefined (reading 'latex')"))
      | Some active =>
          match Engine.applyRule active rule with
          | Ok next => Ok (advance st next)
          | Throw e =>
              let msg := message_of e in
              let next := {|
                DerivationStep.latex := DerivationStep.latex active;
                DerivationStep.ruleId := None;
                DerivationStep.ruleName :=
                  Some (lit "Rule failed: " ++ RewriteRule.name rule);
                DerivationStep.explanation := Some msg
              |} in
              Ok (advance st next)
          end
      end
  end.

Definition reset (st : state) : state := State [START] 0.

(** The Back button and a click on a history entry. *)
Definition back (st : state) : state :=
  State (steps st) (Nat.max 0 (activeIndex st - 1)).

Definition goTo (st : state) (idx : nat) : state := State (steps st) idx.

(** A history of five steps with the cursor on the third: four edits of the
    expression, then a click on entry 2 of the history. *)
Definition history5 : state :=
  goTo
    (setActiveLatex
       (setActiveLatex
          (setActiveLatex (setActiveLatex initial (lit "a")) (lit "b"))
          (lit "c"))
       (lit "d"))
    2.

End App.

(* ===================================================================== *)
(** ** utils/latex.ts *)
(* ===================================================================== *)

Module Latex.
Import Js Regex.

(** [s.replace(/\\\\/g, "\\")]: two backslashes become one. *)
Definition canonicalizeLatex (s : jsstring) : jsstring :=
  replace s (regexp "\\\\") (lit "\").

End Latex.

(* ===================================================================== *)
(** ** utils/matrix.ts *)
(* ===================================================================== *)

Module Matrix.
Import Js.

(** A [number] is an IEEE-754 binary64 value. *)
Abbreviation Vec := (list float).
Abbreviation Mat := (list (list float)).

(** [v[i]] where a number is expected: an index outside the array yields
    [undefined], which every arithmetic operator and [Math.abs] read as
    [NaN]. *)
Definition num (v : list float) (i : nat) : float := nth i v nan.

(** [A[r][c]], for a row index inside [A]. *)
Definition entry (A : Mat) (r c : nat) : float := num (nth r A []) c.

(** [v[i] = x]: an index inside replaces the element; an index past the end
    grows the array, and the slots skipped are holes, which read as
    [undefined]. *)
Definition store (v : list float) (i : nat) (x : float) : list float :=
  if i <? length v then <[i := x]> v
  else v ++ replicate (i - length v) nan ++ [x].

(** [A[r][c] = x], for a row index inside [A]. *)
Definition setEntry (A : Mat) (r c : nat) (x : float) : Mat :=
  <[r := store (nth r A []) c x]> A.

Definition identity (n : nat) : Mat :=
  List.map (fun i =>
    List.map (fun j => if Nat.eqb i j then 1%float else 0%float) (seq 0 n))
    (seq 0 n).

Definition matScale (A : Mat) (c : float) : Mat :=
  List.map (fun row => List.map (fun v => (c * v)%float) row) A.

Definition ShapeMismatch : exn := Error (lit "Matrix shape mismatch").
Definition DimensionMismatch : exn := Error (lit "b length mismatch").
Definition SingularMatrix : exn :=
  Error (lit "Matrix is singular or ill-conditioned").

(** The guard reads [A.length !== B.length || A[0].length !== B[0].length];
    its right operand is reached with equal row counts only, and reading
    [.length] of the missing first row of an empty matrix throws. *)
Definition matSub (A B : Mat) : result Mat :=
  if negb (length A =? length B) then Throw ShapeMismatch
  else
    match A, B with
    | a0 :: _, b0 :: _ =>
        if negb (length a0 =? length b0) then Throw ShapeMismatch
        else
          Ok (imap (fun i row =>
                imap (fun j v => (v - entry B i j)%float) row) A)
    | _, _ =>
        Throw (TypeError (lit "Cannot read properties of undefined (reading 'length')"))
    end.

(** [A[i][j]] where the element may be missing. *)
Definition lookup2 (A : Mat) (i j : nat) : option float :=
  A !! i ≫= (.!! j).

(** All rows have [cols] columns. *)
Definition rectangular (A : Mat) (cols : nat) : Prop :=
  Forall (fun row => length row = cols) A.

(** [A.map(row => row.slice())] *)
Definition cloneMat (A : Mat) : Mat := List.map (fun row => row) A.

(** The binary64 value of the literal [1e-12]. *)
Definition tolerance : float := 0x1.19799812dea11p-40%float.

(** The pivot search of column [col]: [pivot] starts at [col] and moves to
    each later row whose entry is larger in absolute value. *)
Definition choosePivot (A : Mat) (n col : nat) : nat :=
  fold_left (fun pivot r =>
      if (abs (entry A pivot col) <? abs (entry A r col))%float
      then r else pivot)
    (seq (col + 1) (n - (col + 1))) col.

(** [[l[i], l[j]] = [l[j], l[i]]], for indices inside [l]. *)
Definition swap {T} (d : T) (l : list T) (i j : nat) : list T :=
  let x := nth j l d in
  let y := nth i l d in
  <[j := y]> (<[i := x]> l).

(** One pass of the elimination loop body, for row [r] below the pivot. *)
Definition eliminateRow (n col : nat) (st : Mat * Vec) (r : nat) : Mat * Vec :=
  let '(A, b) := st in
  let factor := (entry A r col / entry A col col)%float in
  let A :=
    fold_left (fun A c =>
        setEntry A r c (entry A r c - factor * entry A col c)%float)
      (seq col (n - col)) A in
  let b := store b r (num b r - factor * num b col)%float in
  (A, b).

(** The body of the loop over the pivot columns. *)
Definition pivotStep (n : nat) (st : Mat * Vec) (col : nat)
  : result (Mat * Vec) :=
  let '(A, b) := st in
  let pivot := choosePivot A n col in
  if (abs (entry A pivot col) <? tolerance)%float then Throw SingularMatrix
  else
    let A := swap [] A col pivot in
    let b := swap nan b col pivot in
    Ok (fold_left (eliminateRow n col) (seq (col + 1) (n - (col + 1))) (A, b)).

(** The pivot columns [cols], in turn; a throw ends the loop. *)
Definition eliminate (n : nat) (cols : list nat) (st : Mat * Vec)
  : result (Mat * Vec) :=
  fold_left (fun acc col => let* st := acc in pivotStep n st col) cols (Ok st).

(** One pass of the back-substitution loop body. *)
Definition backRow (n : nat) (A : Mat) (b : Vec) (x : Vec) (r : nat) : Vec :=
  let sum :=
    fold_left (fun sum c => (sum - entry A r c * num x c)%float)
      (seq (r + 1) (n - (r + 1))) (num b r) in
  store x r (sum / entry A r r)%float.

Definition backSubstitute (n : nat) (A : Mat) (b : Vec) : Vec :=
  fold_left (backRow n A b) (rev (seq 0 n)) (replicate n 0%float).

Definition solveLinearSystem (Ain : Mat) (bIn : Vec) : result Vec :=
  let A := cloneMat Ain in
  let b := bIn in
  let n := length A in
  if negb (length b =? n) then Throw DimensionMismatch
  else
    let* st := eliminate n (seq 0 n) (A, b) in
    Ok (backSubstitute n (fst st) (snd st)).

(** [Number.isFinite(x)] *)
Definition finite (x : float) : Prop := is_finite x = true.

(** [x] is [y], or [x] is [+0] where [y] is [-0]; either way [x === y]. *)
Definition sameValue (x y : float) : Prop :=
  x = y \/ (y = neg_zero /\ x = 0%float).

(** [b'] has the length of [b] and, position by position, the same values. *)
Definition close (b' b : Vec) : Prop :=
  length b' = length b
  /\ forall i, i < length b -> sameValue (num b' i) (num b i).

Definition allFinite (b : Vec) : Prop :=
  forall i, i < length b -> finite (num b i).

End Matrix.

(* ===================================================================== *)
(** ** utils/matrix.ts on an object store *)
(* ===================================================================== *)

(** Arrays are objects: a [Mat] is an array of references to row arrays, and
    an assignment to an element changes the array for every holder of a
    reference to it. This module runs [solveLinearSystem] on a store of
    array objects, so that what the call writes to is explicit. *)

Module Store.
Import Js.

Abbreviation Vec := (list float).
Abbreviation Mat := (list (list float)).

(** A reference is an index into the store. *)
Abbreviation loc := nat.

(** An array of numbers, or an array of references to arrays. *)
Inductive obj :=
| Numbers (v : list float)
| Rows (rs : list loc).

(** The store maps a reference to its object; a new object goes to the
    end. *)
Abbreviation heap := (list obj).

(** A computation reads and writes the store and completes with a value or
    a thrown value. *)
Definition M (A : Type) : Type := heap -> result A * heap.

Definition ret {A} (a : A) : M A := fun h => (Ok a, h).

Definition throw {A} (e : exn) : M A := fun h => (Throw e, h).

Definition sbind {A B} (c : M A) (f : A -> M B) : M B :=
  fun h =>
    match c h with
    | (Ok a, h') => f a h'
    | (Throw e, h') => (Throw e, h')
    end.

Notation "'do' x <- c1 ; c2" := (sbind c1 (fun x => c2))
  (at level 10, x name, c1 at level 100, c2 at level 200).

Notation "'run' c1 ; c2" := (sbind c1 (fun _ => c2))
  (at level 10, c1 at level 100, c2 at level 200).

(** A [for] loop over the values [l] of its counter. *)
Fixpoint forEach {A} (l : list A) (body : A -> M unit) : M unit :=
  match l with
  | [] => ret tt
  | x :: t => run body x; forEach t body
  end.

(** A [for] loop that updates a local variable. *)
Fixpoint foldM {A S} (body : S -> A -> M S) (l : list A) (s : S) : M S :=
  match l with
  | [] => ret s
  | x :: t => do s' <- body s x; foldM body t s'
  end.

(** [l.map(f)] *)
Fixpoint mapM {A B} (f : A -> M B) (l : list A) : M (list B) :=
  match l with
  | [] => ret []
  | x :: t => do y <- f x; do ys <- mapM f t; ret (y :: ys)
  end.

Definition notAnArray : exn :=
  TypeError (lit "Cannot read properties of undefined").

(** A new array object. *)
Definition new (o : obj) : M loc := fun h => (Ok (length h), h ++ [o]).

(** The elements of an array of numbers. *)
Definition nums (a : loc) : M (list float) :=
  fun h =>
    match h !! a with
    | Some (Numbers v) => (Ok v, h)
    | _ => (Throw notAnArray, h)
    end.

(** The elements of an array of rows. *)
Definition rows (a : loc) : M (list loc) :=
  fun h =>
    match h !! a with
    | Some (Rows rs) => (Ok rs, h)
    | _ => (Throw notAnArray, h)
    end.

(** [a.length] *)
Definition lengthOf (a : loc) : M nat :=
  fun h =>
    match h !! a with
    | Some (Numbers v) => (Ok (length v), h)
    | Some (Rows rs) => (Ok (length rs), h)
    | None => (Throw notAnArray, h)
    end.

(** [a[i]] in an array of numbers, where a number is expected. *)
Definition getNum (a : loc) (i : nat) : M float :=
  do v <- nums a; ret (Matrix.num v i).

(** [a[i] = x] in an array of numbers. *)
Definition setNum (a : loc) (i : nat) (x : float) : M unit :=
  fun h =>
    match h !! a with
    | Some (Numbers v) => (Ok tt, <[a := Numbers (Matrix.store v i x)]> h)
    | _ => (Throw notAnArray, h)
    end.

(** [A[r]] in an array of rows; a missing row is [undefined], and the
    access to its element that follows throws. *)
Definition getRow (A : loc) (r : nat) : M loc :=
  do rs <- rows A;
  match rs !! r with
  | Some row => ret row
  | None => throw notAnArray
  end.

(** [A[r] = row] in an array of rows, for an index inside. *)
Definition setRow (A : loc) (r : nat) (row : loc) : M unit :=
  fun h =>
    match h !! A with
    | Some (Rows rs) => (Ok tt, <[A := Rows (<[r := row]> rs)]> h)
    | _ => (Throw notAnArray, h)
    end.

(** [A[r][c]] and [A[r][c] = x] *)
Definition getEntry (A : loc) (r c : nat) : M float :=
  do row <- getRow A r; getNum row c.

Definition setEntry (A : loc) (r c : nat) (x : float) : M unit :=
  do row <- getRow A r; setNum row c x.

(** [A.map(row => row.slice())] *)
Definition cloneMat (A : loc) : M loc :=
  do rs <- rows A;
  do copies <- mapM (fun row => do v <- nums row; new (Numbers v)) rs;
  new (Rows copies).

Definition choosePivot (A : loc) (n col : nat) : M nat :=
  foldM (fun pivot r =>
      do x <- getEntry A r col;
      do y <- getEntry A pivot col;
      ret (if (abs y <? abs x)%float then r else pivot))
    (seq (col + 1) (n - (col + 1))) col.

Definition eliminateRow (A b : loc) (n col r : nat) : M unit :=
  do arc <- getEntry A r col;
  do acc <- getEntry A col col;
  let factor := (arc / acc)%float in
  run forEach (seq col (n - col)) (fun c =>
        do x <- getEntry A r c;
        do y <- getEntry A col c;
        setEntry A r c (x - factor * y)%float);
  do br <- getNum b r;
  do bc <- getNum b col;
  setNum b r (br - factor * bc)%float.

(** [[A[i], A[j]] = [A[j], A[i]]]: both elements are read, then both are
    written; on an array of rows it is the references that change place. *)
Definition swapRows (A : loc) (i j : nat) : M unit :=
  do rowJ <- getRow A j;
  do rowI <- getRow A i;
  run setRow A i rowJ;
  setRow A j rowI.

Definition swapNums (b : loc) (i j : nat) : M unit :=
  do bJ <- getNum b j;
  do bI <- getNum b i;
  run setNum b i bJ;
  setNum b j bI.

Definition pivotStep (A b : loc) (n col : nat) : M unit :=
  do pivot <- choosePivot A n col;
  do p <- getEntry A pivot col;
  if (abs p <? Matrix.tolerance)%float then throw Matrix.SingularMatrix
  else
    run swapRows A col pivot;
    run swapNums b col pivot;
    forEach (seq (col + 1) (n - (col + 1))) (eliminateRow A b n col).

Definition backRow (A b x : loc) (n r : nat) : M unit :=
  do br <- getNum b r;
  do sum <- foldM (fun sum c =>
                do a <- getEntry A r c;
                do xc <- getNum x c;
                ret (sum - a * xc)%float)
              (seq (r + 1) (n - (r + 1))) br;
  do arr <- getEntry A r r;
  setNum x r (sum / arr)%float.

(** The call [solveLinearSystem(Ain, bIn)] on references to the caller's
    arrays; the result is a reference to the new array [x]. *)
Definition solveLinearSystem (Ain bIn : loc) : M loc :=
  do A <- cloneMat Ain;
  do bv <- nums bIn;
  do b <- new (Numbers bv);
  do n <- lengthOf A;
  do bLength <- lengthOf b;
  if negb (bLength =? n) then throw Matrix.DimensionMismatch
  else
    run forEach (seq 0 n) (pivotStep A b n);
    do x <- new (Numbers (replicate n 0%float));
    run forEach (rev (seq 0 n)) (backRow A b x n);
    ret x.

(** Placing a matrix and a vector in a store, rows first. *)
Definition allocMat (A : Mat) : M loc :=
  do rs <- mapM (fun row => new (Numbers row)) A;
  new (Rows rs).

(** *** Assertions on stores *)

(** [hoare P c Q E]: from a store in [P], [c] ends in a store in [Q a] when
    it completes with [a], and in [E x] when it throws [x]. *)
Definition hoare {T} (P : heap -> Prop) (c : M T)
    (Q : T -> heap -> Prop) (E : exn -> heap -> Prop) : Prop :=
  forall h, P h ->
    match c h with
    | (Ok a, h') => Q a h'
    | (Throw x, h') => E x h'
    end.

(** With [h0] the store at the call: a reference made after the call
    began. *)
Definition fresh (h0 : heap) (l : loc) : Prop := length h0 <= l.

(** The store still holds the objects of [h0], unchanged. *)
Definition extends (h0 h : heap) : Prop := h0 `prefix_of` h.

(** The working copy [A] is an array of fresh rows. *)
Definition inv (h0 : heap) (A : loc) (h : heap) : Prop :=
  extends h0 h /\ fresh h0 A
  /\ exists rs, h !! A = Some (Rows rs) /\ Forall (fresh h0) rs.

(** No reference occurs twice. *)
Definition distinct (rs : list loc) : Prop :=
  forall i j row, rs !! i = Some row -> rs !! j = Some row -> i = j.

(** The working copies: [A] is an array of [n] distinct rows that hold the
    rows of [Am], and [b], which is none of them, holds [bv]. *)
Definition holds (A b : loc) (n : nat) (st : Mat * Vec) (h : heap) : Prop :=
  length st.1 = n /\ length st.2 = n
  /\ h !! b = Some (Numbers st.2)
  /\ exists rs,
       h !! A = Some (Rows rs) /\ length rs = n /\ distinct rs
       /\ forall i row, rs !! i = Some row ->
            row <> b
            /\ exists v, st.1 !! i = Some v /\ h !! row = Some (Numbers v).


(** During the back substitution: the working copies and the result array
    [x], which is none of them, holding [xv]. *)
Definition holdsX (A b x : loc) (n : nat) (st : Mat * Vec) (xv : Vec)
    (h : heap) : Prop :=
  holds A b n st h
  /\ h !! x = Some (Numbers xv) /\ length xv = n /\ x <> b
  /\ forall rs, h !! A = Some (Rows rs) -> x ∉ rs.

(** The vector and the matrix a reference stands for. *)
Definition vecAt (h : heap) (b : loc) : option Vec :=
  match h !! b with
  | Some (Numbers v) => Some v
  | _ => None
  end.

Fixpoint rowsAt (h : heap) (rs : list loc) : option Mat :=
  match rs with
  | [] => Some []
  | r :: t =>
      match vecAt h r, rowsAt h t with
      | Some v, Some m => Some (v :: m)
      | _, _ => None
      end
  end.

Definition matAt (h : heap) (A : loc) : option Mat :=
  match h !! A with
  | Some (Rows rs) => rowsAt h rs
  | _ => None
  end.

End Store.

(* ===================================================================== *)
(** ** components/LatexRenderer.tsx *)
(* ===================================================================== *)

Module Renderer.
Import Js App Latex.

(** The [onChange] of the text area, with [setActiveLatex] as the owner's
    handler: the text typed is canonicalized before it becomes a step. *)
Definition onChange (st : state) (value : jsstring) : state :=
  setActiveLatex st (canonicalizeLatex value).

End Renderer.

(* ===================================================================== *)
(** ** App.tsx: the handlers behind the page *)
(* ===================================================================== *)

Module Session.
Import Js App.

(** What a user can do on the page: type in the text area, press a rule
    button, Reset or Back, or click entry [idx] of the step history. *)
Inductive event :=
| Edit (value : jsstring)
| Apply (ruleId : jsstring)
| Reset
| Back
| Select (idx : nat).

Definition handle (st : state) (ev : event) : result state :=
  match ev with
  | Edit value => Ok (Renderer.onChange st value)
  | Apply ruleId => onApplyRule Catalog.mrpBellmanRules st ruleId
  | Reset => Ok (reset st)
  | Back => Ok (back st)
  | Select idx => Ok (goTo st idx)
  end.

(** The history panel has one button per step, so a click selects an index
    inside the history; the other controls are always there. *)
Definition offered (st : state) (ev : event) : Prop :=
  match ev with
  | Select idx => idx < length (steps st)
  | _ => True
  end.

(** The states a session can be in. *)
Inductive reachable : state -> Prop :=
| reach_initial : reachable initial
| reach_event st ev st' :
    reachable st -> offered st ev -> handle st ev = Ok st' -> reachable st'.

(** The cursor is inside the history, which begins with [START]. *)
Definition wellFormed (st : state) : Prop :=
  activeIndex st < length (steps st) /\ steps st !! 0 = Some START.

End Session.

(* ===================================================================== *)
(** ** components/LinearAlgebraPanel.tsx *)
(* ===================================================================== *)

Module Panel.
Import Js Matrix.

(** [s.split(sep)]: the scan keeps the piece collected since the last
    separator in [cur], reversed, and [s] is what is left to read. A
    separator found at the very position the piece starts at is stepped
    over, which only the empty separator makes possible. *)
Fixpoint splitFrom (fuel : nat) (sep cur s : jsstring) : list jsstring :=
  match fuel with
  | O => []
  | S fuel' =>
      match s with
      | [] => [rev cur]
      | c :: t =>
          if (isPrefix sep s
              && negb (Nat.eqb (length sep) 0 && Nat.eqb (length cur) 0))%bool
          then rev cur :: splitFrom fuel' sep [] (drop (length sep) s)
          else splitFrom fuel' sep (c :: cur) t
      end
  end.

Definition split (s sep : jsstring) : list jsstring :=
  match s, sep with
  | [], [] => []
  | _, _ => splitFrom (2 * length s + 1) sep [] s
  end.

(** [String(e)] of a thrown value: for an error object, its name and its
    message. *)
Definition toString (e : exn) : jsstring :=
  match e with
  | Error [] => lit "Error"
  | Error msg => lit "Error: " ++ msg
  | TypeError [] => lit "TypeError"
  | TypeError msg => lit "TypeError: " ++ msg
  | Thrown image => image
  end.

(** What the panel shows: the solution or the text of the failure. *)
Inductive outcome :=
| Solved (V : Vec)
| Failed (error : jsstring).

Section Conversion.

(** [Number(text)], the conversion of a string to a number; it returns a
    number on every string ([NaN] on what is not a numeric literal). *)
Variable Number : jsstring -> float.

Definition parseMatrix (text : jsstring) : result Mat :=
  let rows :=
    List.map (fun r => List.map Number (split r (lit ",")))
      (split (trim text) [10%N]) in
  let n := length rows in
  if existsb (fun r => negb (length r =? n)) rows then
    Throw (Error (lit "P must be square"))
  else Ok rows.

Definition parseVector (text : jsstring) (n : nat) : result Vec :=
  let v := List.map Number (split text (lit ",")) in
  if negb (length v =? n) then Throw (Error (lit "R length mismatch"))
  else Ok v.

(** The body of the [useMemo] of the panel. *)
Definition solution (gamma Ptext Rtext : jsstring) : outcome :=
  let attempt :=
    let g := Number gamma in
    let* P := parseMatrix Ptext in
    let* R := parseVector Rtext (length P) in
    let* A := matSub (identity (length P)) (matScale P g) in
    let* V := solveLinearSystem A R in
    Ok V in
  match attempt with
  | Ok V => Solved V
  | Throw e => Failed (toString e)
  end.

End Conversion.

End Panel.

(* ===================================================================== *)
(** ** Reference functions *)
(* ===================================================================== *)

(** Plain functions and predicates the properties below compare the code
    with. *)

Module Reference.
Import Js Regex.

(** The characters a match of [r] can consume. *)
Fixpoint consumes (r : regex) (c : char) : bool :=
  match r with
  | Eps | Bol | Eol => false
  | Chr c' => N.eqb c' c
  | Any => negb (isLineTerminator c)
  | Space => isWhite c
  | Class cs => mem c cs
  | Seq r1 r2 | Alt r1 r2 => consumes r1 c || consumes r2 c
  | Star r' | Group _ r' => consumes r' c
  end.

(** The numbers of the capturing groups of [r]. *)
Fixpoint groupsOf (r : regex) : list nat :=
  match r with
  | Seq r1 r2 | Alt r1 r2 => groupsOf r1 ++ groupsOf r2
  | Star r' => groupsOf r'
  | Group i r' => i :: groupsOf r'
  | _ => []
  end.

Definition isEps (r : regex) : bool :=
  match r with Eps => true | _ => false end.

(** [r] begins with [^], ends with [$]. *)
Fixpoint startsAtBol (r : regex) : bool :=
  match r with
  | Bol => true
  | Seq r1 _ => startsAtBol r1
  | Alt r1 r2 => startsAtBol r1 && startsAtBol r2
  | Group _ r' => startsAtBol r'
  | _ => false
  end.

Fixpoint endsAtEol (r : regex) : bool :=
  match r with
  | Eol => true
  | Seq r1 r2 => endsAtEol r2 || (endsAtEol r1 && isEps r2)
  | Alt r1 r2 => endsAtEol r1 && endsAtEol r2
  | Group _ r' => endsAtEol r'
  | _ => false
  end.

(** What a successful match of [r] from [st] hands to its continuation:
    a state [st'] reached by consuming a word [w]. *)
Definition reaches (r : regex) (st st' : mstate) : Prop :=
  exists w new,
    rest st = w ++ rest st'
    /\ pos st' = pos st + length w
    /\ Forall (fun c => consumes r c = true) w
    /\ caps st' = new ++ caps st
    /\ Forall (fun p => p.1 ∈ groupsOf r) new
    /\ (endsAtEol r = true -> rest st' = [])
    /\ (startsAtBol r = true -> pos st = 0).

Definition sound (r : regex) : Prop :=
  forall st k e, m r st k = Some e -> exists st', reaches r st st' /\ k st' = Some e.

(** The pieces of [s] between whitespace characters; the first one is the
    piece [s] begins with. *)
Fixpoint pieces (s : jsstring) : list jsstring :=
  match s with
  | [] => [[]]
  | c :: t =>
      if isWhite c then [] :: pieces t
      else match pieces t with
           | w :: ws => (c :: w) :: ws
           | [] => [[c]]
           end
  end.

(** The words of [s]: its maximal runs of characters that are not
    whitespace. *)
Definition words (s : jsstring) : list jsstring :=
  List.filter (fun w => negb (Nat.eqb (length w) 0)) (pieces s).

(** Words joined by one space. *)
Fixpoint unwords (ws : list jsstring) : jsstring :=
  match ws with
  | [] => []
  | [w] => w
  | w :: rest => w ++ 32%N :: unwords rest
  end.

(** Every backslash written twice, and every pair of backslashes, read left
    to right, written once. *)
Fixpoint escape (s : jsstring) : jsstring :=
  match s with
  | [] => []
  | c :: t => if N.eqb c 92 then 92%N :: 92%N :: escape t else c :: escape t
  end.

Fixpoint halve (s : jsstring) : jsstring :=
  match s with
  | [] => []
  | c :: t =>
      match t with
      | d :: t' =>
          if (N.eqb c 92 && N.eqb d 92)%bool then 92%N :: halve t'
          else c :: halve t
      | [] => [c]
      end
  end.

(** The fields of [s] between occurrences of the character [sep]. *)
Fixpoint fields (sep : char) (s : jsstring) : list jsstring :=
  match s with
  | [] => [[]]
  | c :: t =>
      if N.eqb sep c then [] :: fields sep t
      else match fields sep t with
           | w :: ws => (c :: w) :: ws
           | [] => [[c]]
           end
  end.

End Reference.

(* ===================================================================== *)
(** * Properties *)
(* ===================================================================== *)

(** ** The rule engine *)

Section EngineFacts.
Import Js Engine.

Implicit Types (e : jsstring) (C : list RewriteRule.t) (r : RewriteRule.t).

Lemma guarded_predicate_total e r :
  tryCatch (RewriteRule.appliesTo r e) (fun _ => Ok false)
  = Ok (bool_decide (accepts e r)).
Proof.
  case_bool_decide as H; unfold accepts in H.
  - now rewrite H.
  - destruct (RewriteRule.appliesTo r e) as [[]|x]; simpl; congruence.
Qed.

Lemma applicableRules_filter e C :
  applicableRules e C = Ok (filter (accepts e) C).
Proof.
  unfold applicableRules.
  induction C as [|r C IH]; [reflexivity|].
  cbn [filterM]. rewrite guarded_predicate_total, IH. cbn [bind].
  rewrite filter_cons. case_bool_decide as H; destruct (decide (accepts e r));
    done.
Qed.

(** C1. For every expression [e] and catalog [C], [applicableRules e C]
    completes normally (no throw of a predicate reaches the caller) with
    exactly the rules of [C] whose [appliesTo e] returns [true], in catalog
    order; a rule whose predicate throws or returns [false] is left out. *)
Theorem applicableRules_exact e C :
  exists out,
    applicableRules e C = Ok out
    /\ out = filter (accepts e) C
    /\ out `sublist_of` C
    /\ (forall r, r ∈ out <-> r ∈ C /\ RewriteRule.appliesTo r e = Ok true)
    /\ (forall r x, RewriteRule.appliesTo r e = Throw x -> r ∉ out).
Proof.
  exists (filter (accepts e) C).
  split; [apply applicableRules_filter|].
  split; [reflexivity|].
  split; [apply sublist_filter|].
  split.
  - intros r. rewrite list_elem_of_filter. unfold accepts. tauto.
  - intros r x Hx Hin. apply list_elem_of_filter in Hin as [Hacc _].
    unfold accepts in Hacc. congruence.
Qed.

End EngineFacts.

(** ** The step history *)

Section HistoryFacts.
Import Js App.

Implicit Types (st : state) (next : DerivationStep.t).

Lemma advance_shape st next :
  activeIndex st < length (steps st) ->
  steps (advance st next) = take (S (activeIndex st)) (steps st) ++ [next]
  /\ length (steps (advance st next)) = activeIndex st + 2
  /\ activeIndex (advance st next) = activeIndex st + 1
  /\ steps (advance st next) !! activeIndex (advance st next) = Some next.
Proof.
  intros Hin. unfold advance; cbn [steps activeIndex].
  replace (activeIndex st + 1) with (S (activeIndex st)) by lia.
  assert (Hlen : length (take (S (activeIndex st)) (steps st))
                 = S (activeIndex st)) by (rewrite length_take; lia).
  repeat split.
  - rewrite length_app, Hlen. cbn. lia.
  - rewrite lookup_app_r by lia. rewrite Hlen, Nat.sub_diag. reflexivity.
Qed.

(** Every handler that adds a step does it through [advance]. *)
Lemma onApplyRule_advances rules st ruleId rule active :
  List.find (fun r => bool_decide (RewriteRule.id r = ruleId)) rules = Some rule ->
  steps st !! activeIndex st = Some active ->
  exists next, onApplyRule rules st ruleId = Ok (advance st next).
Proof.
  intros Hfind Hact. unfold onApplyRule. rewrite Hfind, Hact.
  destruct (Engine.applyRule active rule); eauto.
Qed.

(** C4, as the code has it. On a history of five steps with the cursor at
    index 2, [advance] keeps the steps 0 to 2, drops the steps 3 and 4 and
    appends the new step: the history then has FOUR steps, and the cursor,
    now 3, is on the new last one. *)
Theorem advance_5_2_gives_4 st next :
  length (steps st) = 5 ->
  activeIndex st = 2 ->
  steps (advance st next) = take 3 (steps st) ++ [next]
  /\ length (steps (advance st next)) = 4
  /\ activeIndex (advance st next) = 3
  /\ steps (advance st next) !! 3 = Some next
  /\ last (steps (advance st next)) = Some next.
Proof.
  intros Hlen Hcur.
  destruct (advance_shape st next) as (Hs & Hl & Hc & Hn); [lia|].
  rewrite Hc in Hn. rewrite Hcur in Hs, Hl, Hc, Hn.
  repeat split; try assumption.
  rewrite Hs. apply last_snoc.
Qed.

Lemma advance_5_2_gives_4_witness :
  length (steps history5) = 5
  /\ activeIndex history5 = 2
  /\ length (steps (advance history5 START)) = 4
  /\ activeIndex (advance history5 START) = 3.
Proof.
  split; [reflexivity|]. split; [reflexivity|].
  destruct (advance_5_2_gives_4 history5 START) as (_ & Hl & Hc & _);
    [reflexivity | reflexivity | ].
  split; assumption.
Defined.

(** C4 as stated fails: the history after [advance] does not have length 3. *)
Lemma advance_5_2_not_3 :
  length (steps history5) = 5
  /\ activeIndex history5 = 2
  /\ length (steps (advance history5 START)) <> 3.
Proof. split; [reflexivity|]. split; [reflexivity|]. vm_compute. discriminate. Qed.

End HistoryFacts.

(** ** The matcher *)

Section RegexFacts.
Import Js Regex.

Lemma mstate_eta st : MState (pos st) (rest st) (caps st) = st.
Proof. now destruct st. Qed.

Lemma m_space st k :
  m Space st k
  = match rest st with
    | c :: t =>
        if isWhite c then k (MState (S (pos st)) t (caps st)) else None
    | [] => None
    end.
Proof. reflexivity. Qed.

Lemma m_seq r1 r2 st k : m (Seq r1 r2) st k = m r1 st (fun st' => m r2 st' k).
Proof. reflexivity. Qed.

Lemma m_star r st k :
  m (Star r) st k = starLoop (m r) k (S (length (rest st))) st.
Proof. reflexivity. Qed.

(** A run of pattern characters matches exactly itself. *)
Lemma m_lits cs r : forall st k,
  m (lits cs r) st k
  = if isPrefix cs (rest st)
    then m r (MState (pos st + length cs) (drop (length cs) (rest st)) (caps st)) k
    else None.
Proof.
  induction cs as [|c cs IH]; intros st k.
  - cbn. now rewrite Nat.add_0_r, mstate_eta.
  - cbn [lits foldr m]. unfold step1.
    destruct (rest st) as [|x t] eqn:Hrest; [reflexivity|].
    cbn [isPrefix]. destruct (N.eqb c x); [|reflexivity].
    fold (lits cs r). rewrite IH. cbn [rest pos caps andb length drop].
    now rewrite Nat.add_succ_r.
Qed.

Lemma isPrefix_app p s : isPrefix p s = true -> s = p ++ drop (length p) s.
Proof.
  revert s. induction p as [|a p IH]; intros [|b s]; cbn; try discriminate;
    [reflexivity|reflexivity|].
  intros H. apply andb_prop in H as [Hab Hp]. apply N.eqb_eq in Hab as ->.
  f_equal. now apply IH.
Qed.

Lemma lits_sound cs r st k e :
  m (lits cs r) st k = Some e ->
  exists t,
    rest st = cs ++ t
    /\ m r (MState (pos st + length cs) t (caps st)) k = Some e.
Proof.
  rewrite m_lits. destruct (isPrefix cs (rest st)) eqn:Hp; [|discriminate].
  intros H. exists (drop (length cs) (rest st)).
  split; [now apply isPrefix_app|exact H].
Qed.

(** An unescaped [^] after pattern characters can never match: the
    characters have moved the matcher away from index 0. *)
Lemma lits_bol_fails cs r st k :
  cs <> [] \/ pos st <> 0 ->
  m (lits cs (Seq Bol r)) st k = None.
Proof.
  revert st. induction cs as [|c cs IH]; intros st H.
  - destruct H as [H|H]; [congruence|].
    cbn. destruct (pos st); [congruence|reflexivity].
  - cbn [lits foldr m]. unfold step1.
    destruct (rest st) as [|x t]; [reflexivity|].
    destruct (N.eqb c x); [|reflexivity].
    apply IH. right. cbn. lia.
Qed.

Lemma exec_lits_none cs r : forall v i,
  (forall j, isPrefix cs (drop j v) = false) ->
  exec (lits cs r) i v = None.
Proof.
  induction v as [|c v IH]; intros i H; cbn [exec]; unfold matchAt;
    rewrite m_lits; cbn [rest]; pose proof (H 0) as H0; rewrite drop_0 in H0;
    rewrite H0.
  - reflexivity.
  - apply IH. intros j. exact (H (S j)).
Qed.

Lemma replaceFrom_lits_none cs r rep : forall fuel v i,
  (forall j, isPrefix cs (drop j v) = false) ->
  replaceFrom fuel (lits cs r) rep i v = v.
Proof.
  induction fuel as [|fuel IH]; intros v i H; cbn [replaceFrom]; [reflexivity|].
  unfold matchAt. rewrite m_lits. cbn [rest].
  pose proof (H 0) as H0. rewrite drop_0 in H0. rewrite H0.
  destruct v as [|c v]; [reflexivity|].
  f_equal. apply IH. intros j. exact (H (S j)).
Qed.

(** *** Whitespace *)

(** What [\s*] consumes is whitespace. *)
Lemma star_space_sound k e : forall fuel st,
  starLoop (m Space) k fuel st = Some e ->
  exists w t,
    rest st = w ++ t
    /\ Forall (fun c => isWhite c = true) w
    /\ k (MState (pos st + length w) t (caps st)) = Some e.
Proof.
  assert (Hstop : forall st, k st = Some e ->
    exists w t, rest st = w ++ t /\ Forall (fun c => isWhite c = true) w
                /\ k (MState (pos st + length w) t (caps st)) = Some e).
  { intros st H. exists [], (rest st). cbn [length app].
    rewrite Nat.add_0_r, mstate_eta. auto. }
  induction fuel as [|fuel IH]; intros st H; cbn [starLoop] in H;
    [now apply Hstop|].
  rewrite m_space in H.
  destruct (rest st) as [|c t] eqn:Hrest;
    [rewrite <- Hrest; now apply Hstop|].
  destruct (isWhite c) eqn:Hc; [|rewrite <- Hrest; now apply Hstop].
  cbn [pos] in H.
  destruct (Nat.eqb_spec (S (pos st)) (pos st)) as [Habs|_]; [lia|].
  destruct (starLoop (m Space) k fuel (MState (S (pos st)) t (caps st)))
    as [e'|] eqn:Hloop; [|rewrite <- Hrest; apply Hstop; exact H].
  injection H as ->. apply IH in Hloop as (w & t' & Ht & Hw & Hk).
  cbn [rest pos caps] in Ht, Hk. exists (c :: w), t'. subst t.
  split; [reflexivity|]. split; [now constructor|].
  cbn [length]. now rewrite Nat.add_succ_r.
Qed.

Lemma ws_sound r st k e :
  m (Seq ws r) st k = Some e ->
  exists w t,
    rest st = w ++ t
    /\ Forall (fun c => isWhite c = true) w
    /\ m r (MState (pos st + length w) t (caps st)) k = Some e.
Proof. cbn [m ws]. apply star_space_sound. Qed.

Lemma trimStart_length s : length (trimStart s) <= length s.
Proof.
  induction s as [|c s IH]; cbn; [lia|]. destruct (isWhite c); cbn; lia.
Qed.

(** With nothing required after it, [\s*] consumes the whole run. *)
Lemma star_space_greedy : forall fuel st,
  length (rest st) < fuel ->
  exists p,
    starLoop (m Space) (fun st' => m Eps st' Some) fuel st
    = Some (MState p (trimStart (rest st)) (caps st))
    /\ pos st <= p.
Proof.
  induction fuel as [|fuel IH]; intros st Hf; [lia|].
  cbn [starLoop]. rewrite m_space.
  destruct (rest st) as [|c t] eqn:Hrest.
  { exists (pos st). cbn. rewrite <- Hrest, mstate_eta. auto. }
  cbn [trimStart]. destruct (isWhite c) eqn:Hc.
  2:{ exists (pos st). cbn. rewrite <- Hrest, mstate_eta. auto. }
  cbn [pos].
  destruct (Nat.eqb_spec (S (pos st)) (pos st)) as [Habs|_]; [lia|].
  destruct (IH (MState (S (pos st)) t (caps st))) as (p & -> & Hp);
    [cbn in *; lia|].
  exists p. cbn [rest caps pos] in *. split; [reflexivity|lia].
Qed.

End RegexFacts.

(** ** The rule catalog *)

Section CatalogFacts.
Import Js Regex Catalog Engine App Latex.

(** Every regular-expression literal of the catalog is within the syntax
    the pattern reader covers. *)
Lemma patternSources_parse :
  Forall (fun src => is_Some (parse src)) patternSources.
Proof. repeat constructor; vm_compute; eauto. Qed.

(** *** Normalization *)

Lemma collapseFrom_true s :
  collapseFrom true s = collapseFrom false (trimStart s).
Proof.
  induction s as [|c s IH]; [reflexivity|]. cbn [collapseFrom trimStart].
  destruct (isWhite c) eqn:Hc; [exact IH|]. cbn [collapseFrom]. now rewrite Hc.
Qed.

(** *** The replacement of [/\s+/g] *)

Lemma regexp_spaces :
  regexp "\s+" = Seq (Seq Space (Star Space)) Eps.
Proof. reflexivity. Qed.

Lemma matchAt_spaces i s :
  matchAt (regexp "\s+") i s
  = match s with
    | c :: t =>
        if isWhite c
        then starLoop (m Space) (fun st' => m Eps st' Some) (S (length t))
               (MState (S i) t [])
        else None
    | [] => None
    end.
Proof.
  rewrite regexp_spaces. unfold matchAt. rewrite !m_seq, m_space. cbn [rest].
  destruct s as [|c t]; [reflexivity|].
  destruct (isWhite c); [|reflexivity]. now rewrite m_star.
Qed.

Lemma matchAt_spaces_white i c t :
  isWhite c = true ->
  exists p,
    matchAt (regexp "\s+") i (c :: t) = Some (MState p (trimStart t) [])
    /\ i < p.
Proof.
  intros Hc. rewrite matchAt_spaces, Hc.
  destruct (star_space_greedy (S (length t)) (MState (S i) t []))
    as (p & Hp & Hle); [cbn; lia|].
  exists p. cbn [rest pos caps] in *. split; [exact Hp|lia].
Qed.

Lemma replace_spaces : forall fuel s i,
  length s < fuel ->
  replaceFrom fuel (regexp "\s+") (lit " ") i s = collapseFrom false s.
Proof.
  induction fuel as [|fuel IH]; intros s i Hf; [lia|].
  cbn [replaceFrom]. destruct s as [|c t].
  { now rewrite matchAt_spaces. }
  cbn [collapseFrom]. destruct (isWhite c) eqn:Hc.
  - destruct (matchAt_spaces_white i c t Hc) as (p & -> & Hp).
    cbn [pos rest]. destruct (Nat.eqb_spec p i) as [->|_]; [lia|].
    rewrite IH by (pose proof (trimStart_length t); cbn in Hf; lia).
    now rewrite collapseFrom_true.
  - rewrite matchAt_spaces, Hc. f_equal. apply IH. cbn in Hf. lia.
Qed.

Lemma trimStart_collapse flag s :
  trimStart (collapseFrom flag s) = collapseFrom true s.
Proof.
  revert flag. induction s as [|c t IH]; intros flag; [now destruct flag|].
  cbn [collapseFrom]. destruct (isWhite c) eqn:Hc.
  - destruct flag; [apply IH|].
    cbn [trimStart]. change (isWhite 32%N) with true. apply IH.
  - cbn [trimStart]. now rewrite Hc.
Qed.

Lemma normalize_collapse s : normalize s = trimEnd (collapseFrom true s).
Proof.
  unfold normalize, replace, trim. rewrite replace_spaces by lia.
  now rewrite trimStart_collapse.
Qed.

(** *** Tidy strings *)

Lemma tidy_cons c u : isWhite c = false -> tidy u -> tidy (c :: u).
Proof.
  intros Hc Hu.
  destruct Hu as [|d Hd|d e t Hd He Ht|d e t Hd He Ht].
  - now apply tidy_last.
  - apply tidy_char; try assumption. now apply tidy_last.
  - apply tidy_char; try assumption. now apply tidy_char.
  - apply tidy_char; try assumption. now apply tidy_sep.
Qed.

Lemma tidy_head_not_white c u : tidy (c :: u) -> isWhite c = false.
Proof. now inversion 1. Qed.

Lemma tidy_cons_sep c u :
  isWhite c = false -> tidy u -> u <> [] -> tidy (c :: 32%N :: u).
Proof.
  intros Hc Hu Hne. destruct u as [|d t]; [congruence|].
  apply tidy_sep; try assumption. now apply tidy_head_not_white in Hu.
Qed.

Lemma tidyT_cons c u : isWhite c = false -> tidyT u -> tidyT (c :: u).
Proof.
  intros Hc [Hu|(v & Hne & Hv & ->)].
  - left. now apply tidy_cons.
  - right. exists (c :: v). split; [discriminate|]. split; [now apply tidy_cons|].
    reflexivity.
Qed.

Lemma tidyT_cons_sep c u :
  isWhite c = false -> tidyT u -> tidyT (c :: 32%N :: u).
Proof.
  intros Hc [Hu|(v & Hne & Hv & ->)].
  - destruct u as [|d t].
    + right. exists [c]. split; [discriminate|]. split; [now constructor|].
      reflexivity.
    + left. now apply tidy_cons_sep.
  - right. exists (c :: 32%N :: v). split; [discriminate|].
    split; [now apply tidy_cons_sep|reflexivity].
Qed.

Lemma collapse_shape s :
  tidyT (collapseFrom true s)
  /\ (tidyT (collapseFrom false s)
      \/ exists u, tidyT u /\ collapseFrom false s = 32%N :: u).
Proof.
  induction s as [|c t [IHt IHf]].
  - split; [|left]; left; constructor.
  - cbn [collapseFrom]. destruct (isWhite c) eqn:Hc.
    + split; [exact IHt|]. right. now exists (collapseFrom true t).
    + assert (H : tidyT (c :: collapseFrom false t)).
      { destruct IHf as [Hf|(u & Hu & ->)];
          [now apply tidyT_cons|now apply tidyT_cons_sep]. }
      split; [exact H|now left].
Qed.

Lemma trimEnd_snoc_white v c :
  isWhite c = true -> trimEnd (v ++ [c]) = trimEnd v.
Proof.
  intros Hc. unfold trimEnd. rewrite rev_app_distr. cbn [rev app trimStart].
  now rewrite Hc.
Qed.

Lemma trimStart_snoc l c :
  trimStart (l ++ [c])
  = match trimStart l with
    | [] => if isWhite c then [] else [c]
    | r => r ++ [c]
    end.
Proof.
  induction l as [|a l IH]; cbn [app trimStart]; [now destruct (isWhite c)|].
  destruct (isWhite a); [exact IH|reflexivity].
Qed.

Lemma trimEnd_cons c t :
  trimEnd (c :: t)
  = match trimEnd t with
    | [] => if isWhite c then [] else [c]
    | r => c :: r
    end.
Proof.
  unfold trimEnd. cbn [rev]. rewrite trimStart_snoc.
  destruct (trimStart (rev t)) as [|a r] eqn:E; cbn [rev].
  - now destruct (isWhite c).
  - rewrite rev_app_distr. cbn [rev app].
    destruct (rev r ++ [a]) eqn:E2; [now destruct (rev r)|reflexivity].
Qed.

Lemma tidy_trimEnd u : tidy u -> trimEnd u = u.
Proof.
  induction 1 as [|c Hc|c d t Hc Hd Ht IH|c d t Hc Hd Ht IH].
  - reflexivity.
  - rewrite trimEnd_cons. cbn. now rewrite Hc.
  - rewrite trimEnd_cons, IH. reflexivity.
  - rewrite trimEnd_cons, trimEnd_cons, IH. reflexivity.
Qed.

Lemma tidy_trimStart u : tidy u -> trimStart u = u.
Proof. destruct 1; cbn [trimStart]; try reflexivity; now rewrite H. Qed.

Lemma collapse_char flag c t :
  isWhite c = false -> collapseFrom flag (c :: t) = c :: collapseFrom false t.
Proof. intros Hc. cbn [collapseFrom]. now rewrite Hc. Qed.

Lemma collapse_space t :
  collapseFrom false (32%N :: t) = 32%N :: collapseFrom true t.
Proof. reflexivity. Qed.

Lemma tidy_collapse u :
  tidy u -> collapseFrom false u = u /\ collapseFrom true u = u.
Proof.
  induction 1 as [|c Hc|c d t Hc Hd Ht [IH1 IH2]|c d t Hc Hd Ht [IH1 IH2]].
  - now split.
  - rewrite !collapse_char by exact Hc. now split.
  - rewrite !(collapse_char _ c) by exact Hc. rewrite IH1. now split.
  - rewrite !(collapse_char _ c) by exact Hc. rewrite collapse_space, IH2.
    now split.
Qed.

Lemma tidyT_trimEnd u : tidyT u -> tidy (trimEnd u).
Proof.
  intros [Hu|(v & _ & Hv & ->)].
  - now rewrite tidy_trimEnd.
  - rewrite trimEnd_snoc_white by reflexivity. now rewrite tidy_trimEnd.
Qed.

(** [normalize] returns a tidy string and leaves a tidy string as it is. *)
Lemma normalize_tidy s : tidy (normalize s).
Proof. rewrite normalize_collapse. apply tidyT_trimEnd, collapse_shape. Qed.

Lemma tidy_normalized u : tidy u -> normalized u.
Proof.
  intros Hu. unfold normalized. rewrite normalize_collapse.
  rewrite (proj2 (tidy_collapse u Hu)). now apply tidy_trimEnd.
Qed.

Lemma normalize_idempotent s : normalize (normalize s) = normalize s.
Proof. apply tidy_normalized, normalize_tidy. Qed.

(** *** The rules *)

(** C6 does not hold of the code: the step [def-value] produces from the
    start step does not contain [\mathbb{E}[G_t\mid S_t=s]] written with
    single backslashes. The replacement text of the rule writes every
    backslash twice. *)
Theorem defValue_on_start_not_single_backslash :
  ruleById (lit "def-value") = Some defValue
  /\ ~ exists next,
         applyRule START defValue = Ok next
         /\ includes (DerivationStep.latex next)
              (lit "\mathbb{E}[G_t\mid S_t=s]") = true.
Proof.
  split; [reflexivity|].
  intros (next & Happly & Hinc).
  assert (E : applyRule START defValue
              = Ok (DerivationStep.Build (lit "\\mathbb{E}[G_t\\mid S_t=s]")
                      (Some (RewriteRule.id defValue))
                      (Some (RewriteRule.name defValue))
                      (Some (RewriteRule.explanation defValue))))
    by (vm_compute; reflexivity).
  rewrite E in Happly. injection Happly as <-.
  vm_compute in Hinc. discriminate.
Qed.

(** What [def-value] returns on the start step: the expression
    [\\mathbb{E}[G_t\\mid S_t=s]], in which every backslash is written
    twice. The title of the same rule, [nameLatex], writes the expectation
    with single backslashes, and so does the expression once
    [canonicalizeLatex] has been applied to it. *)
Lemma defValue_start_output :
  exists next title,
    applyRule START defValue = Ok next
    /\ DerivationStep.latex next = lit "\\mathbb{E}[G_t\\mid S_t=s]"
    /\ DerivationStep.ruleId next = Some (lit "def-value")
    /\ canonicalizeLatex (DerivationStep.latex next)
       = lit "\mathbb{E}[G_t\mid S_t=s]"
    /\ RewriteRule.nameLatex defValue = Some title
    /\ includes title (lit "\mathbb{E}[G_t\mid S_t=s]") = true.
Proof.
  do 2 eexists.
  split; [vm_compute; reflexivity|].
  split; [reflexivity|]. split; [reflexivity|].
  split; [vm_compute; reflexivity|].
  split; [reflexivity|]. vm_compute. reflexivity.
Qed.

(** In the pattern of [unroll-return] every backslash is doubled, so that
    the carets meant as [\^] are a backslash followed by the assertion
    [^]. *)
Lemma unrollReturn_pat_shape :
  exists r,
    unrollReturn_pat = lits (lit "\\sum_\{k=0\}\") (Seq Bol r).
Proof. eexists. vm_compute. reflexivity. Qed.

Lemma unrollReturn_pat_never_matches e : test unrollReturn_pat e = false.
Proof.
  destruct unrollReturn_pat_shape as [r ->].
  unfold test.
  assert (H : forall s i, exec (lits (lit "\\sum_\{k=0\}\") (Seq Bol r)) i s = None).
  { induction s as [|c s IH]; intros i; cbn [exec]; unfold matchAt;
      rewrite lits_bol_fails by (left; discriminate); [reflexivity|apply IH]. }
  now rewrite H.
Qed.

(** Hence the transform of [unroll-return] throws on every expression. *)
Lemma unrollReturn_always_throws latex :
  RewriteRule.transform unrollReturn latex = Throw (Error unrollReturn_message).
Proof.
  cbn [RewriteRule.transform unrollReturn].
  now rewrite unrollReturn_pat_never_matches.
Qed.

(** C7. On an expression that [unroll-return] accepts and in which the sum
    token its transform looks for does not occur, [applyRule] throws the
    rule's error; the message spells out the expected form of the sum. *)
Theorem unrollReturn_missing_token (current : DerivationStep.t) :
  RewriteRule.appliesTo unrollReturn (DerivationStep.latex current) = Ok true ->
  test unrollReturn_pat (DerivationStep.latex current) = false ->
  ruleById (lit "unroll-return") = Some unrollReturn
  /\ applyRule current unrollReturn = Throw (Error unrollReturn_message)
  /\ includes unrollReturn_message
       (lit "\\sum_{k=0}^{\\infty} \\gamma^k R_{t+1+k}") = true.
Proof.
  intros _ Hpat.
  split; [reflexivity|].
  split; [|vm_compute; reflexivity].
  unfold applyRule. cbn [RewriteRule.transform unrollReturn].
  rewrite Hpat. reflexivity.
Qed.

Lemma unrollReturn_missing_token_witness :
  let current := DerivationStep.Build (lit "R_{t+1+k}") None None None in
  RewriteRule.appliesTo unrollReturn (DerivationStep.latex current) = Ok true
  /\ test unrollReturn_pat (DerivationStep.latex current) = false
  /\ applyRule current unrollReturn = Throw (Error unrollReturn_message).
Proof.
  intros current.
  assert (H1 : RewriteRule.appliesTo unrollReturn (DerivationStep.latex current)
               = Ok true) by (vm_compute; reflexivity).
  assert (H2 : test unrollReturn_pat (DerivationStep.latex current) = false)
    by (vm_compute; reflexivity).
  split; [exact H1|]. split; [exact H2|].
  exact (proj1 (proj2 (unrollReturn_missing_token current H1 H2))).
Defined.

Lemma defineR_applies_shape :
  defineR_applies
  = lits defineR_head
      (Seq ws (lits (lit "S_t")
         (Seq ws (lits (lit "=") (Seq ws (lits (lit "s]") Eps)))))).
Proof. vm_compute. reflexivity. Qed.

(** What the predicate of [define-r] matches: the head, then [S_t], [=]
    and [s]] with whitespace before each. *)
Lemma defineR_applies_matches i s st :
  matchAt defineR_applies i s = Some st ->
  exists w1 w2 w3,
    Forall (fun c => isWhite c = true) (w1 ++ w2 ++ w3)
    /\ take (pos st - i) s
       = defineR_head ++ w1 ++ lit "S_t" ++ w2 ++ lit "=" ++ w3 ++ lit "s]".
Proof.
  rewrite defineR_applies_shape. unfold matchAt. intros H.
  apply lits_sound in H as (s1 & Hs & H). cbn [rest pos caps] in Hs, H.
  apply ws_sound in H as (w1 & t1 & Ht1 & Hw1 & H). cbn [rest pos caps] in Ht1, H.
  apply lits_sound in H as (s2 & Hs2 & H). cbn [rest pos caps] in Hs2, H.
  apply ws_sound in H as (w2 & t2 & Ht2 & Hw2 & H). cbn [rest pos caps] in Ht2, H.
  apply lits_sound in H as (s3 & Hs3 & H). cbn [rest pos caps] in Hs3, H.
  apply ws_sound in H as (w3 & t3 & Ht3 & Hw3 & H). cbn [rest pos caps] in Ht3, H.
  apply lits_sound in H as (s4 & Hs4 & H). cbn [rest pos caps m] in Hs4, H.
  injection H as <-. cbn [pos]. subst.
  exists w1, w2, w3. split; [now rewrite !Forall_app|].
  set (u := defineR_head ++ w1 ++ lit "S_t" ++ w2 ++ lit "=" ++ w3 ++ lit "s]").
  assert (Hu : defineR_head ++ w1 ++ lit "S_t" ++ w2 ++ lit "=" ++ w3
               ++ lit "s]" ++ s4 = u ++ s4)
    by (unfold u; now rewrite <- !app_assoc).
  rewrite Hu. apply take_app_length'.
  unfold u. rewrite !length_app.
  change (length defineR_head) with 24. change (length (lit "S_t")) with 3.
  change (length (lit "=")) with 1. change (length (lit "s]")) with 2. lia.
Qed.

(** Nothing in such a string starts like the pattern of the transform,
    which wants a backslash right after [mathbb]: the only [a] of the
    string is the one of the head, and there [mathbb] is followed by a
    brace. *)
Lemma defineR_pat_shape :
  exists r, defineR_pat = lits defineR_pat_head r.
Proof. eexists. vm_compute. reflexivity. Qed.

Lemma isWhite_not_a c : isWhite c = true -> c <> 97%N.
Proof. intros H ->. discriminate H. Qed.

Lemma no_a_no_head v :
  Forall (fun c => c <> 97%N) v -> isPrefix defineR_pat_head v = false.
Proof.
  intros H. destruct (isPrefix defineR_pat_head v) eqn:E; [|reflexivity].
  apply isPrefix_app in E. rewrite E in H.
  apply Forall_app in H as [H _].
  rewrite Forall_forall in H. destruct (H 97%N); [|reflexivity].
  apply list_elem_of_In. vm_compute. tauto.
Qed.

Lemma defineR_pat_nowhere w1 w2 w3 j :
  Forall (fun c => isWhite c = true) (w1 ++ w2 ++ w3) ->
  isPrefix defineR_pat_head
    (drop j (defineR_head ++ w1 ++ lit "S_t" ++ w2 ++ lit "=" ++ w3 ++ lit "s]"))
  = false.
Proof.
  intros Hw. rewrite !Forall_app in Hw. destruct Hw as (H1 & H2 & H3).
  set (tail := w1 ++ lit "S_t" ++ w2 ++ lit "=" ++ w3 ++ lit "s]").
  assert (Htail : Forall (fun c => c <> 97%N) tail).
  { unfold tail. rewrite !Forall_app.
    repeat split;
      try (eapply Forall_impl; [eassumption|apply isWhite_not_a]);
      repeat constructor; discriminate. }
  destruct j as [|[|[|[|j]]]]; try reflexivity.
  apply no_a_no_head.
  change (defineR_head ++ tail)
    with (lit "\\ma" ++ (lit "thbb{E}[R_{t+1}\\mid" ++ tail)).
  change (drop (S (S (S (S j)))) (lit "\\ma" ++ ?x)) with (drop j x).
  apply Forall_drop. apply Forall_app. split; [|exact Htail].
  repeat constructor; discriminate.
Qed.


(** The pattern of the transform of [define-r] occurs nowhere in a string
    the pattern of its predicate matches, and the replacement leaves such a
    string as it is. *)
Lemma defineR_pat_misses_predicate s i st :
  matchAt defineR_applies i s = Some st ->
  test defineR_pat (take (pos st - i) s) = false
  /\ replace (take (pos st - i) s) defineR_pat (lit "r(s)")
     = take (pos st - i) s.
Proof.
  intros H. apply defineR_applies_matches in H as (w1 & w2 & w3 & Hw & ->).
  destruct defineR_pat_shape as [r ->].
  pose proof (fun j => defineR_pat_nowhere w1 w2 w3 j Hw) as Hno.
  split.
  - unfold test. now rewrite exec_lits_none.
  - unfold replace. now apply replaceFrom_lits_none.
Qed.

(** C10. On [\\mathbb{E}[R_{t+1}\\mid S_t=s]], written with doubled
    backslashes, [define-r] applies, and its transform completes with the
    expression it was given: nothing is replaced and the expression is
    already normalized. The reason is general: the pattern of the transform
    has no match inside any string the pattern of the predicate matches. *)
Theorem defineR_silent_noop :
  (exists e,
     e = lit "\\mathbb{E}[R_{t+1}\\mid S_t=s]"
     /\ ruleById (lit "define-r") = Some defineR
     /\ RewriteRule.appliesTo defineR e = Ok true
     /\ RewriteRule.transform defineR e = Ok e
     /\ test defineR_pat e = false
     /\ replace e defineR_pat (lit "r(s)") = e
     /\ normalize e = e)
  /\ (forall s i st,
        matchAt defineR_applies i s = Some st ->
        test defineR_pat (take (pos st - i) s) = false
        /\ replace (take (pos st - i) s) defineR_pat (lit "r(s)")
           = take (pos st - i) s).
Proof.
  split; [|exact defineR_pat_misses_predicate].
  eexists. split; [reflexivity|].
  split; [reflexivity|].
  repeat split; vm_compute; reflexivity.
Qed.

Lemma defineR_silent_noop_witness :
  let e := lit "\\mathbb{E}[R_{t+1}\\mid S_t=s]" in
  matchAt defineR_applies 0 e = Some (MState 31 [] [])
  /\ take (31 - 0) e = e
  /\ test defineR_pat e = false.
Proof.
  intros e.
  assert (H : matchAt defineR_applies 0 e = Some (MState 31 [] []))
    by (vm_compute; reflexivity).
  split; [exact H|]. split; [reflexivity|].
  exact (proj1 (proj2 defineR_silent_noop e 0 _ H)).
Defined.

(** C5 fails on [linearity]: its transform assembles the result from the
    trimmed parts of the input and returns it without [normalize], so a run
    of spaces inside the condition survives. *)
Theorem linearity_output_not_normalized :
  exists e out,
    e = lit "\mathbb{E}[R_{t+1} + \gamma X\mid S_t  =  s]"
    /\ In linearity mrpBellmanRules
    /\ RewriteRule.transform linearity e = Ok out
    /\ out = lit "\mathbb{E}[R_{t+1}\mid S_t  =  s] + \gamma\,\mathbb{E}[X\mid S_t  =  s]"
    /\ normalize out
       = lit "\mathbb{E}[R_{t+1}\mid S_t = s] + \gamma\,\mathbb{E}[X\mid S_t = s]"
    /\ ~ normalized out.
Proof.
  do 2 eexists. split; [reflexivity|].
  split; [cbn; tauto|].
  split; [vm_compute; reflexivity|].
  split; [vm_compute; reflexivity|].
  split; [vm_compute; reflexivity|].
  unfold normalized. vm_compute. discriminate.
Qed.

(** X1. Every rule of the catalog but [linearity] returns a normalized
    expression whenever its transform succeeds. *)
Lemma transforms_normalized rule e out :
  In rule mrpBellmanRules ->
  RewriteRule.id rule <> lit "linearity" ->
  RewriteRule.transform rule e = Ok out ->
  normalized out.
Proof.
  intros Hin Hid H. unfold normalized.
  cbn [mrpBellmanRules In] in Hin.
  destruct Hin as [<-|[<-|[<-|[<-|[<-|[<-|[<-|[<-|[]]]]]]]]];
    cbn [RewriteRule.transform RewriteRule.id defValue defReturn unrollReturn
         linearity defineR totalExpectationNextState valueSubstitution
         assembleBellman] in H, Hid.
  - injection H as <-. apply normalize_idempotent.
  - injection H as <-. apply normalize_idempotent.
  - destruct (negb _); [discriminate|]. injection H as <-.
    apply normalize_idempotent.
  - congruence.
  - injection H as <-. apply normalize_idempotent.
  - destruct (match_ _ _) as [m|]; [|discriminate].
    destruct (capture 1 m); [|discriminate].
    injection H as <-. apply normalize_idempotent.
  - injection H as <-. apply normalize_idempotent.
  - destruct (_ && _)%bool; [discriminate|]. injection H as <-.
    vm_compute. reflexivity.
Qed.

End CatalogFacts.

(** ** binary64 arithmetic *)

Section FloatFacts.
Import Matrix.
Local Open Scope Z_scope.

Lemma div_eucl_shift m s :
  52 <= s ->
  Z.div_eucl (Z.shiftl (Z.pos m) s) 4503599627370496 = (Z.pos m * 2 ^ (s - 52), 0).
Proof.
  intros Hs. set (k := s - 52). replace s with (k + 52) by lia.
  assert (Hk : 0 <= k) by lia. clearbody k.
  rewrite Z.shiftl_mul_pow2 by lia.
  rewrite Z.pow_add_r by lia.
  change (2 ^ 52) with 4503599627370496.
  rewrite Z.mul_assoc.
  pose proof (Z.div_eucl_eq (Z.pos m * 2 ^ k * 4503599627370496) 4503599627370496 ltac:(lia)) as H.
  pose proof (Z.mod_pos_bound (Z.pos m * 2 ^ k * 4503599627370496) 4503599627370496 ltac:(lia)) as Hb.
  unfold Z.modulo in Hb.
  destruct (Z.div_eucl _ _) as [q r].
  assert (r = 0 /\ q = Z.pos m * 2 ^ k) as [-> ->] by nia.
  reflexivity.
Qed.

Lemma SFdiv_finite_one s m e :
  valid_binary (S754_finite s m e) = true ->
  SF64div (S754_finite s m e) (S754_finite false 4503599627370496 (-52))
  = S754_finite s m e.
Proof.
  unfold valid_binary, bounded, canonical_mantissa, fexp, emin, FloatOps.prec, FloatOps.emax.
  intros H. apply andb_prop in H as [Hc Hb].
  apply Z.eqb_eq in Hc. apply Z.leb_le in Hb.
  assert (Hd : 0 < Z.pos (digits2_pos m)) by lia.
  unfold SF64div, SFdiv, SFdiv_core_binary, fexp, emin, FloatOps.prec, FloatOps.emax.
  change (Zdigits2 4503599627370496) with 53.
  change (Zdigits2 (Z.pos m)) with (Z.pos (digits2_pos m)).
  rewrite xorb_false_r.
  destruct (Z.eq_dec e (-1074)) as [He|He].
  - subst e.
    replace (Z.min _ _) with (-1074) by lia.
    change (-1074 - -52 - -1074) with 52. cbv iota.
    rewrite div_eucl_shift by lia. change (2 ^ (52 - 52)) with 1. rewrite Z.mul_1_r.
    change (new_location 4503599627370496 0) with loc_Exact.
    unfold binary_round_aux, shr_fexp, fexp, emin.
    change (Zdigits2 (Z.pos m)) with (Z.pos (digits2_pos m)).
    rewrite Hc. change (-1074 - -1074) with 0. cbn [shr shr_record_of_loc shr_m loc_of_shr_record round_nearest_even].
    change (Zdigits2 (Z.pos m)) with (Z.pos (digits2_pos m)).
    rewrite Hc.  change (-1074 - -1074) with 0. cbn. reflexivity.
  - assert (Hdig : Z.pos (digits2_pos m) = 53) by lia.
    rewrite Hdig in *.
    replace (Z.min _ _) with (e - 1) by lia.
    replace (e - -52 - (e - 1)) with 53 by lia. cbv iota.
    rewrite div_eucl_shift by lia.
    replace (Z.pos m * 2 ^ (53 - 52)) with (Z.pos m~0)
      by (change (2 ^ (53 - 52)) with 2; lia).
    change (new_location 4503599627370496 0) with loc_Exact.
    unfold binary_round_aux, shr_fexp, fexp, emin.
    change (Zdigits2 (Z.pos m~0)) with (Z.pos (Pos.succ (digits2_pos m))).
    rewrite Pos2Z.inj_succ, Hdig.
    replace (Z.max (Z.succ 53 + (e - 1) - 53) (3 - 1024 - 53) - (e - 1)) with 1 by lia.
    cbn [shr shr_record_of_loc shr_m shr_r shr_s loc_of_shr_record
           round_nearest_even SpecFloat.iter_pos shr_1 orb].
    change (Zdigits2 (Z.pos m)) with (Z.pos (digits2_pos m)).
    rewrite Hdig.
    replace (e - 1 + 1) with e by lia.
    replace (Z.max (53 + e - 53) (3 - 1024 - 53) - e) with 0 by lia.
    cbn [shr shr_m].
    apply Z.leb_le in Hb. rewrite Hb. reflexivity.
Qed.

Lemma div_one x : (x / 1)%float = x.
Proof.
  apply Prim2SF_inj. rewrite div_spec.
  change (Prim2SF 1) with (S754_finite false 4503599627370496 (-52)).
  pose proof (Prim2SF_valid x) as Hv.
  destruct (Prim2SF x) as [s|s| |s m e].
  - cbn. now rewrite xorb_false_r.
  - cbn. now rewrite xorb_false_r.
  - reflexivity.
  - apply SFdiv_finite_one. exact Hv.
Qed.

Lemma sub_zero x : (x - 0)%float = x.
Proof.
  apply Prim2SF_inj. rewrite sub_spec.
  change (Prim2SF 0) with (S754_zero false).
  destruct (Prim2SF x) as [[]|[]| |s m e]; reflexivity.
Qed.


(** [y] is neither NaN nor infinite. *)
Lemma is_finite_SF y :
  finite y ->
  exists s, Prim2SF y = S754_zero s \/ exists m e, Prim2SF y = S754_finite s m e.
Proof.
  unfold finite, is_finite, is_nan, is_infinity.
  rewrite !FloatAxioms.eqb_spec, abs_spec.
  change (Prim2SF infinity) with (S754_infinity false).
  destruct (Prim2SF y) as [s|s| |s m e]; cbn; try discriminate; eauto.
  destruct s; discriminate.
Qed.

Lemma zero_mul_finite y :
  finite y -> (0 * y = 0 \/ 0 * y = neg_zero)%float.
Proof.
  intros H. destruct (is_finite_SF y H) as (s & Hs).
  assert (E : Prim2SF (0 * y) = S754_zero s).
  { rewrite mul_spec. change (Prim2SF 0) with (S754_zero false).
    destruct Hs as [->|(m & e & ->)]; reflexivity. }
  destruct s; [right|left]; apply Prim2SF_inj; rewrite E; reflexivity.
Qed.

Lemma sub_neg_zero x :
  x <> neg_zero -> (x - neg_zero)%float = x.
Proof.
  intros Hx. apply Prim2SF_inj. rewrite sub_spec.
  change (Prim2SF neg_zero) with (S754_zero true).
  destruct (Prim2SF x) as [[]|[]| |s m e] eqn:E; try reflexivity.
  exfalso. apply Hx. apply Prim2SF_inj. rewrite E. reflexivity.
Qed.

Lemma is_finite_zero : is_finite 0 = true.
Proof. reflexivity. Qed.

(** *** Order *)

Lemma SFltb_trans x y z :
  SFltb x y = true -> SFltb y z = true -> SFltb x z = true.
Proof.
  unfold SFltb, SFcompare.
  destruct x as [sx|sx| |sx mx ex], y as [sy|sy| |sy my ey],
           z as [sz|sz| |sz mz ez];
    try destruct sx; try destruct sy; try destruct sz;
    try discriminate; try reflexivity.
  all: rewrite ?Pos.compare_cont_spec; cbn [Pos.switch_Eq].
  all: rewrite <- ?Pos.compare_cont_spec.
  all: destruct (Z.compare_spec ex ey), (Z.compare_spec ey ez),
         (Z.compare_spec ex ez); try discriminate; try reflexivity; try lia.
  all: subst; rewrite ?Pos.compare_cont_spec; cbn [Pos.switch_Eq];
       destruct (Pos.compare_spec mx my), (Pos.compare_spec my mz),
         (Pos.compare_spec mx mz); cbn; try discriminate; try reflexivity; try lia.
Qed.

Lemma ltb_trans x y z :
  (x <? y)%float = true -> (y <? z)%float = true -> (x <? z)%float = true.
Proof. rewrite !ltb_spec. apply SFltb_trans. Qed.

Lemma ltb_irrefl x : (x <? x)%float = false.
Proof.
  rewrite ltb_spec. unfold SFltb, SFcompare.
  destruct (Prim2SF x) as [s|[]| |[] m e]; try reflexivity;
    rewrite Z.compare_refl, Pos.compare_cont_refl; reflexivity.
Qed.

End FloatFacts.

(** ** The matrix kernel *)

Section KernelFacts.
Import Js Matrix.

Implicit Types (A B : Mat) (b : Vec).

Lemma cloneMat_id A : cloneMat A = A.
Proof. unfold cloneMat. apply List.map_id. Qed.

Lemma lookup2_imap2 A B i j :
  lookup2
    (imap (fun i row => imap (fun j v => (v - entry B i j)%float) row) A) i j
  = (fun v => (v - entry B i j)%float) <$> lookup2 A i j.
Proof.
  unfold lookup2. rewrite list_lookup_imap.
  destruct (A !! i) as [row|]; [|reflexivity].
  cbn. apply list_lookup_imap.
Qed.

Lemma entry_lookup2 B i j w : lookup2 B i j = Some w -> entry B i j = w.
Proof.
  unfold lookup2, entry, num. intros H.
  destruct (B !! i) as [row|] eqn:Hi; [|discriminate]. cbn in H.
  rewrite (nth_lookup_Some _ _ _ _ Hi). apply nth_lookup_Some. exact H.
Qed.

Lemma entry_lookup2_None B i j :
  i < length B -> lookup2 B i j = None -> entry B i j = nan.
Proof.
  unfold lookup2, entry, num. intros Hi H.
  destruct (B !! i) as [row|] eqn:E.
  - cbn in H. rewrite (nth_lookup_Some _ _ _ _ E).
    apply nth_overflow. apply lookup_ge_None. exact H.
  - apply lookup_ge_None in E. lia.
Qed.

(** C8 as stated fails: the two matrices differ in the column count of
    their second rows and [matSub] returns a matrix. *)
Lemma matSub_ragged_no_failure :
  let A := [[1; 2]; [3; 4]]%float in
  let B := [[1; 2]; [3]]%float in
  (exists i ra rb, A !! i = Some ra /\ B !! i = Some rb /\ length ra <> length rb)
  /\ matSub A B = Ok [[0; 0]; [0; nan]]%float
  /\ matSub A B <> Throw ShapeMismatch.
Proof.
  intros A B. split.
  - exists 1, [3; 4]%float, [3]%float. repeat split. cbn. lia.
  - split; [vm_compute; reflexivity|]. vm_compute. discriminate.
Qed.

(** C8, as the code has it. For matrices that are not both empty,
    [matSub A B] fails with the shape error exactly when the row counts
    differ or the FIRST rows differ in length; for rectangular matrices that
    is when they differ in row count or in the column count of any row.
    Otherwise it returns a matrix with the row lengths of [A] whose entry
    (i, j) is [A[i][j] - B[i][j]], and [NaN] where [B] has no such entry. *)
Theorem matSub_spec A B :
  A <> [] \/ B <> [] ->
  (matSub A B = Throw ShapeMismatch
   <-> length A <> length B
       \/ length (nth 0 A []) <> length (nth 0 B []))
  /\ (forall m k, rectangular A m -> rectangular B k ->
      (matSub A B = Throw ShapeMismatch
       <-> length A <> length B
           \/ exists i ra rb,
                A !! i = Some ra /\ B !! i = Some rb /\ length ra <> length rb))
  /\ (length A = length B ->
      length (nth 0 A []) = length (nth 0 B []) ->
      exists C,
        matSub A B = Ok C
        /\ List.map length C = List.map length A
        /\ (forall i j v w, lookup2 A i j = Some v -> lookup2 B i j = Some w ->
              lookup2 C i j = Some (v - w)%float)
        /\ (forall i j v, lookup2 A i j = Some v -> lookup2 B i j = None ->
              lookup2 C i j = Some nan)).
Proof.
  intros Hne.
  assert (Hfirst : matSub A B = Throw ShapeMismatch
     <-> length A <> length B \/ length (nth 0 A []) <> length (nth 0 B [])).
  { unfold matSub.
    destruct (Nat.eqb_spec (length A) (length B)) as [Hl|Hl]; cbn [negb].
    - destruct A as [|a0 A'], B as [|b0 B']; try discriminate Hl.
      + destruct Hne; congruence.
      + cbn [nth].
        destruct (Nat.eqb_spec (length a0) (length b0)) as [H0|H0]; cbn [negb].
        * split; [discriminate|]. intros [?|?]; congruence.
        * split; [tauto|reflexivity].
    - split; [tauto|reflexivity]. }
  split; [exact Hfirst|]. split.
  - intros m k HA HB. rewrite Hfirst. split.
    + intros [Hl|H0]; [tauto|].
      destruct (decide (length A = length B)) as [Hl|Hl]; [|tauto]. right.
      destruct A as [|a0 A'], B as [|b0 B']; try discriminate Hl.
      * destruct Hne; congruence.
      * exists 0, a0, b0. cbn in *. tauto.
    + intros [Hl|(i & ra & rb & Hi & Hj & Hd)]; [tauto|].
      destruct (decide (length A = length B)) as [Hl|Hl]; [|tauto]. right.
      unfold rectangular in HA, HB. rewrite Forall_lookup in HA, HB.
      pose proof (HA _ _ Hi) as Hra. pose proof (HB _ _ Hj) as Hrb.
      destruct A as [|a0 A'], B as [|b0 B']; try discriminate.
      cbn [nth].
      rewrite (HA 0 a0 eq_refl), (HB 0 b0 eq_refl). congruence.
  - intros Hl H0. unfold matSub.
    rewrite <- Nat.eqb_eq in Hl. rewrite Hl. cbn [negb].
    rewrite Nat.eqb_eq in Hl.
    destruct A as [|a0 A'], B as [|b0 B']; try discriminate Hl.
    { destruct Hne; congruence. }
    cbn [nth] in H0. rewrite <- Nat.eqb_eq in H0. rewrite H0. cbn [negb].
    eexists. split; [reflexivity|]. split; [|split].
    + apply list_eq. intros i. rewrite !list_lookup_fmap, list_lookup_imap.
      destruct ((a0 :: A') !! i); cbn; [|reflexivity].
      now rewrite length_imap.
    + intros i j v w Hv Hw.
      rewrite lookup2_imap2, Hv, (entry_lookup2 _ _ _ _ Hw). reflexivity.
    + intros i j v Hv Hw.
      assert (Hi : i < length (b0 :: B')).
      { unfold lookup2 in Hv.
        destruct ((a0 :: A') !! i) eqn:E; [|discriminate].
        apply lookup_lt_Some in E. rewrite <- Hl. exact E. }
      rewrite lookup2_imap2, Hv, (entry_lookup2_None _ _ _ Hi Hw).
      cbn [fmap option_fmap option_map]. f_equal.
      apply Prim2SF_inj. rewrite sub_spec.
      change (Prim2SF nan) with S754_nan.
      destruct (Prim2SF v); reflexivity.
Qed.

Lemma matSub_spec_witness :
  let A := [[1; 2]; [3; 4]]%float in
  let B := [[1; 0]; [0; 1]]%float in
  (A <> [] \/ B <> [])
  /\ length A = length B
  /\ length (nth 0 A []) = length (nth 0 B [])
  /\ rectangular A 2 /\ rectangular B 2
  /\ exists C, matSub A B = Ok C /\ List.map length C = List.map length A.
Proof.
  intros A B.
  assert (Hne : A <> [] \/ B <> []) by (left; discriminate).
  split; [exact Hne|]. split; [reflexivity|]. split; [reflexivity|].
  split; [repeat constructor|]. split; [repeat constructor|].
  destruct (matSub_spec A B Hne) as (_ & _ & Hok).
  destruct (Hok eq_refl eq_refl) as (C & HC & Hshape & _).
  exists C. split; assumption.
Defined.

(** *** Pivot search *)

Lemma pivot_fold_maximal (a : nat -> float) l : forall p (seen : nat -> Prop),
  (forall r, seen r -> (a p <? a r)%float = false) ->
  forall r, seen r \/ r ∈ l ->
    (a (fold_left (fun p r => if (a p <? a r)%float then r else p) l p) <? a r)%float
    = false.
Proof.
  induction l as [|x l IH]; intros p seen Hseen r Hr; cbn [fold_left].
  - destruct Hr as [Hr|Hr]; [now apply Hseen|]. now apply not_elem_of_nil in Hr.
  - apply (IH _ (fun r => seen r \/ r = x)).
    + intros r' [Hr'| ->].
      * destruct (a p <? a x)%float eqn:Hpx; [|now apply Hseen].
        destruct (a x <? a r')%float eqn:Hxr; [|reflexivity].
        rewrite <- (Hseen r' Hr'). symmetry. now apply (ltb_trans _ (a x)).
      * destruct (a p <? a x)%float eqn:Hpx; [apply ltb_irrefl|exact Hpx].
    + rewrite elem_of_cons in Hr. tauto.
Qed.

(** The pivot search returns a row from [col] down, and no row from [col]
    down has an entry of larger absolute value in column [col]. *)
Lemma choosePivot_maximal (A : Mat) n col r :
  col <= r < n ->
  (abs (entry A (choosePivot A n col) col) <? abs (entry A r col))%float = false.
Proof.
  intros Hr. unfold choosePivot.
  apply (pivot_fold_maximal (fun r => abs (entry A r col)) _ col (fun r => r = col)).
  - intros ? ->. apply ltb_irrefl.
  - destruct (decide (r = col)) as [->|Hne]; [now left|right].
    apply list_elem_of_In, in_seq. lia.
Qed.

Lemma choosePivot_range (A : Mat) n col :
  col < n -> col <= choosePivot A n col < n.
Proof.
  intros Hcol. unfold choosePivot.
  assert (Hgen : forall l p,
    Forall (fun r => col <= r < n) l -> col <= p < n ->
    col <= fold_left (fun pivot r =>
        if (abs (entry A pivot col) <? abs (entry A r col))%float
        then r else pivot) l p < n).
  { induction l as [|r l IH]; intros p H Hp; [exact Hp|].
    cbn [fold_left]. inversion H; subst.
    destruct (_ <? _)%float; now apply IH. }
  apply Hgen; [|lia].
  apply Forall_forall. intros r Hr. apply list_elem_of_In, in_seq in Hr. lia.
Qed.

(** *** Elimination *)

Lemma eliminate_thrown n cols x :
  fold_left (fun acc col => let* st := acc in pivotStep n st col) cols (Throw x)
  = Throw x.
Proof. induction cols as [|c cols IH]; [reflexivity|exact IH]. Qed.

Lemma eliminate_cons n col cols st :
  eliminate n (col :: cols) st
  = let* st' := pivotStep n st col in eliminate n cols st'.
Proof.
  unfold eliminate. cbn [fold_left bind].
  destruct (pivotStep n st col); [reflexivity|apply eliminate_thrown].
Qed.

Lemma eliminate_app n cols1 cols2 st :
  eliminate n (cols1 ++ cols2) st
  = let* st' := eliminate n cols1 st in eliminate n cols2 st'.
Proof.
  revert st. induction cols1 as [|c cols1 IH]; intros st; [reflexivity|].
  rewrite <- app_comm_cons, !eliminate_cons.
  destruct (pivotStep n st c); [apply IH|reflexivity].
Qed.

Lemma seq_split_at n col :
  col < n -> seq 0 n = seq 0 col ++ col :: seq (S col) (n - S col).
Proof.
  intros H. replace n with (col + S (n - S col)) at 1 by lia.
  rewrite seq_app. reflexivity.
Qed.

(** C2. [solveLinearSystem] fails with the singular-matrix error whenever
    the elimination reaches a pivot column [col] at which the pivot it
    selects (an entry of largest absolute value in that column, from row
    [col] down, of the matrix [A'] left by the columns before, see
    [choosePivot_maximal]) is below the tolerance in absolute value; so it
    does when every entry of the column from row [col] down is below the
    tolerance; and it does on [A = [[1,1],[1,1]]], [b = [1,2]]. *)
Theorem solve_singular :
  (forall A b col A' b',
     length b = length A ->
     col < length A ->
     eliminate (length A) (seq 0 col) (cloneMat A, b) = Ok (A', b') ->
     (abs (entry A' (choosePivot A' (length A) col) col) <? tolerance)%float
       = true ->
     solveLinearSystem A b = Throw SingularMatrix)
  /\ (forall A b col A' b',
     length b = length A ->
     col < length A ->
     eliminate (length A) (seq 0 col) (cloneMat A, b) = Ok (A', b') ->
     (forall r, col <= r < length A ->
        (abs (entry A' r col) <? tolerance)%float = true) ->
     solveLinearSystem A b = Throw SingularMatrix)
  /\ solveLinearSystem [[1; 1]; [1; 1]]%float [1; 2]%float
     = Throw SingularMatrix.
Proof.
  assert (Hsel : forall A b col A' b',
     length b = length A ->
     col < length A ->
     eliminate (length A) (seq 0 col) (cloneMat A, b) = Ok (A', b') ->
     (abs (entry A' (choosePivot A' (length A) col) col) <? tolerance)%float
       = true ->
     solveLinearSystem A b = Throw SingularMatrix).
  { intros A b col A' b' Hb Hcol Hpre Hpiv.
    unfold solveLinearSystem. rewrite cloneMat_id in *.
    rewrite <- Nat.eqb_eq in Hb. rewrite Hb. cbn [negb].
    rewrite (seq_split_at _ _ Hcol), eliminate_app, Hpre. cbn [bind].
    rewrite eliminate_cons. unfold pivotStep at 1. rewrite Hpiv. reflexivity. }
  split; [exact Hsel|]. split; [|vm_compute; reflexivity].
  intros A b col A' b' Hb Hcol Hpre Hall.
  apply (Hsel A b col A' b' Hb Hcol Hpre).
  apply Hall. now apply choosePivot_range.
Qed.

Lemma solve_singular_witness :
  let A := [[1; 1]; [1; 1]]%float in
  let b := [1; 2]%float in
  let A' := [[1; 1]; [0; 0]]%float in
  let b' := [1; 1]%float in
  length b = length A
  /\ 1 < length A
  /\ eliminate (length A) (seq 0 1) (cloneMat A, b) = Ok (A', b')
  /\ (abs (entry A' (choosePivot A' (length A) 1) 1) <? tolerance)%float = true
  /\ solveLinearSystem A b = Throw SingularMatrix.
Proof.
  intros A b A' b'.
  assert (H1 : length b = length A) by reflexivity.
  assert (H2 : 1 < length A) by (cbn; lia).
  assert (H3 : eliminate (length A) (seq 0 1) (cloneMat A, b) = Ok (A', b'))
    by (vm_compute; reflexivity).
  assert (H4 : (abs (entry A' (choosePivot A' (length A) 1) 1) <? tolerance)%float
               = true) by (vm_compute; reflexivity).
  repeat (split; [assumption|]).
  exact (proj1 solve_singular A b 1 A' b' H1 H2 H3 H4).
Defined.

Lemma length_store (v : list float) i y : i < length v -> length (store v i y) = length v.
Proof.
  intros H. unfold store. apply Nat.ltb_lt in H. rewrite H. apply length_insert.
Qed.

Lemma num_store (v : list float) i j y :
  i < length v -> num (store v i y) j = if decide (i = j) then y else num v j.
Proof.
  intros H. unfold store, num. pose proof H as H'. apply Nat.ltb_lt in H'. rewrite H'.
  rewrite !nth_lookup. destruct (decide (i = j)) as [->|Hne].
  - now rewrite list_lookup_insert_eq.
  - now rewrite list_lookup_insert_ne.
Qed.

Lemma store_same (v : list float) i : i < length v -> store v i (num v i) = v.
Proof.
  intros H. unfold store, num. pose proof H as H'. apply Nat.ltb_lt in H'. rewrite H'.
  apply list_insert_id. rewrite nth_lookup.
  destruct (lookup_lt_is_Some_2 v i H) as [y ->]. reflexivity.
Qed.

Lemma setEntry_same A r c :
  r < length A -> c < length (nth r A []) -> setEntry A r c (entry A r c) = A.
Proof.
  intros Hr Hc. unfold setEntry, entry. rewrite store_same by exact Hc.
  apply list_insert_id. rewrite nth_lookup.
  destruct (lookup_lt_is_Some_2 A r Hr) as [y ->]. reflexivity.
Qed.

Lemma length_identity n : length (identity n) = n.
Proof. unfold identity. now rewrite length_map, length_seq. Qed.

Lemma identity_row n r :
  r < n ->
  nth r (identity n) []
  = List.map (fun j => if Nat.eqb r j then 1%float else 0%float) (seq 0 n).
Proof.
  intros H. unfold identity.
  rewrite nth_lookup, list_lookup_fmap, lookup_seq_lt by exact H. reflexivity.
Qed.

Lemma entry_identity n r c :
  r < n -> c < n ->
  entry (identity n) r c = if Nat.eqb r c then 1%float else 0%float.
Proof.
  intros Hr Hc. unfold entry, num. rewrite identity_row by exact Hr.
  rewrite nth_lookup, list_lookup_fmap, lookup_seq_lt by exact Hc. reflexivity.
Qed.


Lemma zero_not_neg_zero : 0%float <> neg_zero.
Proof. intros H. apply (f_equal Prim2SF) in H. discriminate H. Qed.

Lemma sameValue_refl x : sameValue x x.
Proof. now left. Qed.

Lemma sameValue_trans z y x : sameValue z y -> sameValue y x -> sameValue z x.
Proof.
  intros [Hzy|[Hy Hz]] [Hyx|[Hx Hy']]; subst.
  - now left.
  - now right.
  - now right.
  - now destruct zero_not_neg_zero.
Qed.

Lemma sameValue_finite x y : sameValue x y -> finite y -> finite x.
Proof. intros [->|[_ ->]] H; [exact H|reflexivity]. Qed.

Lemma float_eq_neg_zero_dec x : x = neg_zero \/ x <> neg_zero.
Proof.
  destruct (Prim2SF x) as [[]|s| |s m e] eqn:E;
    try (right; intros ->; discriminate E).
  left. apply Prim2SF_inj. rewrite E. reflexivity.
Qed.

(** The update [x - 0 * y] of the elimination and of the back substitution,
    for a finite [y]. *)
Lemma sub_zero_mul x y : finite y -> sameValue (x - 0 * y)%float x.
Proof.
  intros Hy. destruct (zero_mul_finite y Hy) as [->| ->].
  - left. apply sub_zero.
  - destruct (float_eq_neg_zero_dec x) as [->|Hx].
    + right. split; reflexivity.
    + left. now apply sub_neg_zero.
Qed.

Lemma close_refl b : close b b.
Proof. split; [reflexivity|]. intros; apply sameValue_refl. Qed.

Lemma close_finite b' b : close b' b -> allFinite b -> allFinite b'.
Proof.
  intros [Hl Hv] Hf i Hi. rewrite Hl in Hi.
  eapply sameValue_finite; [apply Hv|apply Hf]; exact Hi.
Qed.

Lemma close_store b' b r c :
  close b' b -> allFinite b -> r < length b -> c < length b ->
  close (store b' r (num b' r - 0 * num b' c)%float) b.
Proof.
  intros Hc Hf Hr Hcc. pose proof (close_finite _ _ Hc Hf) as Hf'.
  destruct Hc as [Hl Hv]. split.
  - rewrite length_store by lia. exact Hl.
  - intros i Hi. rewrite num_store by lia.
    destruct (decide (r = i)) as [->|_]; [|now apply Hv].
    eapply sameValue_trans; [|now apply Hv].
    apply sub_zero_mul. apply Hf'. lia.
Qed.

(** *** The solver on the identity matrix *)

Section Identity.
Variable n : nat.

Lemma choosePivot_identity col :
  col < n -> choosePivot (identity n) n col = col.
Proof.
  intros Hcol. unfold choosePivot.
  assert (H : Forall (fun r => col < r < n) (seq (col + 1) (n - (col + 1)))).
  { apply Forall_forall. intros r Hr. apply list_elem_of_In, in_seq in Hr. lia. }
  induction H as [|r l [Hr1 Hr2] _ IH]; [reflexivity|].
  cbn [fold_left]. rewrite !entry_identity by lia.
  rewrite Nat.eqb_refl.
  destruct (Nat.eqb_spec r col) as [->|_]; [lia|]. exact IH.
Qed.

Lemma elimination_row_identity col r l :
  col < n -> r < n ->
  Forall (fun c => c < n) l ->
  fold_left (fun A c =>
      setEntry A r c (entry A r c - 0 * entry A col c)%float) l (identity n)
  = identity n.
Proof.
  intros Hcol Hr H.
  induction H as [|c l Hc _ IH]; [reflexivity|].
  cbn [fold_left].
  replace (entry (identity n) r c - 0 * entry (identity n) col c)%float
    with (entry (identity n) r c).
  - rewrite setEntry_same; [exact IH|rewrite length_identity; lia|].
    rewrite identity_row, length_map, length_seq by lia. exact Hc.
  - rewrite !entry_identity by lia.
    destruct (r =? c), (col =? c); reflexivity.
Qed.


Lemma swap_same {T} (d : T) (l : list T) i : i < length l -> swap d l i i = l.
Proof.
  intros H. unfold swap. rewrite list_insert_insert_eq.
  apply list_insert_id. rewrite nth_lookup.
  destruct (lookup_lt_is_Some_2 l i H) as [y ->]. reflexivity.
Qed.

Lemma eliminateRow_identity col r b :
  col < r < n ->
  eliminateRow n col (identity n, b) r
  = (identity n, store b r (num b r - 0 * num b col)%float).
Proof.
  intros [H1 H2]. unfold eliminateRow.
  rewrite !entry_identity by lia. rewrite Nat.eqb_refl.
  destruct (Nat.eqb_spec r col) as [->|_]; [lia|].
  change (0 / 1)%float with 0%float.
  rewrite elimination_row_identity; [reflexivity|lia|lia|].
  apply Forall_forall. intros c Hc. apply list_elem_of_In, in_seq in Hc. lia.
Qed.

Lemma eliminate_rows_identity col l b0 b :
  col < n -> length b0 = n -> allFinite b0 ->
  Forall (fun r => col < r < n) l ->
  close b b0 ->
  exists b',
    fold_left (eliminateRow n col) l (identity n, b) = (identity n, b')
    /\ close b' b0.
Proof.
  intros Hcol Hn Hf H. revert b.
  induction H as [|r l Hr _ IH]; intros b Hb; [now exists b|].
  cbn [fold_left]. rewrite eliminateRow_identity by exact Hr.
  apply IH. apply close_store; try assumption; lia.
Qed.

Lemma pivotStep_identity col b0 b :
  col < n -> length b0 = n -> allFinite b0 -> close b b0 ->
  exists b',
    pivotStep n (identity n, b) col = Ok (identity n, b') /\ close b' b0.
Proof.
  intros Hcol Hn Hf Hb. unfold pivotStep.
  rewrite choosePivot_identity by exact Hcol.
  rewrite entry_identity, Nat.eqb_refl by exact Hcol.
  change (abs 1 <? tolerance)%float with false. cbv iota.
  rewrite !swap_same;
    [|destruct Hb as [-> _]; lia|rewrite length_identity; exact Hcol].
  destruct (eliminate_rows_identity col (seq (col + 1) (n - (col + 1))) b0 b)
    as (b' & E & Hb'); try assumption.
  { apply Forall_forall. intros r Hr. apply list_elem_of_In, in_seq in Hr. lia. }
  exists b'. now rewrite E.
Qed.

Lemma eliminate_identity cols b0 b :
  length b0 = n -> allFinite b0 ->
  Forall (fun col => col < n) cols ->
  close b b0 ->
  exists b',
    eliminate n cols (identity n, b) = Ok (identity n, b') /\ close b' b0.
Proof.
  intros Hn Hf H. revert b.
  induction H as [|col cols Hcol _ IH]; intros b Hb; [now exists b|].
  rewrite eliminate_cons.
  destruct (pivotStep_identity col b0 b) as (b1 & E & Hb1); try assumption.
  rewrite E. cbn [bind]. now apply IH.
Qed.

(** *** Back substitution *)

Lemma back_sum_identity r l x s0 s :
  r < n -> length x = n -> allFinite x ->
  Forall (fun c => r < c < n) l ->
  sameValue s s0 ->
  sameValue
    (fold_left (fun sum c => (sum - entry (identity n) r c * num x c)%float) l s)
    s0.
Proof.
  intros Hr Hx Hf H. revert s.
  induction H as [|c l [Hc1 Hc2] _ IH]; intros s Hs; [exact Hs|].
  cbn [fold_left]. apply IH.
  rewrite entry_identity by lia.
  destruct (Nat.eqb_spec r c) as [->|_]; [lia|].
  eapply sameValue_trans; [|exact Hs].
  apply sub_zero_mul. apply Hf. lia.
Qed.

Lemma backRow_identity b0 b x r :
  r < n -> length b0 = n -> allFinite b0 -> close b b0 ->
  length x = n -> allFinite x ->
  exists y,
    backRow n (identity n) b x r = store x r y /\ sameValue y (num b0 r).
Proof.
  intros Hr Hn Hf [Hl Hv] Hx Hfx. unfold backRow.
  rewrite (entry_identity n r r), Nat.eqb_refl by exact Hr.
  rewrite div_one. eexists. split; [reflexivity|].
  apply back_sum_identity; try assumption.
  - apply Forall_forall. intros c Hc. apply list_elem_of_In, in_seq in Hc. lia.
  - apply Hv. lia.
Qed.

Lemma back_rows_identity b0 b l x (D : nat -> Prop) :
  length b0 = n -> allFinite b0 -> close b b0 ->
  Forall (fun r => r < n) l ->
  length x = n -> allFinite x ->
  (forall i, D i -> sameValue (num x i) (num b0 i)) ->
  let x' := fold_left (backRow n (identity n) b) l x in
  length x' = n
  /\ forall i, D i \/ i ∈ l -> sameValue (num x' i) (num b0 i).
Proof.
  intros Hn Hf Hb H. revert x D.
  induction H as [|r l Hr _ IH]; intros x D Hx Hfx HD.
  - cbn. split; [exact Hx|]. intros i [Hi|Hi]; [now apply HD|].
    now apply not_elem_of_nil in Hi.
  - cbn [fold_left].
    destruct (backRow_identity b0 b x r) as (y & -> & Hy); try assumption.
    destruct (IH (store x r y) (fun i => D i \/ i = r)) as [Hlen Hval].
    + rewrite length_store; lia.
    + intros i Hi. rewrite length_store in Hi by lia.
      rewrite num_store by lia. destruct (decide (r = i)) as [<-|_].
      * eapply sameValue_finite; [exact Hy|]. apply Hf. lia.
      * now apply Hfx.
    + intros i Hi. rewrite num_store by lia.
      destruct (decide (r = i)) as [<-|Hne]; [exact Hy|].
      destruct Hi as [Hi| ->]; [now apply HD|congruence].
    + split; [exact Hlen|]. intros i Hi. apply Hval.
      rewrite elem_of_cons in Hi. tauto.
Qed.

Lemma backSubstitute_identity b0 b :
  length b0 = n -> allFinite b0 -> close b b0 ->
  Forall2 sameValue (backSubstitute n (identity n) b) b0.
Proof.
  intros Hn Hf Hb. unfold backSubstitute.
  destruct (back_rows_identity b0 b (rev (seq 0 n)) (replicate n 0%float)
              (fun _ => False)) as [Hlen Hval]; try assumption.
  - apply Forall_forall. intros r Hr.
    apply list_elem_of_In in Hr. rewrite <- in_rev in Hr.
    apply in_seq in Hr. lia.
  - apply length_replicate.
  - intros i Hi. rewrite length_replicate in Hi. unfold num.
    rewrite nth_lookup, lookup_replicate_2 by exact Hi. reflexivity.
  - tauto.
  - apply Forall2_same_length_lookup_2; [lia|].
    intros i y z Hy Hz.
    pose proof (lookup_lt_Some _ _ _ Hz) as Hi.
    specialize (Hval i). unfold num in Hval.
    rewrite (nth_lookup_Some _ _ nan _ Hy), (nth_lookup_Some _ _ nan _ Hz) in Hval.
    apply Hval. right. apply list_elem_of_In. rewrite <- in_rev.
    apply in_seq. lia.
Qed.

End Identity.

Lemma sameValue_exact x b :
  Forall2 sameValue x b -> Forall (fun v => v <> neg_zero) b -> x = b.
Proof.
  induction 1 as [|y v x b [->|[-> _]] _ IH]; intros Hb; [reflexivity| |].
  - f_equal. apply IH. now inversion Hb.
  - inversion Hb; congruence.
Qed.

(** C3 as stated fails on a vector with an infinite entry: the elimination
    computes [1 - 0 * Infinity], which is [NaN]. *)
Lemma solve_identity_infinity :
  solveLinearSystem (identity 2) [infinity; 1]%float = Ok [nan; nan]
  /\ solveLinearSystem (identity 2) [infinity; 1]%float
     <> Ok [infinity; 1]%float.
Proof.
  assert (E : solveLinearSystem (identity 2) [infinity; 1]%float = Ok [nan; nan])
    by (vm_compute; reflexivity).
  split; [exact E|]. rewrite E. intros H.
  apply (f_equal (fun r => match r with
                           | Ok (y :: _) => Prim2SF y
                           | _ => S754_zero false
                           end)) in H.
  discriminate H.
Qed.

(** C3, as the code has it. For every [n] and every vector [b] of [n]
    finite numbers, [solveLinearSystem (identity n) b] succeeds and returns
    [b] entry by entry, up to the sign of a zero: an entry [-0] of [b] may
    come back as [+0]. Without an entry [-0] the result is [b] itself. *)
Theorem solve_identity n b :
  length b = n ->
  Forall finite b ->
  exists x,
    solveLinearSystem (identity n) b = Ok x
    /\ Forall2 sameValue x b
    /\ (Forall (fun v => v <> neg_zero) b -> x = b).
Proof.
  intros Hn Hfin.
  assert (Hf : allFinite b).
  { intros i Hi. unfold finite, num. rewrite Forall_lookup in Hfin.
    destruct (lookup_lt_is_Some_2 b i Hi) as [y Hy].
    rewrite (nth_lookup_Some _ _ nan _ Hy). exact (Hfin i y Hy). }
  destruct (eliminate_identity n (seq 0 n) b b Hn Hf) as (b' & E & Hb').
  { apply Forall_forall. intros c Hc. apply list_elem_of_In, in_seq in Hc. lia. }
  { apply close_refl. }
  exists (backSubstitute n (identity n) b').
  assert (HF : Forall2 sameValue (backSubstitute n (identity n) b') b)
    by now apply backSubstitute_identity.
  split; [|split; [exact HF|now apply sameValue_exact]].
  unfold solveLinearSystem. rewrite cloneMat_id, length_identity.
  rewrite <- Nat.eqb_eq in Hn. rewrite Hn. cbn [negb].
  rewrite E. reflexivity.
Qed.

Lemma solve_identity_witness :
  let b := [3; 1; -2.5]%float in
  length b = 3
  /\ Forall finite b
  /\ solveLinearSystem (identity 3) b = Ok b.
Proof.
  intros b.
  assert (H1 : length b = 3) by reflexivity.
  assert (H2 : Forall finite b) by (repeat constructor).
  split; [exact H1|]. split; [exact H2|].
  destruct (solve_identity 3 b H1 H2) as (x & -> & _ & Hx).
  f_equal. apply Hx. repeat constructor; intros H;
    apply (f_equal Prim2SF) in H; discriminate H.
Defined.

End KernelFacts.

(** ** The solver on the object store *)

Section StoreFacts.
Import Js Store.

Section Hoare.
Context (E : exn -> heap -> Prop).

Lemma hoare_ret {T} (P : heap -> Prop) (a : T) (Q : T -> heap -> Prop) :
  (forall h, P h -> Q a h) -> hoare P (ret a) Q E.
Proof. intros H h Hh. now apply H. Qed.

Lemma hoare_throw {T} (P : heap -> Prop) x (Q : T -> heap -> Prop) :
  (forall h, P h -> E x h) -> hoare P (throw x) Q E.
Proof. intros H h Hh. now apply H. Qed.

Lemma hoare_bind {T U} (P : heap -> Prop) (c : M T) (f : T -> M U)
    (Q : T -> heap -> Prop) (R : U -> heap -> Prop) :
  hoare P c Q E -> (forall a, hoare (Q a) (f a) R E) ->
  hoare P (sbind c f) R E.
Proof.
  intros Hc Hf h Hh. unfold sbind. specialize (Hc h Hh).
  destruct (c h) as [[a|x] h']; [now apply Hf|exact Hc].
Qed.

Lemma hoare_pre {T} (P P' : heap -> Prop) (c : M T) Q :
  (forall h, P' h -> P h) -> hoare P c Q E -> hoare P' c Q E.
Proof. intros HP Hc h Hh. apply Hc, HP, Hh. Qed.

Lemma hoare_post {T} (P : heap -> Prop) (c : M T) (Q Q' : T -> heap -> Prop) :
  (forall a h, Q a h -> Q' a h) -> hoare P c Q E -> hoare P c Q' E.
Proof.
  intros HQ Hc h Hh. specialize (Hc h Hh).
  destruct (c h) as [[a|x] h']; [now apply HQ|exact Hc].
Qed.

Lemma hoare_forEach {T} (I : heap -> Prop) (l : list T) (body : T -> M unit) :
  (forall x, hoare I (body x) (fun _ => I) E) ->
  hoare I (forEach l body) (fun _ => I) E.
Proof.
  intros Hb. induction l as [|x l IH]; cbn [forEach].
  - now apply hoare_ret.
  - eapply hoare_bind; [apply Hb|]. intros u. exact IH.
Qed.

Lemma hoare_foldM {T S} (I : heap -> Prop) (body : S -> T -> M S) l s :
  (forall s x, hoare I (body s x) (fun _ => I) E) ->
  hoare I (foldM body l s) (fun _ => I) E.
Proof.
  intros Hb. revert s. induction l as [|x l IH]; intros s; cbn [foldM].
  - now apply hoare_ret.
  - eapply hoare_bind; [apply Hb|]. intros s'. apply IH.
Qed.

Lemma hoare_mapM {T U} (I : heap -> Prop) (good : U -> Prop)
    (f : T -> M U) l :
  (forall x, hoare I (f x) (fun y h => I h /\ good y) E) ->
  hoare I (mapM f l) (fun ys h => I h /\ Forall good ys) E.
Proof.
  intros Hf. induction l as [|x l IH]; cbn [mapM].
  - apply hoare_ret. intros h Hh. split; [exact Hh|constructor].
  - eapply hoare_bind; [apply Hf|]. intros y. cbn beta.
    intros h [Hh Hy]. unfold sbind. specialize (IH h Hh).
    destruct (mapM f l h) as [[ys|x'] h']; [|exact IH].
    cbn. destruct IH as [Hh' Hys]. split; [exact Hh'|now constructor].
Qed.

(** Sequencing when the first computation keeps [I] and its value has the
    property [good]. *)
Lemma hoare_bind_keep {T U} (I : heap -> Prop) (good : T -> Prop)
    (c : M T) (f : T -> M U) (R : U -> heap -> Prop) :
  hoare I c (fun a h => I h /\ good a) E ->
  (forall a, good a -> hoare I (f a) R E) ->
  hoare I (sbind c f) R E.
Proof.
  intros Hc Hf. eapply hoare_bind; [exact Hc|].
  intros a h [Hh Ha]. now apply Hf.
Qed.

(** A computation that does not write keeps every invariant. *)
Lemma hoare_read {T} (I : heap -> Prop) (c : M T) :
  (forall h, (c h).2 = h) -> (forall x h, I h -> E x h) ->
  hoare I c (fun _ h => I h /\ True) E.
Proof.
  intros Hc HE h Hh. specialize (Hc h).
  destruct (c h) as [[a|x] h']; cbn in Hc; subst h'; auto.
Qed.

End Hoare.

(** *** What the call writes to *)

Section Frame.
Variable h0 : heap.

Local Abbreviation fresh := (Store.fresh h0).
Local Abbreviation extends := (Store.extends h0).
Local Abbreviation inv := (Store.inv h0).

Lemma extends_length h : extends h -> length h0 <= length h.
Proof. apply prefix_length. Qed.

Lemma extends_insert h l o : extends h -> fresh l -> extends (<[l := o]> h).
Proof.
  intros [k ->] Hl. unfold fresh in Hl.
  rewrite insert_app_r_alt by exact Hl. now eexists.
Qed.

Lemma extends_snoc h o : extends h -> extends (h ++ [o]).
Proof. intros H. now apply prefix_app_r. Qed.

Lemma inv_extends A h : inv A h -> extends h.
Proof. now intros [H _]. Qed.

Lemma nums_loc a h : (nums a h).2 = h.
Proof. unfold nums. destruct (h !! a) as [[]|]; reflexivity. Qed.

Lemma rows_loc a h : (rows a h).2 = h.
Proof. unfold rows. destruct (h !! a) as [[]|]; reflexivity. Qed.

Lemma lengthOf_loc a h : (lengthOf a h).2 = h.
Proof. unfold lengthOf. destruct (h !! a) as [[]|]; reflexivity. Qed.

Lemma getNum_loc a i h : (getNum a i h).2 = h.
Proof.
  unfold getNum, sbind, nums. destruct (h !! a) as [[]|]; reflexivity.
Qed.

Lemma getRow_loc A r h : (getRow A r h).2 = h.
Proof.
  unfold getRow, sbind, rows. destruct (h !! A) as [[|rs]|]; try reflexivity.
  destruct (rs !! r); reflexivity.
Qed.

Lemma getEntry_loc A r c h : (getEntry A r c h).2 = h.
Proof.
  unfold getEntry, sbind. pose proof (getRow_loc A r h) as H.
  destruct (getRow A r h) as [[row|x] h']; cbn in H; subst h';
    [apply getNum_loc|reflexivity].
Qed.

Section Working.
Variable A : loc.

Local Abbreviation keeps c good :=
  (hoare (inv A) c (fun a h => inv A h /\ good a) (fun _ => extends)).

Lemma keeps_getRow r : keeps (getRow A r) fresh.
Proof.
  intros h Hh. pose proof (getRow_loc A r h) as Hl.
  destruct (getRow A r h) as [[row|x] h'] eqn:E; cbn in Hl; subst h';
    [|now apply (inv_extends A)].
  split; [exact Hh|].
  destruct Hh as (_ & _ & rs & HA & Hrs).
  unfold getRow, sbind, rows in E. rewrite HA in E.
  destruct (rs !! r) as [row'|] eqn:Hr; [|discriminate].
  injection E as <-. rewrite Forall_lookup in Hrs. exact (Hrs _ _ Hr).
Qed.

Lemma keeps_setNum l i x : fresh l -> keeps (setNum l i x) (fun _ => True).
Proof.
  intros Hl h Hh. unfold setNum.
  destruct (h !! l) as [[v|rs']|] eqn:El; try now apply (inv_extends A).
  split; [|exact I].
  destruct Hh as (Hext & HA & rs & HrA & Hrs).
  split; [now apply extends_insert|]. split; [exact HA|].
  exists rs. split; [|exact Hrs].
  rewrite list_lookup_insert_ne; [exact HrA|]. intros ->. congruence.
Qed.

Lemma keeps_setRow r row : fresh row -> keeps (setRow A r row) (fun _ => True).
Proof.
  intros Hrow h Hh. unfold setRow.
  destruct Hh as (Hext & HA & rs & HrA & Hrs). rewrite HrA.
  split; [|exact I].
  split; [now apply extends_insert|]. split; [exact HA|].
  exists (<[r := row]> rs). split.
  - apply list_lookup_insert_eq. now apply lookup_lt_Some in HrA.
  - now apply Forall_insert.
Qed.

Lemma keeps_new o : keeps (new o) fresh.
Proof.
  intros h Hh. unfold new.
  destruct Hh as (Hext & HA & rs & HrA & Hrs).
  split; [|exact (extends_length h Hext)].
  split; [now apply extends_snoc|]. split; [exact HA|].
  exists rs. split; [|exact Hrs].
  rewrite lookup_app_l; [exact HrA|]. now apply lookup_lt_Some in HrA.
Qed.

Lemma keeps_read {T} (c : M T) :
  (forall h, (c h).2 = h) -> keeps c (fun _ => True).
Proof.
  intros H. apply hoare_read; [exact H|]. intros _. apply (inv_extends A).
Qed.

Lemma keeps_end {T} (a : T) : keeps (ret a) (fun _ => True).
Proof. intros h Hh. now split. Qed.

Lemma keeps_forEach {T} (l : list T) (body : T -> M unit) :
  (forall x, keeps (body x) (fun _ => True)) ->
  keeps (forEach l body) (fun _ => True).
Proof.
  intros Hb. induction l as [|x l IH]; cbn [forEach]; [apply keeps_end|].
  eapply hoare_bind_keep; [apply Hb|]. intros u _. exact IH.
Qed.

Lemma keeps_foldM {T S} (body : S -> T -> M S) l s :
  (forall s x, keeps (body s x) (fun _ => True)) ->
  keeps (foldM body l s) (fun _ => True).
Proof.
  intros Hb. revert s. induction l as [|x l IH]; intros s; cbn [foldM];
    [apply keeps_end|].
  eapply hoare_bind_keep; [apply Hb|]. intros s' _. apply IH.
Qed.

Lemma keeps_setEntry r c x : keeps (setEntry A r c x) (fun _ => True).
Proof.
  unfold setEntry. eapply hoare_bind_keep; [apply keeps_getRow|].
  intros row Hrow. now apply keeps_setNum.
Qed.

(** Steps through a sequence of reads. *)
Ltac reads :=
  repeat (eapply hoare_bind_keep;
          [ apply keeps_read;
            first [ apply getEntry_loc | apply getNum_loc | apply nums_loc
                  | apply lengthOf_loc | apply rows_loc ]
          | intros ? _ ]).

Lemma keeps_choosePivot n col : keeps (choosePivot A n col) (fun _ => True).
Proof.
  unfold choosePivot. apply keeps_foldM. intros pivot r.
  reads. apply keeps_end.
Qed.

Lemma keeps_eliminateRow b n col r :
  fresh b -> keeps (eliminateRow A b n col r) (fun _ => True).
Proof.
  intros Hb. unfold eliminateRow. reads.
  eapply hoare_bind_keep.
  { apply keeps_forEach. intros c. reads. apply keeps_setEntry. }
  intros u _. reads. now apply keeps_setNum.
Qed.

Lemma keeps_swapRows i j : keeps (swapRows A i j) (fun _ => True).
Proof.
  unfold swapRows.
  eapply hoare_bind_keep; [apply keeps_getRow|]. intros rowJ HrJ.
  eapply hoare_bind_keep; [apply keeps_getRow|]. intros rowI HrI.
  eapply hoare_bind_keep; [now apply keeps_setRow|]. intros u _.
  now apply keeps_setRow.
Qed.

Lemma keeps_swapNums b i j :
  fresh b -> keeps (swapNums b i j) (fun _ => True).
Proof.
  intros Hb. unfold swapNums. reads.
  eapply hoare_bind_keep; [now apply keeps_setNum|]. intros u _.
  now apply keeps_setNum.
Qed.

Lemma keeps_pivotStep b n col :
  fresh b -> keeps (pivotStep A b n col) (fun _ => True).
Proof.
  intros Hb. unfold pivotStep.
  eapply hoare_bind_keep; [apply keeps_choosePivot|]. intros pivot _.
  reads. destruct (abs _ <? _)%float.
  { intros h Hh. now apply (inv_extends A). }
  eapply hoare_bind_keep; [apply keeps_swapRows|]. intros u1 _.
  eapply hoare_bind_keep; [now apply keeps_swapNums|]. intros u2 _.
  apply keeps_forEach. intros r. now apply keeps_eliminateRow.
Qed.

Lemma keeps_backRow b x n r :
  fresh x -> keeps (backRow A b x n r) (fun _ => True).
Proof.
  intros Hx. unfold backRow. reads.
  eapply hoare_bind_keep.
  { apply keeps_foldM. intros sum c. reads. apply keeps_end. }
  intros sum _. reads. now apply keeps_setNum.
Qed.

End Working.

Lemma cloneMat_inv Ain :
  hoare extends (cloneMat Ain) (fun A h => inv A h) (fun _ => extends).
Proof.
  unfold cloneMat.
  eapply hoare_bind_keep with (good := fun _ => True).
  { apply hoare_read; [apply rows_loc|auto]. }
  intros rs _.
  eapply hoare_bind.
  { apply hoare_mapM with (good := fresh). intros row.
    eapply hoare_bind_keep with (good := fun _ => True).
    { apply hoare_read; [apply nums_loc|auto]. }
    intros v _ h Hh. unfold new.
    split; [now apply extends_snoc|now apply extends_length]. }
  intros copies h [Hh Hc]. unfold new.
  split; [now apply extends_snoc|]. split; [now apply extends_length|].
  exists copies. split; [|exact Hc].
  rewrite lookup_app_r by lia. now rewrite Nat.sub_diag.
Qed.

Lemma solveLinearSystem_keeps Ain bIn :
  hoare extends (solveLinearSystem Ain bIn) (fun x h => extends h /\ fresh x)
    (fun _ => extends).
Proof.
  unfold solveLinearSystem.
  eapply hoare_bind; [apply cloneMat_inv|]. intros A.
  eapply hoare_bind_keep;
    [apply keeps_read, nums_loc|]. intros bv _.
  eapply hoare_bind_keep; [apply keeps_new|]. intros b Hb.
  eapply hoare_bind_keep; [apply keeps_read, lengthOf_loc|]. intros n _.
  eapply hoare_bind_keep; [apply keeps_read, lengthOf_loc|]. intros bl _.
  destruct (negb _).
  { intros h Hh. now apply (inv_extends A). }
  eapply hoare_bind_keep.
  { apply keeps_forEach. intros col. now apply keeps_pivotStep. }
  intros u _.
  eapply hoare_bind_keep; [apply keeps_new|]. intros x Hx.
  eapply hoare_bind_keep.
  { apply keeps_forEach. intros r. now apply keeps_backRow. }
  intros u' _ h Hh. split; [now apply (inv_extends A)|exact Hx].
Qed.

Lemma solveLinearSystem_extends Ain bIn :
  hoare extends (solveLinearSystem Ain bIn) (fun _ h => extends h)
    (fun _ => extends).
Proof.
  eapply hoare_post; [|apply solveLinearSystem_keeps]. now intros x h [H _].
Qed.

Lemma solveLinearSystem_fresh Ain bIn :
  hoare extends (solveLinearSystem Ain bIn) (fun x _ => fresh x)
    (fun _ _ => True).
Proof.
  intros h Hh. pose proof (solveLinearSystem_keeps Ain bIn h Hh) as H.
  destruct (solveLinearSystem Ain bIn h) as [[x|e] h']; [apply H|exact Logic.I].
Qed.

End Frame.

(** *** The store run computes what [Matrix.solveLinearSystem] computes *)

Section Refine.
Variables (A b : loc) (n : nat).
Context (E : exn -> heap -> Prop).

Local Abbreviation holds := (Store.holds A b n).

Lemma hoare_bind_val {T U} (P Q : heap -> Prop) (c : M T) (f : T -> M U) v
    (R : U -> heap -> Prop) :
  hoare P c (fun a h => a = v /\ Q h) E ->
  hoare Q (f v) R E ->
  hoare P (sbind c f) R E.
Proof.
  intros Hc Hf. eapply hoare_bind; [exact Hc|].
  intros a h [-> Hh]. now apply Hf.
Qed.

Lemma getEntry_spec st r c :
  r < n ->
  hoare (holds st) (getEntry A r c)
    (fun a h => a = Matrix.entry st.1 r c /\ holds st h) E.
Proof.
  intros Hr h Hh. pose proof Hh as (HlA & Hlb & Hb & rs & HA & Hlr & Hd & Hrows).
  destruct (lookup_lt_is_Some_2 rs r) as [row Hrow]; [lia|].
  destruct (Hrows r row Hrow) as (_ & v & Hv & Hhrow).
  cbv [getEntry getRow sbind rows getNum nums ret].
  rewrite HA, Hrow, Hhrow. split; [|exact Hh].
  unfold Matrix.entry. now rewrite (nth_lookup_Some _ _ _ _ Hv).
Qed.

Lemma getNum_spec st i :
  hoare (holds st) (getNum b i)
    (fun a h => a = Matrix.num st.2 i /\ holds st h) E.
Proof.
  intros h Hh. pose proof Hh as (_ & _ & Hb & _).
  cbv [getNum sbind nums ret]. rewrite Hb. now split.
Qed.

Lemma length_store_in (v : list float) i y :
  i < length v -> length (Matrix.store v i y) = length v.
Proof.
  intros H. unfold Matrix.store. apply Nat.ltb_lt in H. rewrite H.
  apply length_insert.
Qed.

Lemma setNum_spec st i x :
  i < n ->
  hoare (holds st) (setNum b i x)
    (fun _ h => holds (st.1, Matrix.store st.2 i x) h) E.
Proof.
  intros Hi h (HlA & Hlb & Hb & rs & HA & Hlr & Hd & Hrows).
  unfold setNum. rewrite Hb.
  assert (HbA : b <> A) by congruence.
  unfold Store.holds; cbn [fst snd].
  split; [exact HlA|]. split; [rewrite length_store_in; lia|].
  split; [apply list_lookup_insert_eq; now apply lookup_lt_Some in Hb|].
  exists rs. split; [now rewrite list_lookup_insert_ne|].
  split; [exact Hlr|]. split; [exact Hd|].
  intros j row Hrow. destruct (Hrows j row Hrow) as (Hne & v & Hv & Hhrow).
  split; [exact Hne|]. exists v. split; [exact Hv|].
  now rewrite list_lookup_insert_ne by congruence.
Qed.

Lemma setEntry_spec st r c x :
  r < n ->
  hoare (holds st) (setEntry A r c x)
    (fun _ h => holds (Matrix.setEntry st.1 r c x, st.2) h) E.
Proof.
  intros Hr h (HlA & Hlb & Hb & rs & HA & Hlr & Hd & Hrows).
  destruct (lookup_lt_is_Some_2 rs r) as [row Hrow]; [lia|].
  destruct (Hrows r row Hrow) as (Hnb & v & Hv & Hhrow).
  cbv [setEntry getRow sbind rows setNum ret].
  rewrite HA, Hrow, Hhrow.
  assert (HrA : row <> A) by congruence.
  unfold Store.holds, Matrix.setEntry; cbn [fst snd].
  rewrite (nth_lookup_Some _ _ _ _ Hv).
  split; [now rewrite length_insert|]. split; [exact Hlb|].
  split; [now rewrite list_lookup_insert_ne|].
  exists rs. split; [now rewrite list_lookup_insert_ne|].
  split; [exact Hlr|]. split; [exact Hd|].
  intros j rowj Hrowj.
  destruct (Hrows j rowj Hrowj) as (Hne & vj & Hvj & Hhj).
  split; [exact Hne|].
  destruct (decide (j = r)) as [->|Hjr].
  - assert (rowj = row) as -> by congruence.
    exists (Matrix.store v c x). split.
    + apply list_lookup_insert_eq. lia.
    + apply list_lookup_insert_eq. now apply lookup_lt_Some in Hhrow.
  - exists vj. split; [now rewrite list_lookup_insert_ne|].
    rewrite list_lookup_insert_ne; [exact Hhj|].
    intros ->. apply Hjr. symmetry. exact (Hd _ _ _ Hrow Hrowj).
Qed.


Lemma lookup_swap {T} (l : list T) i j x y k :
  i < length l -> j < length l ->
  (<[j := y]> (<[i := x]> l)) !! k
  = if decide (k = j) then Some y
    else if decide (k = i) then Some x else l !! k.
Proof.
  intros Hi Hj. destruct (decide (k = j)) as [->|Hkj].
  - apply list_lookup_insert_eq. now rewrite length_insert.
  - rewrite list_lookup_insert_ne by congruence.
    destruct (decide (k = i)) as [->|Hki].
    + now apply list_lookup_insert_eq.
    + now rewrite list_lookup_insert_ne by congruence.
Qed.

Lemma distinct_swap rs i j ri rj :
  distinct rs -> rs !! i = Some ri -> rs !! j = Some rj ->
  distinct (<[j := ri]> (<[i := rj]> rs)).
Proof.
  intros Hd Hi Hj k l row.
  pose proof (lookup_lt_Some _ _ _ Hi) as Hil.
  pose proof (lookup_lt_Some _ _ _ Hj) as Hjl.
  rewrite !lookup_swap by assumption.
  intros Hk Hl.
  repeat case_decide; simplify_eq; try done;
    try (by eapply Hd);
    try (by exfalso; match goal with N : _ <> _ |- _ => apply N; by eapply Hd end).

Qed.

Lemma swapRows_spec st i j :
  i < n -> j < n ->
  hoare (holds st) (swapRows A i j)
    (fun _ h => holds (Matrix.swap [] st.1 i j, st.2) h) E.
Proof.
  intros Hi Hj h (HlA & Hlb & Hb & rs & HA & Hlr & Hd & Hrows).
  destruct (lookup_lt_is_Some_2 rs i) as [ri Hri]; [lia|].
  destruct (lookup_lt_is_Some_2 rs j) as [rj Hrj]; [lia|].
  destruct (Hrows i ri Hri) as (_ & vi & Hvi & Hhi).
  destruct (Hrows j rj Hrj) as (_ & vj & Hvj & Hhj).
  assert (HbA : b <> A) by congruence.
  pose proof (lookup_lt_Some _ _ _ HA) as HAl.
  cbv [swapRows getRow sbind rows setRow ret].
  rewrite HA; cbv beta iota. rewrite Hrj; cbv beta iota.
  rewrite HA; cbv beta iota. rewrite Hri; cbv beta iota.
  rewrite HA; cbv beta iota.
  rewrite list_lookup_insert_eq by exact HAl.
  rewrite list_insert_insert_eq.
  unfold Store.holds, Matrix.swap; cbn [fst snd].
  rewrite (nth_lookup_Some _ _ _ _ Hvi), (nth_lookup_Some _ _ _ _ Hvj).
  split; [now rewrite !length_insert|]. split; [exact Hlb|].
  split; [now rewrite list_lookup_insert_ne|].
  exists (<[j := ri]> (<[i := rj]> rs)).
  split; [now apply list_lookup_insert_eq|].
  split; [now rewrite !length_insert|].
  split; [now apply distinct_swap|].
  intros k row. rewrite !lookup_swap by lia. intros Hk.
  assert (Hrow : row <> b /\ exists v,
            (if decide (k = j) then Some vi
             else if decide (k = i) then Some vj else st.1 !! k) = Some v
            /\ h !! row = Some (Numbers v)).
  { repeat case_decide; simplify_eq; eauto.
    - split; [now apply (Hrows i)|eauto].
    - split; [now apply (Hrows j)|eauto]. }
  destruct Hrow as (Hne & v & Hv & Hh). split; [exact Hne|].
  exists v. split; [exact Hv|].
  rewrite list_lookup_insert_ne; [exact Hh|congruence].
Qed.

Lemma store_in (v : list float) i y :
  i < length v -> Matrix.store v i y = <[i := y]> v.
Proof.
  intros H. unfold Matrix.store. apply Nat.ltb_lt in H. now rewrite H.
Qed.

Lemma hoare_assume {T} (P : heap -> Prop) (fact : Prop) (c : M T) Q :
  (forall h, P h -> fact) -> (fact -> hoare P c Q E) -> hoare P c Q E.
Proof. intros HP Hc h Hh. exact (Hc (HP h Hh) h Hh). Qed.

Lemma holds_lengths st h : holds st h -> length st.1 = n /\ length st.2 = n.
Proof. intros (H1 & H2 & _). now split. Qed.

Lemma swapNums_spec st i j :
  i < n -> j < n ->
  hoare (holds st) (swapNums b i j)
    (fun _ h => holds (st.1, Matrix.swap nan st.2 i j) h) E.
Proof.
  intros Hi Hj. apply (hoare_assume _ _ _ _ (holds_lengths st)).
  intros [_ Hlen]. unfold swapNums.
  eapply hoare_bind_val; [apply getNum_spec|].
  eapply hoare_bind_val; [apply getNum_spec|].
  eapply hoare_bind; [now apply setNum_spec|]. intros u1. cbn [fst snd].
  eapply hoare_post; [|now apply setNum_spec].
  intros u2 h Hh. cbn [fst snd] in Hh.
  unfold Matrix.swap. unfold Matrix.num in Hh.
  rewrite !store_in in Hh; [exact Hh|lia|rewrite store_in, length_insert; lia].
Qed.

(** A loop whose body follows the pure step [f]. *)
Lemma hoare_forEach_fold {T S} (R : S -> heap -> Prop) (f : S -> T -> S)
    (l : list T) (body : T -> M unit) :
  (forall s x, x ∈ l -> hoare (R s) (body x) (fun _ => R (f s x)) E) ->
  forall s, hoare (R s) (forEach l body) (fun _ => R (fold_left f l s)) E.
Proof.
  induction l as [|x l IH]; intros Hb s; cbn [forEach fold_left].
  - now apply hoare_ret.
  - eapply hoare_bind; [apply Hb; constructor|]. intros u.
    apply IH. intros s' y Hy. apply Hb. now constructor.
Qed.

(** A loop that only updates a local variable, following [g]. *)
Lemma hoare_foldM_pure {T V} (P : heap -> Prop) (I : V -> Prop)
    (g : V -> T -> V) (l : list T) (body : V -> T -> M V) :
  (forall v x, x ∈ l -> I v ->
     I (g v x)
     /\ hoare P (body v x) (fun v' h => v' = g v x /\ P h) E) ->
  forall v, I v ->
    hoare P (foldM body l v)
      (fun v' h => v' = fold_left g l v /\ P h) E.
Proof.
  induction l as [|x l IH]; intros Hb v Hv; cbn [foldM fold_left].
  - now apply hoare_ret.
  - destruct (Hb v x) as [Hg Hbody]; [constructor|exact Hv|].
    eapply hoare_bind_val; [exact Hbody|].
    apply IH; [|exact Hg]. intros v' y Hy. apply Hb. now constructor.
Qed.

Lemma choosePivot_spec st col :
  col < n ->
  hoare (holds st) (choosePivot A n col)
    (fun p h => p = Matrix.choosePivot st.1 n col /\ holds st h) E.
Proof.
  intros Hcol. unfold choosePivot, Matrix.choosePivot.
  apply hoare_foldM_pure with (I := fun p => p < n); [|exact Hcol].
  intros pivot r Hr Hp. apply list_elem_of_In, in_seq in Hr.
  split; [destruct (_ <? _)%float; lia|].
  eapply hoare_bind_val; [apply getEntry_spec; lia|].
  eapply hoare_bind_val; [apply getEntry_spec; lia|].
  now apply hoare_ret.
Qed.

Lemma eliminateRow_spec st col r :
  col < n -> r < n ->
  hoare (holds st) (eliminateRow A b n col r)
    (fun _ => holds (Matrix.eliminateRow n col st r)) E.
Proof.
  intros Hcol Hr. destruct st as [Am bv]. unfold eliminateRow.
  eapply hoare_bind_val; [apply getEntry_spec; lia|].
  eapply hoare_bind_val; [apply getEntry_spec; lia|]. cbn [fst snd].
  set (factor := (Matrix.entry Am r col / Matrix.entry Am col col)%float).
  set (f := fun (s : Mat * Vec) c =>
              (Matrix.setEntry s.1 r c
                 (Matrix.entry s.1 r c - factor * Matrix.entry s.1 col c)%float,
               s.2)).
  eapply hoare_bind.
  { apply (hoare_forEach_fold holds f). intros s c Hc.
    eapply hoare_bind_val; [apply getEntry_spec; lia|].
    eapply hoare_bind_val; [apply getEntry_spec; lia|].
    now apply setEntry_spec. }
  intros u.
  assert (Hf : forall l s, fold_left f l s
    = (fold_left (fun Am c =>
         Matrix.setEntry Am r c
           (Matrix.entry Am r c - factor * Matrix.entry Am col c)%float) l s.1,
       s.2)).
  { induction l as [|c l IH]; intros [Am' bv']; [reflexivity|].
    cbn [fold_left]. now rewrite IH. }
  rewrite Hf. cbn [fst snd].
  eapply hoare_bind_val; [apply getNum_spec|].
  eapply hoare_bind_val; [apply getNum_spec|]. cbn [fst snd].
  eapply hoare_post; [|now apply setNum_spec]. intros u' h Hh. exact Hh.
Qed.

End Refine.

Section RefineSteps.
Variables (A b : loc) (n : nat).
Local Abbreviation holds := (Store.holds A b n).

Lemma eliminateRows_fold col l st :
  Forall (fun r => r < n) l -> col < n ->
  forall E,
  hoare (holds st) (forEach l (eliminateRow A b n col))
    (fun _ => holds (fold_left (Matrix.eliminateRow n col) l st)) E.
Proof.
  intros Hl Hcol E. apply (hoare_forEach_fold E holds).
  intros s r Hr. apply eliminateRow_spec; [exact Hcol|].
  rewrite Forall_forall in Hl. now apply Hl.
Qed.

Lemma pivotStep_spec st col :
  col < n ->
  hoare (holds st) (pivotStep A b n col)
    (fun _ h => exists st', Matrix.pivotStep n st col = Ok st' /\ holds st' h)
    (fun e _ => Matrix.pivotStep n st col = Throw e).
Proof.
  intros Hcol. destruct st as [Am bv]. unfold pivotStep, Matrix.pivotStep.
  destruct (choosePivot_range Am n col Hcol) as [_ Hp].
  eapply hoare_bind_val; [now apply choosePivot_spec|].
  eapply hoare_bind_val; [now apply getEntry_spec|]. cbn [fst snd].
  destruct (_ <? _)%float.
  { now apply hoare_throw. }
  eapply hoare_bind; [now apply swapRows_spec|]. intros u1.
  eapply hoare_bind; [now apply swapNums_spec|]. intros u2. cbn [fst snd].
  eapply hoare_post; [|apply eliminateRows_fold; [|exact Hcol]].
  - intros u h Hh. eexists. split; [reflexivity|exact Hh].
  - apply Forall_forall. intros r Hr. apply list_elem_of_In, in_seq in Hr. lia.
Qed.

Lemma eliminate_spec cols st :
  Forall (fun col => col < n) cols ->
  hoare (holds st) (forEach cols (pivotStep A b n))
    (fun _ h => exists st', Matrix.eliminate n cols st = Ok st' /\ holds st' h)
    (fun e _ => Matrix.eliminate n cols st = Throw e).
Proof.
  intros H. revert st.
  induction H as [|col cols Hcol _ IH]; intros st; cbn [forEach].
  - apply hoare_ret. intros h Hh. now exists st.
  - intros h Hh. unfold sbind.
    pose proof (pivotStep_spec st col Hcol h Hh) as Hs.
    rewrite eliminate_cons.
    destruct (pivotStep A b n col h) as [[u|e] h1].
    + destruct Hs as (st1 & -> & Hh1). cbn [bind]. exact (IH st1 h1 Hh1).
    + now rewrite Hs.
Qed.

End RefineSteps.

Section RefineBack.
Variables (A b x : loc) (n : nat).
Context (E : exn -> heap -> Prop).
Local Abbreviation holds := (Store.holds A b n).
Local Abbreviation holdsX := (Store.holdsX A b x n).

(** A read specified on the working copies also holds with [x] around. *)
Lemma hoare_read_X {T} st xv (c : M T) v :
  (forall h, (c h).2 = h) ->
  hoare (holds st) c (fun a h => a = v /\ holds st h) E ->
  hoare (holdsX st xv) c (fun a h => a = v /\ holdsX st xv h) E.
Proof.
  intros Hread Hc h Hh. pose proof Hh as [Hst HX].
  specialize (Hc h Hst). specialize (Hread h).
  destruct (c h) as [[a|e] h']; cbn in Hread; subst h'; [|exact Hc].
  destruct Hc as [-> _]. now split.
Qed.

Lemma getNum_x_spec st xv i :
  hoare (holdsX st xv) (getNum x i)
    (fun a h => a = Matrix.num xv i /\ holdsX st xv h) E.
Proof.
  intros h Hh. pose proof Hh as (_ & Hx & _).
  cbv [getNum sbind nums ret]. rewrite Hx. now split.
Qed.

Lemma setNum_x_spec st xv i y :
  i < n ->
  hoare (holdsX st xv) (setNum x i y)
    (fun _ h => holdsX st (Matrix.store xv i y) h) E.
Proof.
  intros Hi h ((HlA & Hlb & Hb & rs & HA & Hlr & Hd & Hrows) & Hx & Hlx & Hxb & Hxr).
  unfold setNum. rewrite Hx.
  assert (HxA : x <> A) by congruence.
  pose proof (Hxr rs HA) as Hxrs.
  split; [|split; [|split; [|split]]].
  - split; [exact HlA|]. split; [exact Hlb|].
    split; [now rewrite list_lookup_insert_ne|].
    exists rs. split; [now rewrite list_lookup_insert_ne|].
    split; [exact Hlr|]. split; [exact Hd|].
    intros j row Hrow. destruct (Hrows j row Hrow) as (Hne & v & Hv & Hh).
    split; [exact Hne|]. exists v. split; [exact Hv|].
    rewrite list_lookup_insert_ne; [exact Hh|].
    intros <-. apply Hxrs. eapply list_elem_of_lookup_2. exact Hrow.
  - apply list_lookup_insert_eq. now apply lookup_lt_Some in Hx.
  - rewrite length_store_in; lia.
  - exact Hxb.
  - intros rs'. rewrite list_lookup_insert_ne by exact HxA. apply Hxr.
Qed.

Lemma backRow_spec st xv r :
  r < n ->
  hoare (holdsX st xv) (backRow A b x n r)
    (fun _ => holdsX st (Matrix.backRow n st.1 st.2 xv r)) E.
Proof.
  intros Hr. unfold backRow, Matrix.backRow.
  eapply hoare_bind_val.
  { apply hoare_read_X; [apply getNum_loc|apply getNum_spec]. }
  eapply hoare_bind_val.
  { apply hoare_foldM_pure with (I := fun _ => True)
      (g := fun sum c => (sum - Matrix.entry st.1 r c * Matrix.num xv c)%float);
      [|exact Logic.I].
    intros sum c Hc _. split; [exact Logic.I|].
    eapply hoare_bind_val.
    { apply hoare_read_X; [apply getEntry_loc|now apply getEntry_spec]. }
    eapply hoare_bind_val; [apply getNum_x_spec|]. now apply hoare_ret. }
  eapply hoare_bind_val.
  { apply hoare_read_X; [apply getEntry_loc|now apply getEntry_spec]. }
  now apply setNum_x_spec.
Qed.

Lemma backSubstitute_spec st xv l :
  Forall (fun r => r < n) l ->
  hoare (holdsX st xv) (forEach l (backRow A b x n))
    (fun _ => holdsX st (fold_left (Matrix.backRow n st.1 st.2) l xv)) E.
Proof.
  intros Hl. apply (hoare_forEach_fold E (holdsX st)).
  intros s r Hr. apply backRow_spec. rewrite Forall_forall in Hl. now apply Hl.
Qed.

End RefineBack.

Section RefineCall.

Lemma vecAt_app h k l v : vecAt h l = Some v -> vecAt (h ++ k) l = Some v.
Proof.
  unfold vecAt. destruct (h !! l) as [o|] eqn:Hl; [|discriminate].
  now rewrite (lookup_app_l_Some _ _ _ _ Hl).
Qed.

Lemma rowsAt_app h k rs Am : rowsAt h rs = Some Am -> rowsAt (h ++ k) rs = Some Am.
Proof.
  revert Am. induction rs as [|r rs IH]; intros Am; cbn [rowsAt]; [easy|].
  destruct (vecAt h r) as [v|] eqn:Hv; [|discriminate].
  destruct (rowsAt h rs) as [m|]; [|discriminate].
  intros H. now rewrite (vecAt_app _ _ _ _ Hv), (IH m eq_refl).
Qed.

Lemma matAt_app h k A Am : matAt h A = Some Am -> matAt (h ++ k) A = Some Am.
Proof.
  unfold matAt. destruct (h !! A) as [[v|rs]|] eqn:HA; try discriminate.
  rewrite (lookup_app_l_Some _ _ _ _ HA). apply rowsAt_app.
Qed.

Lemma rowsAt_length h rs Am : rowsAt h rs = Some Am -> length Am = length rs.
Proof.
  revert Am. induction rs as [|r rs IH]; intros Am; cbn [rowsAt].
  - now intros [= <-].
  - destruct (vecAt h r); [|discriminate].
    destruct (rowsAt h rs) as [m|]; [|discriminate].
    intros [= <-]. cbn. now rewrite (IH m).
Qed.

Lemma clone_row_run h r v :
  h !! r = Some (Numbers v) ->
  (do v <- nums r; new (Numbers v)) h = (Ok (length h), h ++ [Numbers v]).
Proof. intros Hr. cbv [sbind nums new]. now rewrite Hr. Qed.

(** The row copies are made one after the other, each at the end of the
    store. *)
Lemma clone_rows_run rs : forall h Am,
  rowsAt h rs = Some Am ->
  mapM (fun row => do v <- nums row; new (Numbers v)) rs h
  = (Ok (seq (length h) (length Am)), h ++ List.map Numbers Am).
Proof.
  induction rs as [|r rs IH]; intros h Am; cbn [rowsAt mapM].
  - intros [= <-]. cbn. now rewrite app_nil_r.
  - destruct (vecAt h r) as [v|] eqn:Hv; [|discriminate].
    destruct (rowsAt h rs) as [m|] eqn:Hm; [|discriminate].
    intros [= <-]. unfold vecAt in Hv.
    destruct (h !! r) as [[v'|]|] eqn:Hr; try discriminate.
    injection Hv as ->.
    unfold sbind at 1. rewrite (clone_row_run h r v Hr).
    unfold sbind at 1.
    rewrite (IH (h ++ [Numbers v]) m (rowsAt_app _ _ _ _ Hm)).
    rewrite length_app. cbn [length List.map seq ret].
    rewrite Nat.add_1_r, <- app_assoc. reflexivity.
Qed.

Lemma cloneMat_run h Ain Am :
  matAt h Ain = Some Am ->
  cloneMat Ain h
  = (Ok (length h + length Am),
     h ++ List.map Numbers Am ++ [Rows (seq (length h) (length Am))]).
Proof.
  unfold matAt. destruct (h !! Ain) as [[v|rs]|] eqn:HA; try discriminate.
  intros Hrs. unfold cloneMat. unfold sbind at 1. unfold rows. rewrite HA.
  unfold sbind at 1. rewrite (clone_rows_run rs h Am Hrs).
  unfold new. rewrite length_app, length_map, app_assoc. reflexivity.
Qed.

(** The store right after the copies of [A] and [b] are made. *)
Lemma copies_hold h (Am : Mat) (bv : Vec) :
  let n := length Am in
  let h2 := h ++ List.map Numbers Am ++ [Rows (seq (length h) n)]
              ++ [Numbers bv] in
  length bv = n ->
  holds (length h + n) (length h + n + 1) n (Am, bv) h2.
Proof.
  intros n h2 Hb. subst h2.
  assert (Hlm : length (List.map Numbers Am) = n) by apply length_map.
  split; [reflexivity|]. split; [exact Hb|]. split.
  - rewrite lookup_app_r by lia. rewrite lookup_app_r by lia.
    rewrite lookup_app_r by (cbn; lia).
    replace (_ - _ - _ - _) with 0 by (cbn; lia). reflexivity.
  - exists (seq (length h) n). split.
    + rewrite lookup_app_r by lia. rewrite lookup_app_r by lia.
      replace (_ - _ - _) with 0 by lia. reflexivity.
    + split; [apply length_seq|]. split.
      * intros i j row Hi Hj.
        apply lookup_seq in Hi as [-> _]. apply lookup_seq in Hj as [Hj _]. lia.
      * intros i row Hi. apply lookup_seq in Hi as [-> Hi].
        split; [lia|].
        destruct (lookup_lt_is_Some_2 Am i Hi) as [v Hv].
        exists v. split; [exact Hv|].
        rewrite lookup_app_r by lia. rewrite lookup_app_l by lia.
        replace (length h + i - length h) with i by lia.
        now rewrite list_lookup_fmap, Hv.
Qed.

(** The result array joins them. *)
Lemma result_holds A b n st h xv :
  holds A b n st h -> length xv = n ->
  A < length h -> b < length h ->
  holdsX A b (length h) n st xv (h ++ [Numbers xv]).
Proof.
  intros (HlA & Hlb & Hb & rs & HA & Hlr & Hd & Hrows) Hx HAl Hbl.
  split; [|split; [|split; [|split]]].
  - split; [exact HlA|]. split; [exact Hlb|].
    split; [now apply lookup_app_l_Some|].
    exists rs. split; [now apply lookup_app_l_Some|].
    split; [exact Hlr|]. split; [exact Hd|].
    intros j row Hrow. destruct (Hrows j row Hrow) as (Hne & v & Hv & Hh).
    split; [exact Hne|]. exists v. split; [exact Hv|].
    now apply lookup_app_l_Some.
  - rewrite lookup_app_r by lia. now rewrite Nat.sub_diag.
  - exact Hx.
  - lia.
  - intros rs'. rewrite (lookup_app_l_Some _ _ _ _ HA). intros [= <-].
    intros Hin. apply list_elem_of_lookup_1 in Hin as [j Hj].
    destruct (Hrows j _ Hj) as (_ & v & _ & Hh).
    apply lookup_lt_Some in Hh. lia.
Qed.

Lemma solve_refines h Ain bIn Am bv :
  matAt h Ain = Some Am ->
  vecAt h bIn = Some bv ->
  match solveLinearSystem Ain bIn h with
  | (Ok x, h') =>
      exists xv, Matrix.solveLinearSystem Am bv = Ok xv /\ vecAt h' x = Some xv
  | (Throw e, _) => Matrix.solveLinearSystem Am bv = Throw e
  end.
Proof.
  intros HA Hb.
  unfold Matrix.solveLinearSystem, solveLinearSystem.
  rewrite cloneMat_id.
  unfold sbind at 1. rewrite (cloneMat_run h Ain Am HA).
  set (n := length Am). set (A := length h + n).
  set (h1 := h ++ List.map Numbers Am ++ [Rows (seq (length h) n)]).
  assert (Hl1 : length h1 = length h + n + 1).
  { unfold h1. rewrite !length_app, length_map. cbn. lia. }
  assert (Hb1 : h1 !! bIn = Some (Numbers bv)).
  { unfold vecAt in Hb. destruct (h !! bIn) as [[v|]|] eqn:Hl; try discriminate.
    injection Hb as ->. now apply lookup_app_l_Some. }
  unfold sbind at 1. unfold nums at 1. rewrite Hb1.
  unfold sbind at 1. unfold new at 1. rewrite Hl1.
  set (b := length h + n + 1). set (h2 := h1 ++ [Numbers bv]).
  assert (HA2 : h2 !! A = Some (Rows (seq (length h) n))).
  { unfold h2. rewrite lookup_app_l by (unfold A; lia).
    unfold h1, A. rewrite lookup_app_r by lia.
    rewrite lookup_app_r by (rewrite length_map; unfold n; lia).
    rewrite length_map. replace (_ - _ - _) with 0 by (unfold n; lia).
    reflexivity. }
  assert (Hb2 : h2 !! b = Some (Numbers bv)).
  { unfold h2, b. rewrite lookup_app_r by lia.
    rewrite Hl1, Nat.sub_diag. reflexivity. }
  unfold sbind at 1. unfold lengthOf at 1. rewrite HA2, length_seq.
  unfold sbind at 1. unfold lengthOf at 1. rewrite Hb2.
  destruct (Nat.eqb_spec (length bv) n) as [Hbn|Hbn]; cbn [negb];
    [|reflexivity].
  assert (Hh2 : holds A b n (Am, bv) h2).
  { unfold h2, h1. rewrite <- !app_assoc. now apply copies_hold. }
  pose proof (eliminate_spec A b n (seq 0 n) (Am, bv)) as Hel.
  specialize (Hel ltac:(apply Forall_forall; intros c Hc;
                        apply list_elem_of_In, in_seq in Hc; lia) h2 Hh2).
  unfold sbind at 1.
  destruct (forEach (seq 0 n) (pivotStep A b n) h2) as [[u|e] h3].
  2:{ now rewrite Hel. }
  destruct Hel as (st' & -> & Hh3). cbn [bind].
  unfold sbind at 1. unfold new at 1.
  assert (HA3 : A < length h3).
  { destruct Hh3 as (_ & _ & _ & rs & HA3 & _). now apply lookup_lt_Some in HA3. }
  assert (Hb3 : b < length h3).
  { destruct Hh3 as (_ & _ & Hb3 & _). now apply lookup_lt_Some in Hb3. }
  pose proof (result_holds A b n st' h3 (replicate n 0%float) Hh3
                (length_replicate _ _) HA3 Hb3) as Hh4.
  pose proof (backSubstitute_spec A b (length h3) n (fun _ _ => False) st'
                (replicate n 0%float) (rev (seq 0 n))) as Hbk.
  specialize (Hbk ltac:(apply Forall_forall; intros c Hc;
                        apply list_elem_of_In in Hc; rewrite <- in_rev in Hc;
                        apply in_seq in Hc; lia) _ Hh4).
  unfold sbind at 1.
  destruct (forEach (rev (seq 0 n)) (backRow A b (length h3) n) _)
    as [[u'|e] h5]; [|destruct Hbk].
  destruct Hbk as (_ & Hx & _). unfold ret. eexists. split; [reflexivity|].
  unfold vecAt. now rewrite Hx.
Qed.

(** C9. Whatever the store [h] and the references [Ain] and [bIn] passed,
    [solveLinearSystem] only adds objects to the store. For arguments that
    stand for a matrix [Am] and a vector [bv], they still stand for [Am] and
    [bv] after the call, every object the caller could reach is as it was,
    and the call ends as [Matrix.solveLinearSystem Am bv] does: with a new
    array holding the solution, or with the same thrown error. *)
Theorem solve_leaves_arguments h Ain bIn Am bv :
  matAt h Ain = Some Am ->
  vecAt h bIn = Some bv ->
  matAt (solveLinearSystem Ain bIn h).2 Ain = Some Am
  /\ vecAt (solveLinearSystem Ain bIn h).2 bIn = Some bv
  /\ (forall l, l < length h -> (solveLinearSystem Ain bIn h).2 !! l = h !! l)
  /\ match solveLinearSystem Ain bIn h with
     | (Ok x, h') =>
         length h <= x
         /\ exists xv,
              Matrix.solveLinearSystem Am bv = Ok xv /\ vecAt h' x = Some xv
     | (Throw e, _) => Matrix.solveLinearSystem Am bv = Throw e
     end.
Proof.
  intros HA Hb.
  pose proof (solve_refines h Ain bIn Am bv HA Hb) as Href.
  pose proof (solveLinearSystem_extends h Ain bIn h (reflexivity h)) as Hext.
  destruct (solveLinearSystem Ain bIn h) as [res h'] eqn:Hrun. cbn [snd].
  assert (Hpre : h `prefix_of` h') by (destruct res; exact Hext).
  destruct Hpre as [k ->].
  split; [now apply matAt_app|]. split; [now apply vecAt_app|].
  split; [intros l Hl; now apply lookup_app_l|].
  destruct res as [x|e]; [|exact Href]. split; [|exact Href].
  pose proof (solveLinearSystem_fresh h Ain bIn h (reflexivity h)) as Hfr.
  rewrite Hrun in Hfr. exact Hfr.
Qed.

Lemma solve_leaves_arguments_witness :
  let h := [Numbers [2; 1]%float; Numbers [1; 3]%float; Rows [0; 1];
            Numbers [3; 5]%float] in
  matAt h 2 = Some [[2; 1]; [1; 3]]%float
  /\ vecAt h 3 = Some [3; 5]%float
  /\ matAt (solveLinearSystem 2 3 h).2 2 = Some [[2; 1]; [1; 3]]%float
  /\ vecAt (solveLinearSystem 2 3 h).2 3 = Some [3; 5]%float.
Proof.
  intros h.
  assert (H1 : matAt h 2 = Some [[2; 1]; [1; 3]]%float) by reflexivity.
  assert (H2 : vecAt h 3 = Some [3; 5]%float) by reflexivity.
  split; [exact H1|]. split; [exact H2|].
  destruct (solve_leaves_arguments h 2 3 _ _ H1 H2) as (HA & Hb & _).
  split; [exact HA|exact Hb].
Defined.

(** Rows that are one and the same array, which is the vector as well, and a
    call that fails: the copies are taken apart and the arguments stay. *)
Lemma solve_shared_rows :
  let h := [Numbers [3; 5]%float; Rows [0; 0]] in
  matAt h 1 = Some [[3; 5]; [3; 5]]%float
  /\ vecAt h 0 = Some [3; 5]%float
  /\ (solveLinearSystem 1 0 h).1 = Throw Matrix.SingularMatrix
  /\ h `prefix_of` (solveLinearSystem 1 0 h).2.
Proof.
  intros h. split; [reflexivity|]. split; [reflexivity|].
  split; [vm_compute; reflexivity|].
  pose proof (solveLinearSystem_extends h 1 0 h (reflexivity h)) as H.
  destruct (solveLinearSystem 1 0 h) as [[x|e] h']; exact H.
Qed.

End RefineCall.

End StoreFacts.

(** ** The matcher, on every pattern *)

Section MatcherShape.
Import Js Regex Reference.

Lemma reaches_here r st :
  endsAtEol r = false -> startsAtBol r = false -> reaches r st st.
Proof.
  intros H1 H2. exists [], []. cbn. rewrite Nat.add_0_r, H1, H2.
  repeat split; try constructor; discriminate.
Qed.

Lemma sound_step1 r ok :
  (forall st k, m r st k = step1 st ok k) ->
  (forall c, ok c = true -> consumes r c = true) ->
  endsAtEol r = false -> startsAtBol r = false -> groupsOf r = [] ->
  sound r.
Proof.
  intros Hm Hok H1 H2 Hg st k e H. rewrite Hm in H. unfold step1 in H.
  destruct (rest st) as [|c t] eqn:Hrest; [discriminate|].
  destruct (ok c) eqn:Hc; [|discriminate].
  eexists. split; [|exact H].
  exists [c], []. cbn [rest pos caps app length]. rewrite H1, H2.
  repeat split; try discriminate; try lia; try constructor; auto.
Qed.

Lemma sound_star r : sound r -> sound (Star r).
Proof.
  intros IH st k e. rewrite m_star. generalize (S (length (rest st))) as fuel.
  intros fuel. revert st. induction fuel as [|fuel IHf]; intros st H.
  - cbn in H. exists st. split; [now apply reaches_here|exact H].
  - cbn [starLoop] in H.
    destruct (m r st _) as [e'|] eqn:Hbody.
    2:{ exists st. split; [now apply reaches_here|exact H]. }
    injection H as ->.
    apply IH in Hbody as (st1 & Hr1 & Hk1).
    destruct (Nat.eqb (pos st1) (pos st)); [discriminate|].
    apply IHf in Hk1 as (st2 & Hr2 & Hk2).
    exists st2. split; [|exact Hk2].
    destruct Hr1 as (w1 & n1 & Hw1 & Hp1 & Hc1 & Hn1 & Hg1 & _ & _).
    destruct Hr2 as (w2 & n2 & Hw2 & Hp2 & Hc2 & Hn2 & Hg2 & _ & _).
    exists (w1 ++ w2), (n2 ++ n1). cbn [consumes groupsOf] in *.
    rewrite Hw1, Hw2, Hp2, Hp1, Hn2, Hn1, length_app, !app_assoc.
    repeat split; try discriminate; try lia.
    + apply Forall_app; auto.
    + apply Forall_app; auto.
Qed.

Lemma matcher_sound r : sound r.
Proof.
  induction r as [|c| | |cs| | |r1 IH1 r2 IH2|r1 IH1 r2 IH2|r IH|i r IH].
  - intros st k e H. exists st. split; [now apply reaches_here|exact H].
  - apply (sound_step1 _ (N.eqb c)); auto.
  - apply (sound_step1 _ (fun x => negb (isLineTerminator x))); auto.
  - apply (sound_step1 _ isWhite); auto.
  - apply (sound_step1 _ (fun x => mem x cs)); auto.
  - intros st k e H. cbn [m] in H.
    destruct (Nat.eqb_spec (pos st) 0) as [Hp|]; [|discriminate].
    exists st. split; [|exact H].
    exists [], []. cbn. rewrite Nat.add_0_r.
    repeat split; try constructor; try discriminate; auto.
  - intros st k e H. cbn [m] in H.
    destruct (rest st) as [|? ?] eqn:Hrest; [|discriminate].
    exists st. split; [|exact H].
    exists [], []. cbn. rewrite Nat.add_0_r.
    repeat split; try constructor; try discriminate; auto.
  - intros st k e H. rewrite m_seq in H.
    apply IH1 in H as (st1 & Hr1 & H). apply IH2 in H as (st2 & Hr2 & H).
    exists st2. split; [|exact H].
    destruct Hr1 as (w1 & n1 & Hw1 & Hp1 & Hc1 & Hn1 & Hg1 & He1 & Hb1).
    destruct Hr2 as (w2 & n2 & Hw2 & Hp2 & Hc2 & Hn2 & Hg2 & He2 & Hb2).
    exists (w1 ++ w2), (n2 ++ n1). cbn [consumes groupsOf endsAtEol startsAtBol].
    rewrite Hw1, Hw2, Hp2, Hp1, Hn2, Hn1, length_app, !app_assoc.
    repeat split; try lia.
    + apply Forall_app. split.
      * eapply Forall_impl; [exact Hc1|]. cbn. intros ? ->. reflexivity.
      * eapply Forall_impl; [exact Hc2|]. cbn. intros ? ->. apply orb_true_r.
    + apply Forall_app. split.
      * eapply Forall_impl; [exact Hg2|]. cbn. intros ? ?.
        apply elem_of_app. now right.
      * eapply Forall_impl; [exact Hg1|]. cbn. intros ? ?.
        apply elem_of_app. now left.
    + intros He. apply orb_true_iff in He as [He|He]; [now apply He2|].
      apply andb_true_iff in He as [He Hr2eps].
      destruct r2; try discriminate.
      destruct w2; [|inversion Hc2; discriminate].
      cbn in Hw2. rewrite <- Hw2. now apply He1.
    + exact Hb1.
  - intros st k e H. cbn [m] in H.
    destruct (m r1 st k) as [e1|] eqn:H1.
    + injection H as ->. apply IH1 in H1 as (st1 & Hr1 & H1).
      exists st1. split; [|exact H1].
      destruct Hr1 as (w1 & n1 & Hw1 & Hp1 & Hc1 & Hn1 & Hg1 & He1 & Hb1).
      exists w1, n1. cbn [consumes groupsOf endsAtEol startsAtBol].
      repeat split; auto.
      * eapply Forall_impl; [exact Hc1|]. cbn. intros ? ->. reflexivity.
      * eapply Forall_impl; [exact Hg1|]. cbn. intros ? ?.
        apply elem_of_app. now left.
      * intros He. apply andb_true_iff in He as [He _]. auto.
      * intros He. apply andb_true_iff in He as [He _]. auto.
    + apply IH2 in H as (st1 & Hr1 & H).
      exists st1. split; [|exact H].
      destruct Hr1 as (w1 & n1 & Hw1 & Hp1 & Hc1 & Hn1 & Hg1 & He1 & Hb1).
      exists w1, n1. cbn [consumes groupsOf endsAtEol startsAtBol].
      repeat split; auto.
      * eapply Forall_impl; [exact Hc1|]. cbn. intros ? ->. apply orb_true_r.
      * eapply Forall_impl; [exact Hg1|]. cbn. intros ? ?.
        apply elem_of_app. now right.
      * intros He. apply andb_true_iff in He as [_ He]. auto.
      * intros He. apply andb_true_iff in He as [_ He]. auto.
  - now apply sound_star.
  - intros st k e H. cbn [m] in H.
    apply IH in H as (st1 & Hr1 & H).
    eexists. split; [|exact H].
    destruct Hr1 as (w1 & n1 & Hw1 & Hp1 & Hc1 & Hn1 & Hg1 & He1 & Hb1).
    exists w1, ((i, take (pos st1 - pos st) (rest st)) :: n1).
    cbn [consumes groupsOf endsAtEol startsAtBol rest pos caps].
    rewrite Hn1. repeat split; auto.
    constructor; [cbn; left|].
    eapply Forall_impl; [exact Hg1|]. cbn. intros ? ?. now right.
Qed.

(** A match found by [exec] is a match at its start index. *)
Lemma exec_matchAt r : forall s i j st,
  exec r i s = Some (j, st) ->
  i <= j /\ j - i <= length s /\ matchAt r j (drop (j - i) s) = Some st.
Proof.
  induction s as [|c s IH]; intros i j st H; cbn [exec] in H.
  - destruct (matchAt r i []) eqn:Hm; [|discriminate].
    injection H as <- <-. rewrite Nat.sub_diag. cbn. repeat split; auto; lia.
  - destruct (matchAt r i (c :: s)) eqn:Hm.
    + injection H as <- <-. rewrite Nat.sub_diag. cbn. repeat split; auto; lia.
    + apply IH in H as (Hle & Hlen & H).
      replace (j - i) with (S (j - S i)) by lia. cbn [drop length].
      repeat split; auto; lia.
Qed.

(** A pattern without capturing group leaves every capture undefined. *)
Lemma match_no_group s r st i :
  groupsOf r = [] -> match_ s r = Some st -> capture i st = None.
Proof.
  intros Hg H. unfold match_ in H.
  destruct (exec r 0 s) as [[j st']|] eqn:He; [|discriminate].
  injection H as ->. apply exec_matchAt in He as (_ & _ & He).
  unfold matchAt in He. apply matcher_sound in He as (st' & Hr & Hk).
  injection Hk as ->.
  destruct Hr as (w & new & _ & _ & _ & Hn & Hnew & _).
  rewrite Hg in Hnew. destruct new as [|p new].
  - cbn in Hn. unfold capture. rewrite Hn. reflexivity.
  - inversion Hnew as [|? ? Hp]. now apply not_elem_of_nil in Hp.
Qed.

(** A pattern between [^] and [$] matches whole subjects only, made of
    characters the pattern can consume. *)
Lemma test_anchored r s :
  startsAtBol r = true -> endsAtEol r = true -> test r s = true ->
  Forall (fun c => consumes r c = true) s.
Proof.
  intros Hb He H. unfold test in H.
  destruct (exec r 0 s) as [[j st]|] eqn:Hx; [|discriminate].
  apply exec_matchAt in Hx as (_ & _ & Hx).
  unfold matchAt in Hx. apply matcher_sound in Hx as (st' & Hr & Hk).
  destruct Hr as (w & new & Hw & _ & Hc & _ & _ & Hend & Hstart).
  cbn [rest pos] in *. rewrite (Hstart Hb) in Hw. rewrite Nat.sub_0_r, drop_0 in Hw.
  rewrite (Hend He), app_nil_r in Hw. now subst.
Qed.

End MatcherShape.

(** ** The rule catalog, rule by rule *)

Section CatalogMore.
Import Js Regex Catalog Engine App Reference.

Lemma search_occurs sub : forall s i k,
  search sub s i = Some k ->
  exists pre post, s = pre ++ sub ++ post /\ k = i + length pre.
Proof.
  induction s as [|c s IH]; intros i k H; cbn [search] in H.
  - destruct (isPrefix sub []) eqn:Hp; [|discriminate].
    injection H as <-. exists [], (drop (length sub) []).
    split; [now apply isPrefix_app|cbn; lia].
  - destruct (isPrefix sub (c :: s)) eqn:Hp.
    + injection H as <-. exists [], (drop (length sub) (c :: s)).
      split; [now apply isPrefix_app|cbn; lia].
    + apply IH in H as (pre & post & -> & ->).
      exists (c :: pre), post. split; [reflexivity|cbn; lia].
Qed.

Lemma includes_elem s sub c :
  includes s sub = true -> c ∈ sub -> c ∈ s.
Proof.
  unfold includes. destruct (search sub s 0) as [k|] eqn:H; [|discriminate].
  intros _ Hc. apply search_occurs in H as (pre & post & -> & _).
  rewrite !elem_of_app. tauto.
Qed.

Lemma search_none sub : forall s i,
  search sub s i = None -> forall j, isPrefix sub (drop j s) = false.
Proof.
  induction s as [|c s IH]; intros i H j; cbn [search] in H.
  - destruct (isPrefix sub []) eqn:Hp; [discriminate|].
    now rewrite drop_nil.
  - destruct (isPrefix sub (c :: s)) eqn:Hp; [discriminate|].
    destruct j as [|j]; [now rewrite drop_0|]. cbn [drop]. now apply (IH (S i)).
Qed.

Lemma includes_false s sub :
  includes s sub = false -> forall j, isPrefix sub (drop j s) = false.
Proof.
  unfold includes. destruct (search sub s 0) eqn:H; [discriminate|].
  intros _. now apply (search_none sub s 0).
Qed.

(** A pattern that begins with a run of pattern characters rewrites nothing
    in a subject the run does not occur in. *)
Lemma replace_lits_absent cs r rep s :
  includes s cs = false -> replace s (lits cs r) rep = s.
Proof.
  intros H. unfold replace. apply replaceFrom_lits_none. now apply includes_false.
Qed.

(** ** The rules that normalize *)

Lemma transforms_normalized_witness :
  let e := lit "G_t  +  1" in
  let out := lit "\\sum_{k=0}^{\\infty} \\gamma^k R_{t+1+k} + 1" in
  In defReturn mrpBellmanRules
  /\ RewriteRule.id defReturn <> lit "linearity"
  /\ RewriteRule.transform defReturn e = Ok out
  /\ normalized out.
Proof.
  intros e out.
  assert (H1 : In defReturn mrpBellmanRules) by (cbn; tauto).
  assert (H2 : RewriteRule.id defReturn <> lit "linearity") by discriminate.
  assert (H3 : RewriteRule.transform defReturn e = Ok out)
    by (vm_compute; reflexivity).
  repeat (split; [assumption|]).
  exact (transforms_normalized defReturn e out H1 H2 H3).
Defined.

(** ** [total-expectation-next-state] *)

(** X2. The transform of [total-expectation-next-state] fails on every
    expression, and how it fails is decided by its pattern: where the
    pattern has no match it throws the error of the rule, and where it has
    one the pattern, which holds no capturing group, leaves [m[1]]
    undefined, so that reading [m[1].trim()] is a type error. Both cases
    occur: the pattern matches [\\mathbb\{E\}\m] and does not match
    [\\mathbb{E}[G_{t+1}\\\mid S_t=s]]. *)
Theorem totalExpectation_always_throws :
  let pat := regexp "\\\\mathbb\\{E\\}\\[(.+)\\\\\\mid\\s*S_t\\s*=\\s*s\\]" in
  (forall latex,
     if test pat latex then
       match_ latex pat <> None
       /\ exists msg,
            RewriteRule.transform totalExpectationNextState latex
            = Throw (TypeError msg)
     else
       match_ latex pat = None
       /\ RewriteRule.transform totalExpectationNextState latex
          = Throw (Error (lit "Expected \\mathbb{E}[ ... \\\mid S_t = s ]")))
  /\ test pat (lit "\\mathbb\{E\}\m") = true
  /\ test pat (lit "\\mathbb{E}[G_{t+1}\\\mid S_t=s]") = false.
Proof.
  intros pat. split; [|split; vm_compute; reflexivity].
  intros latex. cbn [RewriteRule.transform totalExpectationNextState].
  fold pat. unfold test.
  destruct (match_ latex pat) as [st|] eqn:Hm.
  - pose proof Hm as Hcap.
    apply (match_no_group _ _ _ 1) in Hcap; [|vm_compute; reflexivity].
    rewrite Hcap. unfold match_ in Hm.
    destruct (exec pat 0 latex) as [p|]; [|discriminate].
    split; [discriminate|]. eauto.
  - unfold match_ in Hm.
    destruct (exec pat 0 latex) as [p|]; [discriminate|].
    split; reflexivity.
Qed.

(** ** [assemble-bellman] *)

(** X3. Whenever the predicate of [assemble-bellman] accepts an expression,
    its transform fails with the error of the rule: the predicate asks for
    the text [r(s)], and the two patterns of the transform, anchored at both
    ends, match no expression that holds a parenthesis. *)
Theorem assembleBellman_offered_fails latex :
  RewriteRule.appliesTo assembleBellman latex = Ok true ->
  RewriteRule.transform assembleBellman latex
  = Throw (Error (lit "Expected r(s) + \\gamma \\sum_{s'} p(s'|s) v(s')")).
Proof.
  cbn [RewriteRule.appliesTo RewriteRule.transform assembleBellman].
  intros H. injection H as H. apply andb_true_iff in H as [Hr _].
  assert (Hin : 40%N ∈ latex).
  { apply (includes_elem _ _ _ Hr). vm_compute. right. left. }
  assert (Hno : forall r, startsAtBol r = true -> endsAtEol r = true ->
                  consumes r 40%N = false -> test r latex = false).
  { intros r Hb He Hc. destruct (test r latex) eqn:Ht; [|reflexivity].
    pose proof (test_anchored r latex Hb He Ht) as Hall.
    rewrite Forall_forall in Hall. specialize (Hall _ Hin). congruence. }
  rewrite !Hno by (vm_compute; reflexivity). reflexivity.
Qed.

Lemma assembleBellman_offered_fails_witness :
  let latex := lit "r(s) + \\gamma \\sum_{s'} p(s'\\\mid s) v(s')" in
  RewriteRule.appliesTo assembleBellman latex = Ok true
  /\ RewriteRule.transform assembleBellman latex
     = Throw (Error (lit "Expected r(s) + \\gamma \\sum_{s'} p(s'|s) v(s')")).
Proof.
  intros latex.
  assert (H : RewriteRule.appliesTo assembleBellman latex = Ok true)
    by (vm_compute; reflexivity).
  split; [exact H|]. exact (assembleBellman_offered_fails latex H).
Defined.

(** ** [value-substitution] *)

Lemma valueSubstitution_pats_shape :
  exists r1 r2 r3,
    regexp "\\\\mathbb\\{E\\}\\[G_\\{t\\+1\\}\\\\\\mid\\s*S_\\{t\\+1\\}=s'\\]"
    = lits defineR_pat_head r1
    /\ regexp "\\\\mathbb\\{E\\}\\[G_{t\\+1}\\\\\\mid\\s*S_\\{t\\+1\\}=s'\\]"
       = lits defineR_pat_head r2
    /\ regexp "\\\\mathbb\\{E\\}\\[\\\\sum_\\{k=0\\}\\^\\{\\\\infty\\}\\s*\\\\gamma\\^k\\s*R_\\{t\\+2\\+k\\}\\\\\\mid\\s*S_\\{t\\+1\\}=s'\\]"
       = lits defineR_pat_head r3.
Proof. do 3 eexists. repeat split; vm_compute; reflexivity. Qed.

(** X4. The transforms of [define-r] and [value-substitution] rewrite nothing
    in an expression that does not hold the text [\\mathbb\] (two
    backslashes, [mathbb], one backslash): every pattern they replace begins
    with it. On such an expression they only normalize the whitespace. *)
Theorem doubled_patterns_rewrite_nothing latex :
  includes latex defineR_pat_head = false ->
  RewriteRule.transform valueSubstitution latex = Ok (normalize latex)
  /\ RewriteRule.transform defineR latex = Ok (normalize latex).
Proof.
  intros H. split.
  - cbn [RewriteRule.transform valueSubstitution].
    destruct valueSubstitution_pats_shape as (r1 & r2 & r3 & -> & -> & ->).
    rewrite (replace_lits_absent _ r1 _ latex H).
    rewrite (replace_lits_absent _ r2 _ latex H).
    now rewrite (replace_lits_absent _ r3 _ latex H).
  - cbn [RewriteRule.transform defineR].
    destruct defineR_pat_shape as [r ->].
    now rewrite replace_lits_absent.
Qed.

Lemma doubled_patterns_rewrite_nothing_witness :
  let latex := lit "\\mathbb{E}[G_{t+1}\\\mid S_{t+1}=s']" in
  RewriteRule.appliesTo valueSubstitution latex = Ok true
  /\ includes latex defineR_pat_head = false
  /\ RewriteRule.transform valueSubstitution latex = Ok latex.
Proof.
  intros latex.
  assert (H : includes latex defineR_pat_head = false) by (vm_compute; reflexivity).
  split; [vm_compute; reflexivity|]. split; [exact H|].
  rewrite (proj1 (doubled_patterns_rewrite_nothing latex H)).
  vm_compute. reflexivity.
Defined.

(** ** [unroll-return] behind its button *)

(** X5. Pressing the button of [unroll-return] never rewrites the
    expression: whatever the active step is, the handler adds a step with
    the same expression, named after the failure of the rule and explained by
    the message of its error. *)
Theorem unrollReturn_button_fails st active :
  steps st !! activeIndex st = Some active ->
  onApplyRule mrpBellmanRules st (lit "unroll-return")
  = Ok (advance st {|
      DerivationStep.latex := DerivationStep.latex active;
      DerivationStep.ruleId := None;
      DerivationStep.ruleName := Some (lit "Rule failed: Unroll return");
      DerivationStep.explanation := Some unrollReturn_message |}).
Proof.
  intros Hact. unfold onApplyRule.
  replace (List.find _ mrpBellmanRules) with (Some unrollReturn) by reflexivity.
  rewrite Hact. unfold applyRule. rewrite unrollReturn_always_throws.
  reflexivity.
Qed.

Lemma unrollReturn_button_fails_witness :
  steps initial !! activeIndex initial = Some START
  /\ exists st', onApplyRule mrpBellmanRules initial (lit "unroll-return") = Ok st'
       /\ activeIndex st' = 1
       /\ DerivationStep.latex <$> steps st' !! 1 = Some (lit "v(s)").
Proof.
  assert (H : steps initial !! activeIndex initial = Some START) by reflexivity.
  split; [exact H|]. eexists.
  split; [exact (unrollReturn_button_fails initial START H)|].
  split; reflexivity.
Defined.

End CatalogMore.

(** ** Normalization, in words *)

Section NormalizeWords.
Import Js Regex Catalog Reference.

Local Abbreviation nonEmpty := (fun w : jsstring => negb (Nat.eqb (length w) 0)).

Lemma filter_word c w ws :
  List.filter nonEmpty ((c :: w) :: ws) = (c :: w) :: List.filter nonEmpty ws.
Proof. reflexivity. Qed.

Lemma filter_gap ws :
  List.filter nonEmpty ([] :: ws) = List.filter nonEmpty ws.
Proof. reflexivity. Qed.

Lemma pieces_cons_white c t :
  isWhite c = true -> pieces (c :: t) = [] :: pieces t.
Proof. intros H. cbn [pieces]. now rewrite H. Qed.

Lemma pieces_not_nil s : pieces s <> [].
Proof.
  destruct s as [|c t]; [discriminate|]. cbn [pieces].
  destruct (isWhite c); [discriminate|]. now destruct (pieces t).
Qed.

Lemma pieces_char c t :
  isWhite c = false ->
  exists w ws, pieces t = w :: ws /\ pieces (c :: t) = (c :: w) :: ws.
Proof.
  intros H. cbn [pieces]. rewrite H.
  destruct (pieces t) as [|w ws] eqn:Hp; [now apply pieces_not_nil in Hp|eauto].
Qed.

(** Collapsing the runs of whitespace keeps the words. *)
Lemma collapse_pieces s :
  words (collapseFrom true s) = words s
  /\ exists w ws ws',
       pieces (collapseFrom false s) = w :: ws'
       /\ pieces s = w :: ws
       /\ List.filter nonEmpty ws' = List.filter nonEmpty ws.
Proof.
  induction s as [|c t [IHt IHf]]; [split; [reflexivity|now exists [], [], []]|].
  cbn [collapseFrom]. destruct (isWhite c) eqn:Hc.
  - unfold words in *. rewrite (pieces_cons_white c t Hc), filter_gap.
    split; [exact IHt|].
    exists [], (pieces t), (pieces (collapseFrom true t)).
    split; [now apply pieces_cons_white|]. split; [reflexivity|exact IHt].
  - destruct IHf as (w & ws & ws' & H1 & H2 & H3).
    assert (HL : pieces (c :: collapseFrom false t) = (c :: w) :: ws').
    { destruct (pieces_char c (collapseFrom false t) Hc) as (? & ? & Ha & Hb).
      congruence. }
    assert (HR : pieces (c :: t) = (c :: w) :: ws).
    { destruct (pieces_char c t Hc) as (? & ? & Ha & Hb). congruence. }
    split.
    + unfold words. rewrite HL, HR, !filter_word. now rewrite H3.
    + exists (c :: w), ws, ws'. auto.
Qed.

Lemma pieces_white w :
  Forall (fun c => isWhite c = true) w ->
  exists ps, pieces w = [] :: ps /\ List.filter nonEmpty ps = [].
Proof.
  induction 1 as [|c w Hc _ (ps & Hp & Hf)]; [now exists []|].
  exists (pieces w). split; [now apply pieces_cons_white|].
  rewrite Hp. exact Hf.
Qed.

Lemma pieces_app_white v w :
  Forall (fun c => isWhite c = true) w ->
  exists p ps ps',
    pieces (v ++ w) = p :: ps' /\ pieces v = p :: ps
    /\ List.filter nonEmpty ps' = List.filter nonEmpty ps.
Proof.
  intros Hw. induction v as [|c v (p & ps & ps' & H1 & H2 & H3)].
  - destruct (pieces_white w Hw) as (ps & Hp & Hf).
    exists [], [], ps. auto.
  - cbn [app]. destruct (isWhite c) eqn:Hc.
    + exists [], (pieces v), (pieces (v ++ w)).
      rewrite !pieces_cons_white by assumption.
      split; [reflexivity|]. split; [reflexivity|].
      rewrite H1, H2. destruct p; [rewrite !filter_gap|rewrite !filter_word];
        now rewrite H3.
    + exists (c :: p), ps, ps'.
      destruct (pieces_char c (v ++ w) Hc) as (? & ? & Ha & Hb).
      destruct (pieces_char c v Hc) as (? & ? & Ha' & Hb').
      rewrite H1 in Ha. injection Ha as <- <-.
      rewrite H2 in Ha'. injection Ha' as <- <-.
      split; [exact Hb|]. split; [exact Hb'|exact H3].
Qed.

Lemma words_app_white v w :
  Forall (fun c => isWhite c = true) w -> words (v ++ w) = words v.
Proof.
  intros Hw. destruct (pieces_app_white v w Hw) as (p & ps & ps' & H1 & H2 & H3).
  unfold words. rewrite H1, H2.
  destruct p; [rewrite !filter_gap|rewrite !filter_word]; now rewrite H3.
Qed.

Lemma trimStart_white v :
  exists w, v = w ++ trimStart v /\ Forall (fun c => isWhite c = true) w.
Proof.
  induction v as [|c v (w & Hv & Hw)]; [now exists []|].
  cbn [trimStart]. destruct (isWhite c) eqn:Hc.
  - exists (c :: w). split; [cbn; congruence|now constructor].
  - now exists [].
Qed.

Lemma trimEnd_white u :
  exists w, u = trimEnd u ++ w /\ Forall (fun c => isWhite c = true) w.
Proof.
  unfold trimEnd. destruct (trimStart_white (rev u)) as (w & Hv & Hw).
  exists (rev w). split.
  - rewrite <- rev_app_distr, <- Hv. now rewrite rev_involutive.
  - apply Forall_forall. intros c Hc. rewrite Forall_forall in Hw.
    apply Hw. apply list_elem_of_In in Hc. apply list_elem_of_In.
    now apply in_rev.
Qed.

Lemma words_trimEnd u : words (trimEnd u) = words u.
Proof.
  destruct (trimEnd_white u) as (w & Hu & Hw).
  rewrite Hu at 2. symmetry. now apply words_app_white.
Qed.

Lemma words_normalize s : words (normalize s) = words s.
Proof.
  rewrite normalize_collapse, words_trimEnd. apply collapse_pieces.
Qed.

Lemma unwords_cons_char c p R : unwords ((c :: p) :: R) = c :: unwords (p :: R).
Proof. now destruct R. Qed.

Lemma words_char c t :
  isWhite c = false ->
  exists w R, words t = List.filter nonEmpty [w] ++ R
    /\ words (c :: t) = (c :: w) :: R.
Proof.
  intros Hc. destruct (pieces_char c t Hc) as (w & ws & Ha & Hb).
  exists w, (List.filter nonEmpty ws). unfold words. rewrite Ha, Hb.
  split; [|reflexivity]. now destruct w.
Qed.

(** A tidy string is its words joined by single spaces. *)
Lemma tidy_unwords u : tidy u -> unwords (words u) = u.
Proof.
  induction 1 as [|c Hc|c d t Hc Hd Ht IH|c d t Hc Hd Ht IH].
  - reflexivity.
  - unfold words. cbn [pieces]. rewrite Hc. reflexivity.
  - destruct (words_char d t Hd) as (w & R & _ & Hw).
    destruct (pieces_char d t Hd) as (w' & ws & Ha & Hb).
    unfold words in *. rewrite Hb in IH, Hw.
    destruct (pieces_char c (d :: t) Hc) as (w2 & ws2 & Ha2 & Hb2).
    rewrite Hb in Ha2. injection Ha2 as <- <-. rewrite Hb2.
    rewrite filter_word in *.
    rewrite unwords_cons_char. now rewrite IH.
  - destruct (pieces_char d t Hd) as (w' & ws & Ha & Hb).
    unfold words in *. rewrite Hb in IH.
    assert (Hp : pieces (c :: 32%N :: d :: t) = [c] :: pieces (d :: t)).
    { destruct (pieces_char c (32%N :: d :: t) Hc) as (w2 & ws2 & Ha2 & Hb2).
      rewrite pieces_cons_white in Ha2 by reflexivity.
      injection Ha2 as <- <-. exact Hb2. }
    rewrite Hp, Hb. rewrite !filter_word in *.
    cbn [unwords]. cbn [unwords] in IH. now rewrite IH.
Qed.

(** X6. [normalize] returns the words of the expression, in order, joined by
    single spaces: whitespace is all it changes, no word is split or merged,
    and nothing is left in front or behind. A second pass changes nothing. *)
Theorem normalize_words s :
  normalize s = unwords (words s)
  /\ words (normalize s) = words s
  /\ normalize (normalize s) = normalize s.
Proof.
  split; [|split].
  - rewrite <- (words_normalize s). symmetry. apply tidy_unwords, normalize_tidy.
  - apply words_normalize.
  - apply normalize_idempotent.
Qed.

End NormalizeWords.

(** ** Canonical backslashes *)

Section LatexFacts.
Import Js Regex Latex Reference.

Lemma backslashes_match i s :
  matchAt (regexp "\\\\") i s
  = match s with
    | c :: d :: t =>
        if (N.eqb c 92 && N.eqb d 92)%bool then Some (MState (S (S i)) t [])
        else None
    | _ => None
    end.
Proof.
  change (regexp "\\\\") with (Seq (Chr 92%N) (Seq (Chr 92%N) Eps)).
  unfold matchAt. cbn [m]. unfold step1. cbn [rest pos caps].
  destruct s as [|c [|d t]]; [reflexivity| |].
  - rewrite N.eqb_sym. now destruct (N.eqb c 92).
  - rewrite (N.eqb_sym 92 c), (N.eqb_sym 92 d).
    destruct (N.eqb c 92); [|reflexivity]. now destruct (N.eqb d 92).
Qed.

Lemma halve_pair c d t :
  halve (c :: d :: t)
  = if (N.eqb c 92 && N.eqb d 92)%bool then 92%N :: halve t
    else c :: halve (d :: t).
Proof. reflexivity. Qed.

Lemma replace_backslashes : forall fuel s i,
  length s < fuel ->
  replaceFrom fuel (regexp "\\\\") (lit "\") i s = halve s.
Proof.
  induction fuel as [|fuel IH]; intros s i Hf; [lia|].
  cbn [replaceFrom]. rewrite backslashes_match.
  destruct s as [|c [|d t]]; [reflexivity| |].
  - destruct fuel; reflexivity.
  - rewrite halve_pair. cbn [length] in *.
    destruct (N.eqb c 92 && N.eqb d 92)%bool.
    + cbn [pos rest]. destruct (Nat.eqb_spec (S (S i)) i) as [Habs|_]; [lia|].
      cbn. f_equal. apply IH. lia.
    + f_equal. apply IH. cbn [length]. lia.
Qed.

Lemma canonicalize_halve s : canonicalizeLatex s = halve s.
Proof. unfold canonicalizeLatex, replace. apply replace_backslashes. lia. Qed.

Lemma halve_escape s : halve (escape s) = s.
Proof.
  induction s as [|c t IH]; [reflexivity|]. cbn [escape].
  destruct (N.eqb_spec c 92) as [->|Hc].
  - cbn. now rewrite IH.
  - destruct (escape t) as [|d t'] eqn:He.
    + cbn in IH. now rewrite <- IH.
    + rewrite halve_pair.
      replace (N.eqb c 92) with false by (symmetry; now apply N.eqb_neq).
      cbn [andb]. now rewrite IH.
Qed.

Lemma halve_length s : length (halve s) <= length s.
Proof.
  assert (H : forall n s, length s < n -> length (halve s) <= length s).
  { induction n as [|n IH]; intros u Hu; [lia|].
    destruct u as [|c [|d t]]; [reflexivity|reflexivity|].
    rewrite halve_pair. cbn [length] in Hu.
    destruct (N.eqb c 92 && N.eqb d 92)%bool; cbn [length].
    - specialize (IH t ltac:(lia)). lia.
    - specialize (IH (d :: t) ltac:(cbn [length]; lia)). cbn [length] in IH. lia. }
  apply (H (S (length s))). lia.
Qed.

Lemma halve_shrinks pre post :
  length (halve (pre ++ 92%N :: 92%N :: post)) < length (pre ++ 92%N :: 92%N :: post).
Proof.
  induction pre as [|c pre IH].
  - cbn. pose proof (halve_length post). unfold jsstring, char in *. lia.
  - cbn [app]. destruct (pre ++ 92%N :: 92%N :: post) as [|d t] eqn:Ht.
    { now destruct pre. }
    rewrite halve_pair. destruct (N.eqb c 92 && N.eqb d 92)%bool; cbn [length] in *.
    + pose proof (halve_length t). unfold jsstring, char in *. lia.
    + unfold jsstring, char in *. lia.
Qed.

Lemma halve_fixed : forall s,
  (forall j, isPrefix (lit "\\") (drop j s) = false) -> halve s = s.
Proof.
  assert (H : forall n s, length s < n ->
    (forall j, isPrefix (lit "\\") (drop j s) = false) -> halve s = s).
  { induction n as [|n IH]; intros s Hn Hs; [lia|].
    destruct s as [|c [|d t]]; [reflexivity|reflexivity|].
    rewrite halve_pair. pose proof (Hs 0) as H0. rewrite drop_0 in H0.
    change (isPrefix (lit "\\") (c :: d :: t))
      with (N.eqb 92 c && (N.eqb 92 d && true))%bool in H0.
    rewrite andb_true_r in H0.
    rewrite (N.eqb_sym c), (N.eqb_sym d), H0. f_equal.
    apply IH; [cbn [length] in *; lia|]. intros j. exact (Hs (S j)). }
  intros s. apply (H (S (length s))). lia.
Qed.

(** X7. [canonicalizeLatex] undoes the doubling of backslashes: an
    expression in which every backslash is written twice comes back with
    each of them written once. *)
Theorem canonicalize_escape s : canonicalizeLatex (escape s) = s.
Proof. rewrite canonicalize_halve. apply halve_escape. Qed.

(** X8. [canonicalizeLatex] never makes an expression longer, and it leaves
    an expression as it is exactly when no two backslashes stand side by
    side in it. *)
Theorem canonicalize_fixed s :
  length (canonicalizeLatex s) <= length s
  /\ (canonicalizeLatex s = s <-> includes s (lit "\\") = false).
Proof.
  rewrite canonicalize_halve. split; [apply halve_length|]. split.
  - intros H. destruct (includes s (lit "\\")) eqn:Hi; [|reflexivity].
    unfold includes in Hi.
    destruct (search (lit "\\") s 0) as [k|] eqn:Hk; [|discriminate].
    apply search_occurs in Hk as (pre & post & Hs & _).
    pose proof (halve_shrinks pre post) as Hlt.
    assert (Hs' : s = pre ++ 92%N :: 92%N :: post) by exact Hs.
    apply (f_equal length) in H. rewrite Hs' in H.
    unfold jsstring, char in *. lia.
  - intros H. apply halve_fixed. now apply includes_false.
Qed.

End LatexFacts.

(** ** The session *)

Section SessionFacts.
Import Js Catalog Engine App Session.

Lemma wellFormed_advance st next : wellFormed st -> wellFormed (advance st next).
Proof.
  intros [Hin H0]. unfold wellFormed, advance; cbn [steps activeIndex].
  split.
  - rewrite length_app, length_take. cbn [length]. lia.
  - rewrite lookup_app_l by (rewrite length_take; lia).
    rewrite lookup_take_lt by lia. exact H0.
Qed.

Lemma onApplyRule_wellFormed rules st ruleId :
  wellFormed st ->
  exists st', onApplyRule rules st ruleId = Ok st' /\ wellFormed st'.
Proof.
  intros Hwf. unfold onApplyRule.
  destruct (List.find _ rules) as [rule|]; [|eauto].
  destruct Hwf as [Hin H0].
  destruct (lookup_lt_is_Some_2 _ _ Hin) as [active ->].
  destruct (applyRule active rule); eexists;
    (split; [reflexivity|apply wellFormed_advance; split; assumption]).
Qed.

Lemma handle_wellFormed st ev :
  wellFormed st -> offered st ev ->
  exists st', handle st ev = Ok st' /\ wellFormed st'.
Proof.
  intros Hwf Hev. destruct ev as [value|ruleId| | |idx]; cbn [handle].
  - eexists. split; [reflexivity|]. now apply wellFormed_advance.
  - now apply onApplyRule_wellFormed.
  - eexists. split; [reflexivity|]. split; [cbn; lia|reflexivity].
  - eexists. split; [reflexivity|]. destruct Hwf as [Hin H0].
    split; [cbn; lia|exact H0].
  - eexists. split; [reflexivity|]. destruct Hwf as [Hin H0].
    split; [exact Hev|exact H0].
Qed.

(** X9. In every state a session can reach, the history is not empty and
    begins with the start step, the cursor points at one of its steps, and
    no handler throws on what the page offers. *)
Theorem session_invariant st :
  reachable st ->
  steps st <> []
  /\ steps st !! 0 = Some START
  /\ (exists active, steps st !! activeIndex st = Some active)
  /\ (forall ev, offered st ev -> exists st', handle st ev = Ok st').
Proof.
  intros Hreach.
  assert (Hwf : wellFormed st).
  { induction Hreach as [|st ev st' _ IH Hev Hstep].
    - split; [cbn; lia|reflexivity].
    - destruct (handle_wellFormed st ev IH Hev) as (st'' & Heq & Hwf).
      congruence. }
  destruct Hwf as [Hin H0].
  split; [intros Hnil; rewrite Hnil in H0; discriminate|].
  split; [exact H0|].
  split; [now apply lookup_lt_is_Some_2|].
  intros ev Hev.
  destruct (handle_wellFormed st ev (conj Hin H0) Hev) as (st' & Heq & _). eauto.
Qed.

Lemma session_invariant_witness :
  let st := back (Renderer.onChange initial (lit "x")) in
  reachable st
  /\ steps st !! 0 = Some START
  /\ activeIndex st = 0
  /\ length (steps st) = 2.
Proof.
  intros st.
  assert (H : reachable st).
  { apply (reach_event (Renderer.onChange initial (lit "x")) Back);
      [|exact I|reflexivity].
    apply (reach_event initial (Edit (lit "x"))); [constructor|exact I|reflexivity]. }
  split; [exact H|].
  split; [exact (proj1 (proj2 (session_invariant st H)))|].
  split; reflexivity.
Defined.

(** X10. Adding a step and pressing Back returns to the step that was active:
    the cursor is where it was, the steps up to it are the ones that were
    there, and the step added is the only one after it, so the steps that
    came after the cursor before are gone. *)
Theorem advance_then_back st next :
  activeIndex st < length (steps st) ->
  activeIndex (back (advance st next)) = activeIndex st
  /\ steps (back (advance st next))
     = take (S (activeIndex st)) (steps st) ++ [next]
  /\ (forall i, i <= activeIndex st ->
        steps (back (advance st next)) !! i = steps st !! i)
  /\ length (steps (back (advance st next))) = activeIndex st + 2.
Proof.
  intros Hin. unfold back, advance; cbn [steps activeIndex].
  replace (activeIndex st + 1) with (S (activeIndex st)) by lia.
  split; [lia|]. split; [reflexivity|]. split.
  - intros i Hi. rewrite lookup_app_l by (rewrite length_take; lia).
    apply lookup_take_lt. lia.
  - rewrite length_app, length_take. cbn [length]. lia.
Qed.

Lemma advance_then_back_witness :
  activeIndex history5 < length (steps history5)
  /\ activeIndex (back (advance history5 START)) = 2
  /\ length (steps (back (advance history5 START))) = 4.
Proof.
  assert (H : activeIndex history5 < length (steps history5)) by (cbn; lia).
  split; [exact H|].
  destruct (advance_then_back history5 START H) as (Hc & _ & _ & Hl).
  split; [exact Hc|exact Hl].
Defined.

End SessionFacts.

(** ** More on binary64 and on the matrix kernel *)

Section FloatMore.
Local Open Scope Z_scope.

Lemma mul_nan c : (c * nan)%float = nan.
Proof.
  apply Prim2SF_inj. rewrite mul_spec.
  change (Prim2SF nan) with S754_nan.
  destruct (Prim2SF c); reflexivity.
Qed.

Lemma SFmul_one_finite s m e :
  valid_binary (S754_finite s m e) = true ->
  SF64mul (S754_finite false 4503599627370496 (-52)) (S754_finite s m e)
  = S754_finite s m e.
Proof.
  unfold valid_binary, bounded, canonical_mantissa, fexp, emin, FloatOps.prec, FloatOps.emax.
  intros H. apply andb_prop in H as [Hc Hb].
  apply Z.eqb_eq in Hc. apply Z.leb_le in Hb.
  unfold SF64mul, SFmul. cbn [xorb].
  unfold binary_round_aux, shr_fexp, fexp, emin, FloatOps.prec, FloatOps.emax.
  set (M := (4503599627370496 * m)%positive).
  assert (HM : M = Pos.iter xO m 52) by reflexivity.
  assert (Hd : Zdigits2 (Z.pos M) = Z.pos (digits2_pos m) + 52).
  { rewrite HM. cbn [Pos.iter Zdigits2 digits2_pos]. lia. }
  rewrite Hd.
  replace ((Z.pos (digits2_pos m) + 52 + (-52 + e) - 53) `max` (3 - 1024 - 53) - (-52 + e))
    with 52 by lia.
  unfold shr, shr_record_of_loc. rewrite HM.
  cbn [SpecFloat.iter_pos Pos.iter shr_1 shr_m shr_r shr_s orb loc_of_shr_record round_nearest_even].
  change (Zdigits2 (Z.pos m)) with (Z.pos (digits2_pos m)).
  replace ((Z.pos (digits2_pos m) + (-52 + e + 52) - 53) `max` (3 - 1024 - 53) - (-52 + e + 52))
    with 0 by lia.
  cbn [shr_m]. replace (-52 + e + 52) with e by lia.
  apply Z.leb_le in Hb. rewrite Hb. reflexivity.
Qed.

Lemma mul_one x : (1 * x)%float = x.
Proof.
  apply Prim2SF_inj. rewrite mul_spec.
  change (Prim2SF 1) with (S754_finite false 4503599627370496 (-52)).
  pose proof (Prim2SF_valid x) as Hv.
  destruct (Prim2SF x) as [s|s| |s m e]; try reflexivity.
  apply SFmul_one_finite. exact Hv.
Qed.

End FloatMore.

Section KernelMore.
Import Js Matrix.

Implicit Types (A B P : Mat) (b : Vec).

(** *** Scaling *)

Lemma entry_matScale A c i j :
  entry (matScale A c) i j = (c * entry A i j)%float.
Proof.
  unfold entry, num, matScale. rewrite !nth_lookup, list_lookup_fmap.
  destruct (A !! i) as [row|]; cbn [fmap option_fmap option_map default].
  - unfold id. change (map (fun v => (c * v)%float) row)
      with ((fun v => (c * v)%float) <$> row).
    rewrite list_lookup_fmap.
    destruct (row !! j); cbn; [reflexivity|]. symmetry. apply mul_nan.
  - cbn. symmetry. apply mul_nan.
Qed.

Lemma row_matScale A c i :
  length (nth i (matScale A c) []) = length (nth i A []).
Proof.
  unfold matScale. rewrite !nth_lookup, list_lookup_fmap.
  destruct (A !! i) as [row|]; cbn; [apply length_map|reflexivity].
Qed.

(** X11. [matScale] keeps the shape of the matrix, and the entry at every
    position is [c] times the one of the argument; a position outside the
    matrix reads [NaN] before and after. Scaling by one returns the
    matrix. *)
Theorem matScale_entries A c :
  length (matScale A c) = length A
  /\ (forall i, length (nth i (matScale A c) []) = length (nth i A []))
  /\ (forall i j, entry (matScale A c) i j = (c * entry A i j)%float)
  /\ matScale A 1 = A.
Proof.
  split; [apply length_map|]. split; [intros; apply row_matScale|].
  split; [intros; apply entry_matScale|].
  unfold matScale. rewrite <- (List.map_id A) at 2.
  apply List.map_ext. intros row. rewrite <- (List.map_id row) at 2.
  apply List.map_ext. intros v. apply mul_one.
Qed.

(** *** The system matrix of the panel *)

Lemma lookup2_identity n i j :
  i < n -> j < n ->
  lookup2 (identity n) i j = Some (if Nat.eqb i j then 1%float else 0%float).
Proof.
  intros Hi Hj. unfold lookup2, identity.
  rewrite list_lookup_fmap, lookup_seq_lt by exact Hi. cbn.
  rewrite list_lookup_fmap, lookup_seq_lt by exact Hj. reflexivity.
Qed.

Lemma system_matrix P g :
  P <> [] -> rectangular P (length P) ->
  matSub (identity (length P)) (matScale P g)
  = Ok (imap (fun i row =>
          imap (fun j v => (v - entry (matScale P g) i j)%float) row)
        (identity (length P))).
Proof.
  intros Hne Hrect. set (n := length P).
  assert (Hn : 0 < n) by (destruct P; [congruence|cbn; lia]).
  assert (HlS : length (matScale P g) = n) by apply length_map.
  unfold matSub. rewrite length_identity, HlS.
  rewrite Nat.eqb_refl. cbn [negb].
  destruct (identity n) as [|a0 I'] eqn:HI.
  { apply (f_equal length) in HI. rewrite length_identity in HI. cbn in HI. lia. }
  destruct (matScale P g) as [|b0 S'] eqn:HS.
  { cbn in HlS. lia. }
  assert (Ha0 : length a0 = n).
  { pose proof (identity_row n 0 Hn) as H0. rewrite HI in H0. cbn in H0.
    rewrite H0, length_map, length_seq. reflexivity. }
  assert (Hb0 : length b0 = n).
  { pose proof (row_matScale P g 0) as H0. rewrite HS in H0. cbn [nth] in H0.
    rewrite H0. destruct P as [|p0 P']; [congruence|].
    cbn [nth]. inversion Hrect; subst. assumption. }
  rewrite Ha0, Hb0, Nat.eqb_refl. cbn [negb]. reflexivity.
Qed.

(** X12. For a square matrix [P] with at least one row, the subtraction
    [identity - g * P] the panel solves with succeeds: the result is square
    of the same size, with [1 - g * P[i][i]] on the diagonal and
    [0 - g * P[i][j]] elsewhere. *)
Theorem bellman_system P g :
  P <> [] -> rectangular P (length P) ->
  exists A,
    matSub (identity (length P)) (matScale P g) = Ok A
    /\ length A = length P
    /\ rectangular A (length P)
    /\ forall i j, i < length P -> j < length P ->
         entry A i j
         = ((if Nat.eqb i j then 1 else 0) - g * entry P i j)%float.
Proof.
  intros Hne Hrect. rewrite (system_matrix P g Hne Hrect). set (n := length P).
  eexists. split; [reflexivity|].
  split; [now rewrite length_imap, length_identity|]. split.
  - unfold rectangular. apply Forall_forall. intros row Hrow.
    apply list_elem_of_lookup in Hrow as [i Hrow].
    rewrite list_lookup_imap in Hrow.
    destruct (identity n !! i) as [r|] eqn:Hi; [|discriminate].
    injection Hrow as <-. rewrite length_imap.
    assert (Hin : i < n).
    { apply lookup_lt_Some in Hi. now rewrite length_identity in Hi. }
    pose proof (identity_row n i Hin) as Hr.
    rewrite (nth_lookup_Some _ _ _ _ Hi) in Hr.
    rewrite Hr, length_map, length_seq. reflexivity.
  - intros i j Hi Hj. apply entry_lookup2.
    rewrite lookup2_imap2, lookup2_identity by assumption. cbn.
    now rewrite entry_matScale.
Qed.

Lemma bellman_system_witness :
  let P := [[0.5; 0.5]; [0.25; 0.75]]%float in
  P <> [] /\ rectangular P (length P)
  /\ matSub (identity (length P)) (matScale P 0.5)
     = Ok [[0.75; -0.25]; [-0.125; 0.625]]%float.
Proof.
  intros P.
  assert (H1 : P <> []) by discriminate.
  assert (H2 : rectangular P (length P)) by (repeat constructor).
  split; [exact H1|]. split; [exact H2|].
  destruct (bellman_system P 0.5 H1 H2) as (A & HA & _).
  rewrite HA. vm_compute in HA. symmetry. exact HA.
Defined.

(** *** What a call of the solver can end with *)

Lemma length_backRow n A b x r :
  r < length x -> length (backRow n A b x r) = length x.
Proof. intros H. unfold backRow. now apply length_store. Qed.

Lemma length_backSubstitute n A b : length (backSubstitute n A b) = n.
Proof.
  unfold backSubstitute.
  assert (H : forall l x, Forall (fun r => r < n) l -> length x = n ->
            length (fold_left (backRow n A b) l x) = n).
  { induction l as [|r l IH]; intros x Hl Hx; [exact Hx|].
    cbn [fold_left]. inversion Hl as [|? ? Hr Hl']. apply IH; [assumption|].
    rewrite length_backRow; [exact Hx|lia]. }
  apply H; [|apply length_replicate].
  apply Forall_forall. intros r Hr.
  apply list_elem_of_In, in_rev, in_seq in Hr. lia.
Qed.

Lemma pivotStep_throws n st col e :
  pivotStep n st col = Throw e -> e = SingularMatrix.
Proof.
  unfold pivotStep. destruct st as [A b].
  destruct (_ <? _)%float; [|discriminate]. congruence.
Qed.

Lemma eliminate_throws n cols : forall st e,
  eliminate n cols st = Throw e -> e = SingularMatrix.
Proof.
  induction cols as [|col cols IH]; intros st e H; [discriminate|].
  rewrite eliminate_cons in H.
  destruct (pivotStep n st col) as [st'|e'] eqn:Hp; cbn [bind] in H.
  - now apply (IH st').
  - injection H as <-. now apply (pivotStep_throws n st col).
Qed.

(** X13. A call of [solveLinearSystem] ends in one of three ways: with the
    length error, exactly when the vector does not have as many entries as
    the matrix has rows (and then whatever the matrix is); with the
    singular-matrix error; or with a vector that has one entry per row. *)
Theorem solve_outcomes A b :
  match solveLinearSystem A b with
  | Ok x => length b = length A /\ length x = length A
  | Throw e =>
      (length b <> length A /\ e = DimensionMismatch)
      \/ (length b = length A /\ e = SingularMatrix)
  end.
Proof.
  unfold solveLinearSystem. rewrite cloneMat_id.
  destruct (Nat.eqb_spec (length b) (length A)) as [Hl|Hl]; cbn [negb].
  - destruct (eliminate _ _ _) as [st|e] eqn:He; cbn [bind].
    + split; [exact Hl|apply length_backSubstitute].
    + right. split; [exact Hl|]. now apply eliminate_throws in He.
  - left. split; [exact Hl|reflexivity].
Qed.

(** *** Pivot search *)

(** X14. The pivot search of a column returns a row from the diagonal down,
    and no row from the diagonal down has an entry of larger absolute value
    in that column. *)
Theorem choosePivot_largest A n col :
  col < n ->
  col <= choosePivot A n col < n
  /\ forall r, col <= r < n ->
       (abs (entry A (choosePivot A n col) col) <? abs (entry A r col))%float
       = false.
Proof.
  intros Hcol. split; [now apply choosePivot_range|].
  intros r Hr. now apply choosePivot_maximal.
Qed.

Lemma choosePivot_largest_witness :
  let A := [[1; 2]; [-3; 4]]%float in
  0 < 2
  /\ choosePivot A 2 0 = 1
  /\ (abs (entry A (choosePivot A 2 0) 0) <? abs (entry A 0 0))%float = false.
Proof.
  intros A. assert (H : 0 < 2) by lia. split; [exact H|].
  split; [reflexivity|].
  apply (proj2 (choosePivot_largest A 2 0 H)). lia.
Defined.

(** *** One equation *)

(** X15. On one equation [a * x = y] the solver returns [y / a] unless the
    absolute value of [a] is below the tolerance. A coefficient that is not
    a number is not below it: the call then returns [NaN] and reports no
    singular matrix. *)
Theorem solve_scalar (a y : float) :
  solveLinearSystem [[a]] [y]
  = (if (abs a <? tolerance)%float then Throw SingularMatrix
     else Ok [(y / a)%float])
  /\ solveLinearSystem [[nan]] [y] = Ok [nan].
Proof.
  assert (H : forall a, solveLinearSystem [[a]] [y]
    = if (abs a <? tolerance)%float then Throw SingularMatrix
      else Ok [(y / a)%float]).
  { intros a'. unfold solveLinearSystem. cbn [cloneMat List.map length Nat.eqb negb seq].
    unfold eliminate. cbn [fold_left bind pivotStep].
    change (choosePivot [[a']] 1 0) with 0.
    change (entry [[a']] 0 0) with a'.
    destruct (abs a' <? tolerance)%float; reflexivity. }
  split; [apply H|]. rewrite H.
  replace (abs nan <? tolerance)%float with false by (vm_compute; reflexivity).
  f_equal. f_equal. apply Prim2SF_inj. rewrite div_spec.
  change (Prim2SF nan) with S754_nan. destruct (Prim2SF y); reflexivity.
Qed.

End KernelMore.

(** ** The linear-algebra panel *)

Section PanelFacts.
Import Js Matrix Panel Reference.

Local Abbreviation count c s := (count_occ N.eq_dec s c).

(** *** [split] at a character *)

Lemma fields_not_nil c s : fields c s <> [].
Proof.
  destruct s as [|x t]; [discriminate|]. cbn [fields].
  destruct (N.eqb c x); [discriminate|]. now destruct (fields c t).
Qed.

Lemma fields_char c x t :
  N.eqb c x = false ->
  exists w ws, fields c t = w :: ws /\ fields c (x :: t) = (x :: w) :: ws.
Proof.
  intros H. cbn [fields]. rewrite H.
  destruct (fields c t) as [|w ws] eqn:Hf; [now apply fields_not_nil in Hf|eauto].
Qed.

Lemma splitFrom_fields c : forall fuel s cur,
  length s < fuel ->
  exists w ws,
    fields c s = w :: ws /\ splitFrom fuel [c] cur s = (rev cur ++ w) :: ws.
Proof.
  induction fuel as [|fuel IH]; intros s cur Hf; [lia|].
  destruct s as [|x t].
  - exists [], []. split; [reflexivity|]. cbn. now rewrite app_nil_r.
  - cbn [splitFrom isPrefix length Nat.eqb andb negb drop].
    rewrite !andb_true_r, drop_0. cbn [length] in Hf.
    destruct (N.eqb c x) eqn:Hcx.
    + destruct (IH t [] ltac:(lia)) as (w & ws & Hw & Hs).
      exists [], (w :: ws). cbn [fields]. rewrite Hcx, Hw, Hs.
      cbn. now rewrite app_nil_r.
    + destruct (IH t (x :: cur) ltac:(lia)) as (w & ws & Hw & Hs).
      destruct (fields_char c x t Hcx) as (w' & ws' & Hw' & Hx).
      rewrite Hw in Hw'. injection Hw' as <- <-.
      exists (x :: w), ws. split; [exact Hx|].
      rewrite Hs. cbn [rev]. now rewrite <- app_assoc.
Qed.

Lemma split_fields s c : split s [c] = fields c s.
Proof.
  unfold split.
  destruct (splitFrom_fields c (2 * length s + 1) s []) as (w & ws & Hw & Hs);
    [lia|].
  destruct s; rewrite Hs, Hw; reflexivity.
Qed.

Lemma length_fields c s : length (fields c s) = S (count c s).
Proof.
  induction s as [|x t IH]; [reflexivity|].
  cbn [count_occ]. destruct (N.eq_dec x c) as [->|Hne].
  - cbn [fields]. rewrite N.eqb_refl. cbn [length]. now rewrite IH.
  - assert (Hcx : N.eqb c x = false) by (apply N.eqb_neq; congruence).
    destruct (fields_char c x t Hcx) as (w & ws & Hw & Hx).
    unfold jsstring, char in *. rewrite Hx. rewrite Hw in IH. exact IH.
Qed.

Lemma length_split s c : length (split s [c]) = S (count c s).
Proof. rewrite split_fields. apply length_fields. Qed.

(** *** [parseVector] *)

Section Conversion.
Variable Number : jsstring -> float.

Lemma parseVector_cases text n :
  parseVector Number text n
  = if Nat.eqb (S (count 44%N text)) n
    then Ok (List.map Number (split text (lit ",")))
    else Throw (Error (lit "R length mismatch")).
Proof.
  unfold parseVector. rewrite length_map.
  change (lit ",") with [44%N]. rewrite length_split.
  now destruct (Nat.eqb_spec (S (count 44%N text)) n).
Qed.

Lemma existsb_Forall {T} (f : T -> bool) l :
  existsb f l = false <-> Forall (fun x => f x = false) l.
Proof.
  induction l as [|x l IH]; cbn; [split; [constructor|reflexivity]|].
  rewrite orb_false_iff, IH. split.
  - intros [H1 H2]. now constructor.
  - intros H. inversion H; subst. auto.
Qed.

Lemma existsb_Exists_true {T} (f : T -> bool) l :
  existsb f l = true <-> Exists (fun x => f x = true) l.
Proof.
  induction l as [|x l IH]; cbn; [split; [discriminate|intros H; inversion H]|].
  rewrite orb_true_iff, IH. split.
  - intros [H|H]; [now left|now right].
  - intros H. inversion H; subst; auto.
Qed.

Lemma parseMatrix_cases text :
  let lines := split (trim text) [10%N] in
  let n := S (count 10%N (trim text)) in
  let rows := List.map (fun r => List.map Number (split r (lit ","))) lines in
  length lines = n
  /\ match parseMatrix Number text with
     | Ok P =>
         P = rows /\ length P = n /\ rectangular P n
         /\ Forall (fun line => S (count 44%N line) = n) lines
     | Throw e =>
         e = Error (lit "P must be square")
         /\ Exists (fun line => S (count 44%N line) <> n) lines
     end.
Proof.
  intros lines n rows.
  assert (Hl : length lines = n) by apply length_split.
  split; [exact Hl|].
  unfold parseMatrix. fold lines. fold rows.
  assert (Hr : length rows = n) by (unfold rows; now rewrite length_map).
  rewrite Hr.
  destruct (existsb _ rows) eqn:Hex.
  - split; [reflexivity|].
    apply existsb_Exists_true in Hex. unfold rows in Hex.
    apply Exists_exists in Hex as (row & Hin & Hrow).
    apply list_elem_of_In, in_map_iff in Hin as (line & <- & Hline).
    apply Exists_exists. exists line. split; [now apply list_elem_of_In|].
    rewrite length_map in Hrow. change (lit ",") with [44%N] in Hrow.
    rewrite length_split in Hrow.
    apply negb_true_iff, Nat.eqb_neq in Hrow. exact Hrow.
  - apply existsb_Forall in Hex.
    assert (Hall : Forall (fun line => S (count 44%N line) = n) lines).
    { apply Forall_forall. intros line Hline.
      rewrite Forall_forall in Hex.
      specialize (Hex (List.map Number (split line (lit ",")))).
      rewrite length_map in Hex. change (lit ",") with [44%N] in Hex.
      rewrite length_split in Hex.
      apply Nat.eqb_eq, negb_false_iff. apply Hex.
      apply list_elem_of_In, in_map_iff. exists line.
      split; [reflexivity|now apply list_elem_of_In]. }
    split; [reflexivity|]. split; [exact Hr|]. split; [|exact Hall].
    unfold rectangular, rows. apply Forall_forall. intros row Hin.
    apply list_elem_of_In, in_map_iff in Hin as (line & <- & Hline).
    rewrite length_map. change (lit ",") with [44%N]. rewrite length_split.
    rewrite Forall_forall in Hall. apply Hall. now apply list_elem_of_In.
Qed.

Lemma trim_white text :
  Forall (fun c => isWhite c = true) text -> trim text = [].
Proof.
  intros H. unfold trim.
  assert (Hs : trimStart text = []).
  { induction H as [|c t Hc _ IH]; [reflexivity|]. cbn. now rewrite Hc. }
  now rewrite Hs.
Qed.

(** X16. [parseMatrix] either returns a square matrix with at least one row,
    one row per line of the trimmed text and one entry per field between
    commas, converted by [Number]; or it fails with the error of the panel,
    and then some line does not hold as many fields as there are lines. *)
Theorem parseMatrix_outcomes text :
  match parseMatrix Number text with
  | Ok P =>
      P <> []
      /\ rectangular P (length P)
      /\ length P = S (count 10%N (trim text))
      /\ P = List.map (fun r => List.map Number (split r (lit ",")))
               (split (trim text) [10%N])
  | Throw e =>
      e = Error (lit "P must be square")
      /\ Exists (fun line => S (count 44%N line) <> S (count 10%N (trim text)))
           (split (trim text) [10%N])
  end.
Proof.
  destruct (parseMatrix_cases text) as [Hl H].
  destruct (parseMatrix Number text) as [P|e]; [|exact H].
  destruct H as (HP & Hlen & Hrect & _).
  split; [intros ->; discriminate Hlen|].
  split; [now rewrite Hlen|]. split; [exact Hlen|exact HP].
Qed.

(** X17. A text of whitespace only is not refused by [parseMatrix]: it is
    read as one line with one empty field, and the result is the matrix of
    one row and one column that holds [Number("")]. *)
Theorem parseMatrix_blank text :
  Forall (fun c => isWhite c = true) text ->
  parseMatrix Number text = Ok [[Number []]].
Proof.
  intros H. unfold parseMatrix. rewrite (trim_white text H). reflexivity.
Qed.

(** X18. [parseVector] returns the fields of the text between commas,
    converted by [Number], when there are [n] of them, and fails with the
    error of the panel otherwise; a text has at least one field, so no text
    is a vector of length 0. *)
Theorem parseVector_outcomes text n :
  match parseVector Number text n with
  | Ok v =>
      length v = n /\ n = S (count 44%N text)
      /\ v = List.map Number (split text (lit ","))
  | Throw e =>
      e = Error (lit "R length mismatch") /\ n <> S (count 44%N text)
  end
  /\ parseVector Number text 0 = Throw (Error (lit "R length mismatch")).
Proof.
  rewrite !parseVector_cases. split; [|reflexivity].
  destruct (Nat.eqb_spec (S (count 44%N text)) n) as [Hn|Hn].
  - split; [|split; [now symmetry|reflexivity]].
    rewrite length_map. change (lit ",") with [44%N].
    now rewrite length_split.
  - split; [reflexivity|]. now intros ->.
Qed.

(** X19. What the panel can show: a solution with one value per line of the
    matrix text, or one of three messages, for a matrix text that is not
    square, a reward text of another length, or a singular system. The
    shape error of [matSub], the length error of [solveLinearSystem] and
    type errors never reach the user. *)
Theorem solution_outcomes gamma Ptext Rtext :
  match solution Number gamma Ptext Rtext with
  | Solved V =>
      exists P R A,
        parseMatrix Number Ptext = Ok P
        /\ parseVector Number Rtext (length P) = Ok R
        /\ matSub (identity (length P)) (matScale P (Number gamma)) = Ok A
        /\ solveLinearSystem A R = Ok V
        /\ length V = length P
        /\ length P = S (count 10%N (trim Ptext))
  | Failed error =>
      error = lit "Error: P must be square"
      \/ error = lit "Error: R length mismatch"
      \/ error = lit "Error: Matrix is singular or ill-conditioned"
  end.
Proof.
  unfold solution.
  destruct (parseMatrix_cases Ptext) as [_ HP].
  destruct (parseMatrix Number Ptext) as [P|e]; cbn [bind].
  2:{ destruct HP as [-> _]. left. reflexivity. }
  destruct HP as (_ & Hlen & Hrect & _).
  assert (Hne : P <> []) by (intros ->; discriminate Hlen).
  rewrite <- Hlen in Hrect.
  rewrite parseVector_cases.
  destruct (Nat.eqb_spec (S (count 44%N Rtext)) (length P)) as [Hn|Hn];
    cbn [bind]; [|right; left; reflexivity].
  rewrite (system_matrix P (Number gamma) Hne Hrect). cbn [bind].
  set (A := imap _ (identity (length P))).
  set (R := List.map Number (split Rtext (lit ","))).
  assert (HA : length A = length P)
    by (unfold A; now rewrite length_imap, length_identity).
  assert (HR : length R = length P).
  { unfold R. rewrite length_map. change (lit ",") with [44%N].
    now rewrite length_split. }
  destruct (solveLinearSystem A R) as [V|e] eqn:Hsolve.
  - exists P, R, A.
    assert (HV : length V = length P).
    { unfold solveLinearSystem in Hsolve. rewrite cloneMat_id, HR, HA in Hsolve.
      rewrite Nat.eqb_refl in Hsolve. cbn [negb] in Hsolve.
      destruct (eliminate _ _ _) as [st|]; [|discriminate].
      injection Hsolve as <-. apply length_backSubstitute. }
    unfold R. rewrite parseVector_cases.
    destruct (Nat.eqb_spec (S (count 44%N Rtext)) (length P)); [|contradiction].
    unfold A. rewrite <- (system_matrix P (Number gamma) Hne Hrect).
    repeat split; try reflexivity; assumption.
  - right. right.
    unfold solveLinearSystem in Hsolve. rewrite cloneMat_id, HR, HA in Hsolve.
    rewrite Nat.eqb_refl in Hsolve. cbn [negb] in Hsolve.
    destruct (eliminate _ _ _) as [st|e'] eqn:He; [discriminate|].
    injection Hsolve as <-. apply eliminate_throws in He. now subst e'.
Qed.

End Conversion.

Lemma parseMatrix_blank_witness :
  Forall (fun c => isWhite c = true) (lit "  ")
  /\ parseMatrix (fun _ => 0%float) (lit "  ") = Ok [[0%float]].
Proof.
  assert (H : Forall (fun c => isWhite c = true) (lit "  "))
    by (repeat constructor).
  split; [exact H|]. exact (parseMatrix_blank (fun _ => 0%float) _ H).
Defined.

End PanelFacts.

(** ** Rules that rewrite *)

Section SingleOccurrence.
Import Js Regex Catalog.

(** A pattern that begins with the character [c] matches at no position
    that holds another character, nor at the end. *)
Lemma lits_other_head c cs r i s :
  match s with x :: _ => N.eqb c x = false | [] => True end ->
  matchAt (lits (c :: cs) r) i s = None.
Proof.
  intros H. unfold matchAt. rewrite m_lits. cbn [rest isPrefix].
  destruct s as [|x t]; [reflexivity|]. now rewrite H.
Qed.

Lemma replaceFrom_step fuel r rep i s :
  replaceFrom (S fuel) r rep i s
  = match matchAt r i s with
    | Some st =>
        if Nat.eqb (pos st) i then
          match s with
          | [] => rep
          | c :: t => rep ++ c :: replaceFrom fuel r rep (S i) t
          end
        else rep ++ replaceFrom fuel r rep (pos st) (rest st)
    | None =>
        match s with
        | [] => []
        | c :: t => c :: replaceFrom fuel r rep (S i) t
        end
    end.
Proof. reflexivity. Qed.

(** Where the head character of the pattern does not occur, the replacement
    copies the subject. *)
Lemma replaceFrom_copy c cs r rep : forall A fuel i t,
  c ∉ A ->
  replaceFrom (length A + fuel) (lits (c :: cs) r) rep i (A ++ t)
  = A ++ replaceFrom fuel (lits (c :: cs) r) rep (i + length A) t.
Proof.
  induction A as [|x A IH]; intros fuel i t HA.
  - cbn. now rewrite Nat.add_0_r.
  - apply not_elem_of_cons in HA as [Hx HA].
    cbn [length Nat.add app]. rewrite replaceFrom_step.
    rewrite lits_other_head by (apply N.eqb_neq; congruence).
    f_equal. rewrite IH by exact HA. f_equal. f_equal. lia.
Qed.

Lemma replaceFrom_rest c cs r rep B fuel i :
  c ∉ B -> length B <= fuel ->
  replaceFrom fuel (lits (c :: cs) r) rep i B = B.
Proof.
  intros HB Hf. set (k := fuel - length B).
  replace fuel with (length B + k) by lia. clearbody k.
  rewrite <- (app_nil_r B) at 2. rewrite replaceFrom_copy by exact HB.
  rewrite <- (app_nil_r B) at 3. f_equal.
  destruct k; [reflexivity|]. rewrite replaceFrom_step.
  now rewrite lits_other_head.
Qed.

(** One occurrence of the pattern, between two texts without its head
    character, is replaced, and nothing else changes. *)
Lemma replace_one p c cs r rep A w B caps :
  p = lits (c :: cs) r ->
  c ∉ A -> c ∉ B -> w <> [] ->
  (forall i, matchAt p i (w ++ B) = Some (MState (i + length w) B caps)) ->
  replace (A ++ w ++ B) p rep = A ++ rep ++ B.
Proof.
  intros -> HA HB Hw Hm. unfold replace. rewrite !length_app.
  replace (S (length A + (length w + length B)))
    with (length A + S (length w + length B)) by lia.
  rewrite replaceFrom_copy by exact HA. f_equal.
  rewrite replaceFrom_step, Hm. cbn [pos rest].
  assert (Hlen : 0 < length w) by (destruct w; [congruence|cbn; lia]).
  destruct (Nat.eqb_spec (0 + length A + length w) (0 + length A)) as [Habs|_];
    [lia|].
  f_equal. apply replaceFrom_rest; [exact HB|lia].
Qed.

(** The subject is copied when the one place that holds the head character
    of the pattern is no match. *)
Lemma replace_none p c cs r rep A x t :
  p = lits (c :: cs) r ->
  c ∉ A -> c ∉ t ->
  (forall i, matchAt p i (x :: t) = None) ->
  replace (A ++ x :: t) p rep = A ++ x :: t.
Proof.
  intros -> HA Ht Hm. unfold replace. rewrite length_app. cbn [length].
  replace (S (length A + S (length t)))
    with (length A + S (S (length t))) by lia.
  rewrite replaceFrom_copy by exact HA. f_equal.
  rewrite replaceFrom_step, Hm. f_equal.
  apply replaceFrom_rest; [exact Ht|lia].
Qed.

Lemma exec_hit r i s st : matchAt r i s = Some st -> exec r i s = Some (i, st).
Proof. intros H. destruct s; cbn [exec]; now rewrite H. Qed.

Lemma exec_miss r i x t :
  matchAt r i (x :: t) = None -> exec r i (x :: t) = exec r (S i) t.
Proof. intros H. cbn [exec]. now rewrite H. Qed.

Lemma defValue_pats_shape :
  exists r1 r2,
    regexp "v_\s*\\pi\s*\(\s*s\s*\)" = lits [118%N] r1
    /\ regexp "v\s*\(\s*s\s*\)" = lits [118%N] r2.
Proof. do 2 eexists. split; vm_compute; reflexivity. Qed.

(** X20. [def-value] rewrites an occurrence of [v(s)]: in an expression that
    holds the letter [v] nowhere else, the occurrence becomes the
    expectation of the return (written with doubled backslashes), the text
    around it stays, and the result is normalized. *)
Theorem defValue_rewrites A B :
  118%N ∉ A -> 118%N ∉ B ->
  RewriteRule.appliesTo defValue (A ++ lit "v(s)" ++ B) = Ok true
  /\ RewriteRule.transform defValue (A ++ lit "v(s)" ++ B)
     = Ok (normalize (A ++ lit "\\mathbb{E}[G_t\\mid S_t=s]" ++ B)).
Proof.
  intros HA HB.
  assert (HB' : 118%N ∉ lit "(s)" ++ B).
  { rewrite elem_of_app. intros [H|H]; [|contradiction].
    vm_compute in H. repeat (apply elem_of_cons in H as [H|H]; [discriminate|]).
    now apply not_elem_of_nil in H. }
  assert (Hm2 : forall i,
    matchAt (regexp "v\s*\(\s*s\s*\)") i (lit "v(s)" ++ B)
    = Some (MState (i + 4) B [])).
  { intros i. unfold matchAt.
    change (regexp "v\s*\(\s*s\s*\)") with
      (Seq (Chr 118%N) (Seq (Star Space) (Seq (Chr 40%N) (Seq (Star Space)
        (Seq (Chr 115%N) (Seq (Star Space) (Seq (Chr 41%N) Eps))))))).
    cbn. f_equal. f_equal. lia. }
  split.
  - cbn [RewriteRule.appliesTo defValue]. f_equal.
    apply orb_true_iff. left. unfold test.
    assert (H : forall A' i, 118%N ∉ A' ->
      exists p, exec (regexp "v\s*\(\s*s\s*\)") i (A' ++ lit "v(s)" ++ B) = Some p).
    { destruct defValue_pats_shape as (r1 & r2 & _ & Hr2).
      induction A' as [|x A' IH]; intros i HA'; cbn [app].
      - rewrite (exec_hit _ _ _ _ (Hm2 i)). eauto.
      - apply not_elem_of_cons in HA' as [Hx HA']. rewrite exec_miss.
        + now apply IH.
        + rewrite Hr2. apply lits_other_head. apply N.eqb_neq. congruence. }
    destruct (H A 0 HA) as [p ->]. reflexivity.
  - cbn [RewriteRule.transform defValue].
    destruct defValue_pats_shape as (r1 & r2 & Hr1 & Hr2).
    change (A ++ lit "v(s)" ++ B) with (A ++ 118%N :: lit "(s)" ++ B) at 1.
    rewrite (replace_none _ 118%N [] r1 _ A 118%N (lit "(s)" ++ B) Hr1 HA HB')
      by (intros i; reflexivity).
    change (A ++ 118%N :: lit "(s)" ++ B) with (A ++ lit "v(s)" ++ B).
    rewrite (replace_one _ 118%N [] r2 _ A (lit "v(s)") B [] Hr2 HA HB);
      [reflexivity|discriminate|exact Hm2].
Qed.

Lemma defValue_rewrites_witness :
  let A := lit "2 " in
  let B := lit " + 1" in
  (118%N ∉ A) /\ (118%N ∉ B)
  /\ RewriteRule.transform defValue (lit "2 v(s) + 1")
     = Ok (lit "2 \\mathbb{E}[G_t\\mid S_t=s] + 1").
Proof.
  intros A B.
  assert (HA : 118%N ∉ A).
  { intros H. vm_compute in H.
    repeat (apply elem_of_cons in H as [H|H]; [discriminate|]).
    now apply not_elem_of_nil in H. }
  assert (HB : 118%N ∉ B).
  { intros H. vm_compute in H.
    repeat (apply elem_of_cons in H as [H|H]; [discriminate|]).
    now apply not_elem_of_nil in H. }
  split; [exact HA|]. split; [exact HB|].
  change (lit "2 v(s) + 1") with (A ++ lit "v(s)" ++ B).
  rewrite (proj2 (defValue_rewrites A B HA HB)).
  vm_compute. reflexivity.
Defined.

Lemma isPrefix_self sub B : isPrefix sub (sub ++ B) = true.
Proof.
  induction sub as [|c sub IH]; [reflexivity|].
  cbn. now rewrite N.eqb_refl, IH.
Qed.

Lemma includes_occurrence A sub B : includes (A ++ sub ++ B) sub = true.
Proof.
  unfold includes.
  assert (H : forall i, exists k, search sub (A ++ sub ++ B) i = Some k).
  { induction A as [|x A IH]; intros i; cbn [app].
    - destruct sub as [|c sub]; [destruct B; cbn; eauto|].
      cbn [app search]. change (c :: sub ++ B) with ((c :: sub) ++ B).
      rewrite isPrefix_self. eauto.
    - cbn [search]. destruct (isPrefix sub (x :: A ++ sub ++ B)); eauto. }
  destruct (H 0) as [k ->]. reflexivity.
Qed.

Lemma defReturn_pat_shape : exists r, regexp "G_t" = lits [71%N] r.
Proof. eexists. vm_compute. reflexivity. Qed.

(** X21. [def-return] rewrites an occurrence of [G_t]: in an expression that
    holds the letter [G] nowhere else, the occurrence becomes the discounted
    sum (written with doubled backslashes), the text around it stays, and
    the result is normalized. The predicate of the rule finds the
    occurrence, and accepts the expression unless it holds the sum already. *)
Theorem defReturn_rewrites A B :
  71%N ∉ A -> 71%N ∉ B ->
  RewriteRule.appliesTo defReturn (A ++ lit "G_t" ++ B)
  = Ok (negb (includes (A ++ lit "G_t" ++ B) (lit "\\sum_{k=0}^{\infty}")))
  /\ RewriteRule.transform defReturn (A ++ lit "G_t" ++ B)
     = Ok (normalize
             (A ++ lit "\\sum_{k=0}^{\\infty} \\gamma^k R_{t+1+k}" ++ B)).
Proof.
  intros HA HB. split.
  - cbn [RewriteRule.appliesTo defReturn]. now rewrite includes_occurrence.
  - cbn [RewriteRule.transform defReturn].
    destruct defReturn_pat_shape as [r Hr].
    rewrite (replace_one _ 71%N [] r _ A (lit "G_t") B [] Hr HA HB);
      [reflexivity|discriminate|].
    intros i. unfold matchAt.
    change (regexp "G_t") with (lits (lit "G_t") Eps).
    rewrite m_lits. cbn [rest pos caps]. rewrite isPrefix_self.
    cbn. f_equal.
Qed.

Lemma defReturn_rewrites_witness :
  let A := lit "\\mathbb{E}[" in
  let B := lit "\\mid S_t=s]" in
  (71%N ∉ A) /\ (71%N ∉ B)
  /\ RewriteRule.transform defReturn (lit "\\mathbb{E}[G_t\\mid S_t=s]")
     = Ok (lit "\\mathbb{E}[\\sum_{k=0}^{\\infty} \\gamma^k R_{t+1+k}\\mid S_t=s]").
Proof.
  intros A B.
  assert (HA : 71%N ∉ A).
  { intros H. vm_compute in H.
    repeat (apply elem_of_cons in H as [H|H]; [discriminate|]).
    now apply not_elem_of_nil in H. }
  assert (HB : 71%N ∉ B).
  { intros H. vm_compute in H.
    repeat (apply elem_of_cons in H as [H|H]; [discriminate|]).
    now apply not_elem_of_nil in H. }
  split; [exact HA|]. split; [exact HB|].
  change (lit "\\mathbb{E}[G_t\\mid S_t=s]") with (A ++ lit "G_t" ++ B).
  rewrite (proj2 (defReturn_rewrites A B HA HB)).
  vm_compute. reflexivity.
Defined.

End SingleOccurrence.

(** ** Linearity of expectation *)

Section LinearityFacts.
Import Js Regex Catalog.

(** *** Trimming *)

Lemma trimStart_fixed_or_shorter s :
  trimStart s = s \/ length (trimStart s) < length s.
Proof.
  destruct s as [|c t]; [now left|]. cbn [trimStart].
  destruct (isWhite c); [right|now left].
  pose proof (trimStart_length t). cbn [length]. lia.
Qed.

Lemma trimEnd_length s : length (trimEnd s) <= length s.
Proof.
  unfold trimEnd. rewrite length_rev.
  pose proof (trimStart_length (rev s)) as H. now rewrite length_rev in H.
Qed.

Lemma trim_fixed s : trim s = s -> trimStart s = s /\ trimEnd s = s.
Proof.
  intros H. unfold trim in H.
  destruct (trimStart_fixed_or_shorter s) as [Hs|Hs].
  - split; [exact Hs|]. now rewrite Hs in H.
  - pose proof (trimEnd_length (trimStart s)) as Hl. rewrite H in Hl. lia.
Qed.

Lemma trimStart_app u v :
  trimStart u <> [] -> trimStart (u ++ v) = trimStart u ++ v.
Proof.
  induction u as [|c u IH]; intros H; [now cbn in H|].
  cbn [app trimStart] in *. destruct (isWhite c); [now apply IH|reflexivity].
Qed.

Lemma trimEnd_app u v :
  trimEnd v <> [] -> trimEnd (u ++ v) = u ++ trimEnd v.
Proof.
  unfold trimEnd. intros H. rewrite rev_app_distr, trimStart_app.
  - now rewrite rev_app_distr, rev_involutive.
  - intros Hn. apply H. now rewrite Hn.
Qed.

Lemma trim_space s : trim (32%N :: s) = trim s.
Proof. reflexivity. Qed.

Lemma trimStart_head c t : trimStart (c :: t) = c :: t -> isWhite c = false.
Proof.
  cbn [trimStart]. destruct (isWhite c); [|reflexivity].
  intros H. pose proof (trimStart_length t) as Hl. rewrite H in Hl.
  cbn [length] in Hl. lia.
Qed.

(** *** Searching *)

Lemma search_first sub B : forall A i,
  (forall j, j < length A -> isPrefix sub (drop j (A ++ sub ++ B)) = false) ->
  search sub (A ++ sub ++ B) i = Some (i + length A).
Proof.
  induction A as [|x A IH]; intros i H.
  - cbn [app length]. rewrite Nat.add_0_r.
    destruct (sub ++ B) as [|y t] eqn:E; cbn [search];
      rewrite <- E, isPrefix_self; reflexivity.
  - cbn [app search]. pose proof (H 0 ltac:(cbn; lia)) as H0.
    rewrite drop_0 in H0. cbn [app] in H0. rewrite H0.
    rewrite IH; [f_equal; cbn; lia|].
    intros j Hj. apply (H (S j)). cbn. lia.
Qed.

Lemma isPrefix_short sub s t :
  length sub <= length s -> isPrefix sub (s ++ t) = isPrefix sub s.
Proof.
  revert s. induction sub as [|a sub IH]; intros s H; [reflexivity|].
  destruct s as [|b s]; [cbn in H; lia|].
  cbn [app isPrefix]. rewrite IH; [reflexivity|cbn in H; lia].
Qed.

(** No occurrence of [\mid] begins inside a text that holds none and ends
    in an occurrence that follows the text. *)
Lemma mid_not_astride X B j :
  includes X (lit "\mid") = false -> j < length X ->
  isPrefix (lit "\mid") (drop j X ++ lit "\mid" ++ B) = false.
Proof.
  intros Hno Hj. pose proof (includes_false _ _ Hno j) as Hj'.
  assert (Hlen : length (drop j X) = length X - j) by apply length_drop.
  destruct (drop j X) as [|a [|b [|c [|d R]]]] eqn:E.
  - cbn in Hlen. lia.
  - cbn. now rewrite !andb_false_r.
  - cbn. now rewrite !andb_false_r.
  - cbn. now rewrite !andb_false_r.
  - rewrite isPrefix_short by (cbn; lia). exact Hj'.
Qed.

Lemma searchLast_end c : forall s i,
  searchLast [c] (s ++ [c]) i = Some (i + length s).
Proof.
  induction s as [|x s IH]; intros i.
  - cbn. now rewrite N.eqb_refl, Nat.add_0_r.
  - cbn [app searchLast]. rewrite IH. f_equal. cbn. lia.
Qed.

(** *** Slicing *)

Lemma slice_middle (A M B : jsstring) :
  slice (A ++ M ++ B) (Z.of_nat (length A)) (Z.of_nat (length A + length M)) = M.
Proof.
  unfold slice. rewrite !length_app.
  destruct (Z.ltb_spec (Z.of_nat (length A)) 0) as [Habs|_]; [lia|].
  destruct (Z.ltb_spec (Z.of_nat (length A + length M)) 0) as [Habs|_]; [lia|].
  rewrite !Z.min_l by lia. rewrite !Nat2Z.id.
  rewrite drop_app_length.
  replace (length A + length M - length A) with (length M) by lia.
  apply take_app_length.
Qed.

(** *** The pattern of the inside *)

(** [\s*] before a pattern that matches after the whole run of whitespace. *)
Lemma ws_then r k e t : forall w st,
  rest st = w ++ t ->
  Forall (fun c => isWhite c = true) w ->
  match t with c :: _ => isWhite c = false | [] => True end ->
  m r (MState (pos st + length w) t (caps st)) k = Some e ->
  m (Seq ws r) st k = Some e.
Proof.
  intros w st Hrest Hw Ht Hk. rewrite m_seq. unfold ws. rewrite m_star.
  assert (Hf : length w < S (length (rest st))).
  { rewrite Hrest, length_app. lia. }
  revert Hf. generalize (S (length (rest st))) as fuel.
  revert st Hrest Hk. induction Hw as [|c w Hc Hw IH]; intros st Hrest Hk fuel Hf.
  - destruct fuel as [|fuel]; [cbn in Hf; lia|]. cbn [starLoop].
    rewrite m_space. cbn [app] in Hrest. cbn [length] in Hk.
    rewrite Nat.add_0_r in Hk. rewrite <- Hrest, mstate_eta in Hk.
    rewrite Hrest. destruct t as [|c t']; [exact Hk|]. now rewrite Ht.
  - destruct fuel as [|fuel]; [cbn in Hf; lia|]. cbn [starLoop].
    rewrite m_space, Hrest. cbn [app]. rewrite Hc. cbn [pos].
    destruct (Nat.eqb_spec (S (pos st)) (pos st)) as [Habs|_]; [lia|].
    rewrite (IH (MState (S (pos st)) (w ++ t) (caps st))); [reflexivity|reflexivity| |].
    + cbn [pos caps]. cbn [length] in Hk.
      now replace (S (pos st) + length w) with (pos st + S (length w)) by lia.
    + cbn [length] in Hf. lia.
Qed.

Lemma m_any st k :
  m Any st k
  = match rest st with
    | c :: t =>
        if negb (isLineTerminator c) then k (MState (S (pos st)) t (caps st))
        else None
    | [] => None
    end.
Proof. reflexivity. Qed.

(** [.*] with the end of the subject behind it takes the rest of a line. *)
Lemma any_star_all k e cs : forall u fuel p,
  Forall (fun c => isLineTerminator c = false) u ->
  length u < fuel ->
  k (MState (p + length u) [] cs) = Some e ->
  starLoop (m Any) k fuel (MState p u cs) = Some e.
Proof.
  induction u as [|c u IH]; intros fuel p Hu Hf Hk;
    (destruct fuel as [|fuel]; [cbn in Hf; lia|]); cbn [starLoop];
    rewrite m_any; cbn [rest pos caps].
  - cbn [length] in Hk. now rewrite Nat.add_0_r in Hk.
  - inversion Hu as [|? ? Hc Hu']; subst. rewrite Hc. cbn [negb].
    destruct (Nat.eqb_spec (S p) p) as [Habs|_]; [lia|].
    rewrite (IH fuel (S p)); [reflexivity|exact Hu'|cbn in Hf; lia|].
    cbn [length] in Hk. now replace (S p + length u) with (p + S (length u)) by lia.
Qed.

Lemma inside_matches X :
  X <> [] -> trimStart X = X ->
  Forall (fun c => isLineTerminator c = false) X ->
  match_ (lit "R_{t+1} + \gamma " ++ X)
    (regexp "^R_\{t\+1\}\s*\+\s*\\gamma\s*(.+)$")
  = Some (MState (17 + length X) [] [(1, X)]).
Proof.
  intros Hne Hs Hlt. unfold match_. erewrite exec_hit; [reflexivity|].
  destruct X as [|x X']; [congruence|].
  pose proof (trimStart_head x X' Hs) as Hx.
  inversion Hlt as [|? ? Hx' Hlt']; subst.
  change (regexp "^R_\{t\+1\}\s*\+\s*\\gamma\s*(.+)$")
    with (Seq Bol (lits (lit "R_{t+1}")
            (Seq ws (lits (lit "+")
              (Seq ws (lits (lit "\gamma")
                (Seq ws (Seq (Group 1 (Seq (Plus Any) Eps)) (Seq Eol Eps))))))))).
  unfold matchAt. cbn [m pos Nat.eqb]. rewrite m_lits. cbn [rest pos caps].
  change (isPrefix (lit "R_{t+1}") (lit "R_{t+1} + \gamma " ++ x :: X')) with true.
  cbv iota.
  apply (ws_then _ _ _ (lit "+ \gamma " ++ x :: X') (lit " "));
    [reflexivity|repeat constructor|reflexivity|].
  rewrite m_lits. cbn [rest pos caps].
  change (isPrefix (lit "+") (lit "+ \gamma " ++ x :: X')) with true. cbv iota.
  apply (ws_then _ _ _ (lit "\gamma " ++ x :: X') (lit " "));
    [reflexivity|repeat constructor|reflexivity|].
  rewrite m_lits. cbn [rest pos caps].
  change (isPrefix (lit "\gamma") (lit "\gamma " ++ x :: X')) with true. cbv iota.
  apply (ws_then _ _ _ (x :: X') (lit " "));
    [reflexivity|repeat constructor|exact Hx|].
  cbn [m Plus]. unfold step1 at 1. cbn [rest pos caps]. rewrite Hx'. cbn [negb].
  apply any_star_all; [exact Hlt'|lia|].
  cbn [m rest pos caps length].
  change (0 + length (lit "R_{t+1}") + length (lit " ") + length (lit "+")
          + length (lit " ") + length (lit "\gamma") + length (lit " "))
    with 17.
  replace (S 17 + length X' - 17) with (S (length X')) by lia.
  replace (take (S (length X')) (x :: X')) with (x :: X')
    by (symmetry; apply (firstn_all (x :: X'))).
  repeat (f_equal; try lia).
Qed.

(** *** The rule *)

Lemma indexOf_first sub A B :
  (forall j, j < length A -> isPrefix sub (drop j (A ++ sub ++ B)) = false) ->
  indexOf (A ++ sub ++ B) sub 0 = Z.of_nat (length A).
Proof.
  intros H. unfold indexOf.
  replace (Z.to_nat (Z.min (Z.max 0 0) (Z.of_nat (length (A ++ sub ++ B)))))
    with 0 by lia.
  rewrite drop_0, (search_first sub B A 0 H). reflexivity.
Qed.

Lemma lastIndexOf_end c s :
  lastIndexOf (s ++ [c]) [c] = Z.of_nat (length s).
Proof. unfold lastIndexOf. now rewrite searchLast_end. Qed.

(** X22. [linearity] splits the expectation of a reward plus a discounted
    term: for a term [X] and a condition [Z] that carry no whitespace at
    their ends, with [X] not empty, on one line and without [\mid], the
    expression [\mathbb{E}[R_{t+1} + \gamma X\mid Z]] is accepted by the
    predicate of the rule and rewritten to
    [\mathbb{E}[R_{t+1}\mid Z] + \gamma\,\mathbb{E}[X\mid Z]]. *)
Theorem linearity_splits X Z :
  X <> [] -> trim X = X ->
  Forall (fun c => isLineTerminator c = false) X ->
  includes X (lit "\mid") = false ->
  trim Z = Z ->
  let latex :=
    lit "\mathbb{E}[R_{t+1} + \gamma " ++ X ++ lit "\mid " ++ Z ++ lit "]" in
  RewriteRule.appliesTo linearity latex = Ok true
  /\ RewriteRule.transform linearity latex
     = Ok (lit "\mathbb{E}[R_{t+1}\mid " ++ Z
           ++ lit "] + \gamma\,\mathbb{E}[" ++ X
           ++ lit "\mid " ++ Z ++ lit "]").
Proof.
  intros Hne HX Hlt Hno HZ latex.
  destruct (trim_fixed X HX) as [HXs HXe].
  set (H := lit "\mathbb{E}[").
  set (P1 := lit "R_{t+1} + \gamma ").
  set (M := lit "\mid").
  assert (Hmid : indexOf latex M 0 = Z.of_nat (28 + length X)).
  { change latex with ((H ++ P1 ++ X) ++ M ++ (32%N :: Z ++ lit "]")).
    rewrite indexOf_first; [rewrite !length_app; reflexivity|].
    intros j Hj. rewrite !length_app in Hj.
    change (length H + (length P1 + length X)) with (28 + length X) in Hj.
    destruct (lt_dec j 28) as [Hlt28|Hge].
    - change ((H ++ P1 ++ X) ++ M ++ 32%N :: Z ++ lit "]") with latex.
      do 28 (destruct j as [|j]; [reflexivity|]). lia.
    - replace j with (length (H ++ P1) + (j - 28)) by (cbn; lia).
      rewrite (app_assoc H P1 X), <- (app_assoc (H ++ P1) X).
      rewrite drop_app_add. rewrite drop_app_le by lia.
      apply mid_not_astride; [exact Hno|lia]. }
  assert (Hstart : indexOf latex H 0 = 0%Z).
  { change latex with ([] ++ H ++ (P1 ++ X ++ lit "\mid " ++ Z ++ lit "]")).
    rewrite indexOf_first; [reflexivity|]. cbn. lia. }
  assert (Hend : lastIndexOf latex (lit "]")
                 = Z.of_nat (33 + length X + length Z)).
  { change latex with (H ++ P1 ++ X ++ lit "\mid " ++ Z ++ [93%N]).
    rewrite !app_assoc. rewrite lastIndexOf_end. f_equal.
    rewrite !length_app. cbn. lia. }
  assert (Hinside : slice latex (0 + Z.of_nat 11) (Z.of_nat (28 + length X))
                    = P1 ++ X).
  { change latex with (H ++ (P1 ++ X) ++ (lit "\mid " ++ Z ++ lit "]")).
    replace (0 + Z.of_nat 11)%Z with (Z.of_nat (length H)) by reflexivity.
    replace (28 + length X) with (length H + length (P1 ++ X))
      by (rewrite length_app; cbn; lia).
    apply slice_middle. }
  assert (Hcond : slice latex (Z.of_nat (28 + length X) + Z.of_nat 4)
                    (Z.of_nat (33 + length X + length Z))
                  = 32%N :: Z).
  { assert (E : latex = (H ++ P1 ++ X ++ M) ++ (32%N :: Z) ++ lit "]")
      by (unfold latex, H, P1, M; rewrite <- !app_assoc; reflexivity).
    rewrite E.
    replace (Z.of_nat (28 + length X) + Z.of_nat 4)%Z
      with (Z.of_nat (length (H ++ P1 ++ X ++ M)))
      by (rewrite !length_app; cbn [length]; unfold jsstring, char in *; change (length H) with 11; change (length P1) with 17; change (length M) with 4; lia).
    replace (33 + length X + length Z)
      with (length (H ++ P1 ++ X ++ M) + length (32%N :: Z))
      by (rewrite !length_app; cbn [length]; unfold jsstring, char in *; change (length H) with 11; change (length P1) with 17; change (length M) with 4; lia).
    apply slice_middle. }
  split.
  - cbn [RewriteRule.appliesTo linearity]. f_equal.
    change latex with ([] ++ lit "\mathbb{E}[" ++ (P1 ++ X ++ lit "\mid " ++ Z ++ lit "]")) at 1.
    rewrite includes_occurrence.
    change latex with (H ++ lit "R_{t+1}" ++ (lit " + \gamma " ++ X ++ lit "\mid " ++ Z ++ lit "]")) at 1.
    rewrite includes_occurrence.
    change latex with (lit "\mathbb{E}[R_{t+1} " ++ lit "+" ++ (lit " \gamma " ++ X ++ lit "\mid " ++ Z ++ lit "]")) at 1.
    rewrite includes_occurrence.
    change latex with (lit "\mathbb{E}[R_{t+1} + " ++ lit "\gamma" ++ (lit " " ++ X ++ lit "\mid " ++ Z ++ lit "]")) at 1.
    rewrite includes_occurrence.
    assert (E : latex = (H ++ P1 ++ X) ++ lit "\mid" ++ (32%N :: Z ++ lit "]"))
      by reflexivity.
    rewrite E. now rewrite includes_occurrence.
  - cbn [RewriteRule.transform linearity]. fold H. fold M.
    rewrite Hstart. cbn [Z.ltb Z.compare]. rewrite Hmid.
    destruct (Z.ltb_spec (Z.of_nat (28 + length X)) 0) as [Habs|_]; [lia|].
    rewrite Hend.
    destruct (Z.ltb_spec (Z.of_nat (33 + length X + length Z)) 0) as [Habs|_];
      [lia|].
    destruct (Z.ltb_spec (Z.of_nat (33 + length X + length Z))
                (Z.of_nat (28 + length X))) as [Habs|_]; [lia|].
    cbn [orb].
    change (length H) with 11. change (length M) with 4.
    rewrite Hinside, Hcond, trim_space, HZ.
    assert (Htrim : trim (P1 ++ X) = P1 ++ X).
    { unfold trim. change (trimStart (P1 ++ X)) with (P1 ++ X).
      rewrite trimEnd_app by (rewrite HXe; exact Hne). now rewrite HXe. }
    rewrite Htrim. unfold P1. rewrite (inside_matches X Hne HXs Hlt).
    cbn [capture caps List.find fst snd Nat.eqb fmap option_fmap option_map].
    now rewrite HX.
Qed.

Lemma linearity_splits_witness :
  let X := lit "G_{t+1}" in
  let Z := lit "S_t=s" in
  X <> [] /\ trim X = X /\ trim Z = Z
  /\ RewriteRule.transform linearity
       (lit "\mathbb{E}[R_{t+1} + \gamma G_{t+1}\mid S_t=s]")
     = Ok (lit "\mathbb{E}[R_{t+1}\mid S_t=s] + \gamma\,\mathbb{E}[G_{t+1}\mid S_t=s]").
Proof.
  intros X Z.
  assert (H1 : X <> []) by discriminate.
  assert (H2 : trim X = X) by reflexivity.
  assert (H3 : Forall (fun c => isLineTerminator c = false) X)
    by (repeat constructor).
  assert (H4 : includes X (lit "\mid") = false) by reflexivity.
  assert (H5 : trim Z = Z) by reflexivity.
  split; [exact H1|]. split; [exact H2|]. split; [exact H5|].
  exact (proj2 (linearity_splits X Z H1 H2 H3 H4 H5)).
Defined.

End LinearityFacts.
